(** * FluidFramework: blob types, summarizer heuristics, merge-tree inserts, edit reverts

    A shallow embedding of the parts of the repository that the specification
    makes claims about.

    - [Blobs]: [getFileBlobType] and the [IGenericBlob] union
      (packages/loader/container-definitions/src/blobs.ts).
    - [SummarizerHeuristics]: [SummarizeHeuristicData] and
      [SummarizeHeuristicRunner]
      (packages/runtime/container-runtime/src/summarizerHeuristics.ts).
    - [MergeTree]: segments, observers and the insert walk of the sequence
      CRDT, with the clients and the ordering service of the
      interval-collection tests.
    - [HistoryEditFactory]: [revert] of an edit, as exercised by its test
      suite.
    - [IntervalCollectionFuzz]: the operation generators of the
      interval-collection fuzz harness, [assertConsistent],
      [logCurrentState] and [assertIntervals].
    - [JsString], [TextLoader]: [loadSegments] of the merge-tree test
      utilities, with the string methods it calls.
    - [TicTacToe]: the handler of the page of a game,
      apps/src/routes/tictactoe.ts. *)

From Stdlib Require Import ZArith String Ascii List Bool Lia.
From stdpp Require Import base option list gmap strings sorting.
Import ListNotations.

Local Open Scope string_scope.
Local Open Scope list_scope.

(** ** blobs.ts *)

Module Blobs.

(** [IBaseBlob]: [content?: Buffer | null] is absent ([None]), null
    ([Some None]) or a buffer. *)
Record IBaseBlob := {
  content : option (option (list Byte.byte));
  id : string;
  size : Z;
  fileName : string;
  url : string
}.

(** [IGenericBlob = IDataBlob | IImageBlob | IVideoBlob], a union tagged by
    the [type] field. *)
Inductive IGenericBlob :=
| IDataBlob (base : IBaseBlob)
| IImageBlob (base : IBaseBlob) (height width : Z)
| IVideoBlob (base : IBaseBlob) (height width length : Z).

(** The [type] field of each member of the union. *)
Definition blobType (b : IGenericBlob) : string :=
  match b with
  | IDataBlob _ => "generic"
  | IImageBlob _ _ _ => "image"
  | IVideoBlob _ _ _ _ => "video"
  end.

(** The literal types the [type] field ranges over. *)
Definition genericBlobTags : list string := ["generic"; "image"; "video"].

(** [getFileBlobType]: a [switch] on the mime type; the four image cases
    fall through to one [return]. *)
Definition getFileBlobType (mimeType : string) : string :=
  if (mimeType =? "image/jpeg") || (mimeType =? "image/png")
     || (mimeType =? "image/gif") || (mimeType =? "image/bmp")
  then "image"
  else if mimeType =? "video/mp4" then "video"
  else if mimeType =? "text/plain" then "text"
  else "generic".

Definition imageMimeTypes : list string :=
  ["image/jpeg"; "image/png"; "image/gif"; "image/bmp"].

Definition knownMimeTypes : list string :=
  imageMimeTypes ++ ["video/mp4"; "text/plain"].

End Blobs.

(** ** summarizerHeuristics.ts *)

Module SummarizerHeuristics.

Local Open Scope Z_scope.

(** [ISummarizeAttempt] (summarizerTypes): the reference sequence number
    and the time of a summary attempt.  Sequence numbers and millisecond
    timestamps are JavaScript numbers holding integers. *)
Record ISummarizeAttempt := {
  refSequenceNumber : Z;
  summaryTime : Z
}.

(** The fields of [ISummaryConfigurationHeuristics] (containerRuntime) that
    this file reads. *)
Record ISummaryConfigurationHeuristics := {
  idleTime : Z;
  maxTime : Z;
  maxOps : Z;
  minOpsForLastSummaryAttempt : Z
}.

(** [class SummarizeHeuristicData]. *)
Record SummarizeHeuristicData := {
  lastOpSequenceNumber : Z;
  lastAttempt : ISummarizeAttempt;
  lastSuccessfulSummary : ISummarizeAttempt
}.

(** [constructor(lastOpSequenceNumber, attemptBaseline)]. *)
Definition newSummarizeHeuristicData (lastOp : Z) (attemptBaseline : ISummarizeAttempt)
  : SummarizeHeuristicData :=
  {| lastOpSequenceNumber := lastOp;
     lastAttempt := attemptBaseline;
     lastSuccessfulSummary := attemptBaseline |}.

Definition updateWithLastSummaryAckInfo (lastSummary : ISummarizeAttempt)
  (d : SummarizeHeuristicData) : SummarizeHeuristicData :=
  {| lastOpSequenceNumber := lastOpSequenceNumber d;
     lastAttempt := lastSummary;
     lastSuccessfulSummary := lastSummary |}.

(** [recordAttempt(refSequenceNumber?)]; [now] is the value of
    [Date.now()]. *)
Definition recordAttempt (refSeq : option Z) (now : Z)
  (d : SummarizeHeuristicData) : SummarizeHeuristicData :=
  {| lastOpSequenceNumber := lastOpSequenceNumber d;
     lastAttempt :=
       {| refSequenceNumber := default (lastOpSequenceNumber d) refSeq;
          summaryTime := now |};
     lastSuccessfulSummary := lastSuccessfulSummary d |}.

Definition markLastAttemptAsSuccessful (d : SummarizeHeuristicData)
  : SummarizeHeuristicData :=
  {| lastOpSequenceNumber := lastOpSequenceNumber d;
     lastAttempt := lastAttempt d;
     lastSuccessfulSummary := lastAttempt d |}.

(** What a method of [SummarizeHeuristicRunner] does to its collaborators:
    the idle [Timer], the [trySummarize] callback and the telemetry
    logger. *)
Inductive Call :=
| IdleTimerClear
| IdleTimerRestart
| TrySummarize (reason : string)
| SendTelemetryEvent (eventName : string) (opsSinceLastAck minOps : Z).

(** A method returns a value and the calls it made, in order. *)
Definition Eff (A : Type) : Type := (A * list Call)%type.

Definition ret {A} (a : A) : Eff A := (a, []).
Definition bind {A B} (m : Eff A) (k : A -> Eff B) : Eff B :=
  let '(a, c1) := m in let '(b, c2) := k a in (b, (c1 ++ c2)%list).
Definition call (c : Call) : Eff unit := (tt, [c]).
Definition calls {A} (m : Eff A) : list Call := snd m.

Notation "m1 >> m2" := (bind m1 (fun _ => m2))
  (at level 62, right associativity).

(** [class SummarizeHeuristicRunner]: the heuristic data it reads and its
    configuration. *)
Record SummarizeHeuristicRunner := {
  heuristicData : SummarizeHeuristicData;
  configuration : ISummaryConfigurationHeuristics
}.

(** [get opsSinceLastAck()]. *)
Definition opsSinceLastAck (r : SummarizeHeuristicRunner) : Z :=
  lastOpSequenceNumber (heuristicData r)
  - refSequenceNumber (lastSuccessfulSummary (heuristicData r)).

(** [run()]; [now] is the value of [Date.now()]. *)
Definition run (r : SummarizeHeuristicRunner) (now : Z) : Eff unit :=
  let timeSinceLastSummary :=
    now - summaryTime (lastSuccessfulSummary (heuristicData r)) in
  let ops := opsSinceLastAck r in
  if timeSinceLastSummary >? maxTime (configuration r) then
    call IdleTimerClear >> call (TrySummarize "maxTime")
  else if ops >? maxOps (configuration r) then
    call IdleTimerClear >> call (TrySummarize "maxOps")
  else
    call IdleTimerRestart.

(** The callback the constructor gives the idle timer: when the timer
    fires, [trySummarize("idle")]. *)
Definition idleTimerCallback (r : SummarizeHeuristicRunner) : Eff unit :=
  call (TrySummarize "idle").

(** [shouldRunLastSummary()]. *)
Definition shouldRunLastSummary (r : SummarizeHeuristicRunner) : Eff bool :=
  let ops := opsSinceLastAck r in
  let minOps := minOpsForLastSummaryAttempt (configuration r) in
  call (SendTelemetryEvent "ShouldRunLastSummary" ops minOps) >>
  ret (ops >=? minOps).

(** [dispose()]. *)
Definition dispose (r : SummarizeHeuristicRunner) : Eff unit :=
  call IdleTimerClear.

(** The reasons [trySummarize] was invoked with, in order. *)
Definition trySummarizeReasons (cs : list Call) : list string :=
  omap (fun c => match c with TrySummarize reason => Some reason | _ => None end) cs.

End SummarizerHeuristics.

(** ** Results of operations

  An operation either completes with a value or fails fast on a violated
  programming contract (an assertion that does not hold, an offset out of
  range).  A value may itself be JavaScript's [undefined], modelled by
  [None] where a function can return it. *)

Inductive outcome (A : Type) : Type :=
| Done (a : A)
| Defect (message : string).

Arguments Done {A} a.
Arguments Defect {A} message.

Definition failedFast {A} (o : outcome A) : bool :=
  match o with Done _ => false | Defect _ => true end.

(** ** The merge tree: segments, perspectives, inserts *)

Module MergeTree.

Local Open Scope nat_scope.

(** Modelled from the spec: the merge tree of the sequence package is not
    among the sources (only its tests and a test utility are).  The data
    model follows section 3 of the specification: a segment carries the
    sequence number at which it became visible, or the sentinel of a local,
    unacknowledged segment, which here also names the pending local
    operation it belongs to. *)
Inductive SeqNum :=
| Assigned (n : nat)
| Unassigned (localSeq : nat).

(** Modelled from the spec: a text segment (section 3, [Segment]):
    content, [sequenceNumber], [clientId] and, once deleted,
    [removedSequenceNumber] and [removedClientId]. *)
Record Segment := {
  text : list ascii;
  seq : SeqNum;
  clientId : nat;
  removed : option (SeqNum * nat)
}.

(** A new, live segment. *)
Definition newSegment (txt : list ascii) (sq : SeqNum) (cid : nat) : Segment :=
  {| text := txt; seq := sq; clientId := cid; removed := None |}.

(** The same segment with other content. *)
Definition withText (s : Segment) (txt : list ascii) : Segment :=
  {| text := txt; seq := seq s; clientId := clientId s; removed := removed s |}.

(** Whether a stamp is within what an observer at [refSeq] has seen. *)
Definition seqVisible (refSeq : nat) (s : SeqNum) : bool :=
  match s with
  | Assigned n => n <=? refSeq
  | Unassigned _ => false
  end.

(** Modelled from the spec: visibility of a segment to the observer
    [(refSeq, cid)] (section 3, [Position]; section 4.2, [getLength]): the
    observer sees its own segments and those sequenced at or before
    [refSeq], unless it removed the segment itself or the removal was
    sequenced at or before [refSeq]. *)
Definition visible (refSeq cid : nat) (s : Segment) : bool :=
  ((clientId s =? cid) || seqVisible refSeq (seq s))
  && negb match removed s with
          | None => false
          | Some (rs, rc) => (rc =? cid) || seqVisible refSeq rs
          end.

(** Length of a segment as the observer sees it. *)
Definition nodeLength (refSeq cid : nat) (s : Segment) : nat :=
  if visible refSeq cid s then length (text s) else 0.

(** Modelled from the spec: [split(offset)] of the segment store (section
    4.1): two segments whose combined content is the original; an offset
    past the end of the segment fails fast. *)
Definition split (offset : nat) (s : Segment) : outcome (Segment * Segment) :=
  if offset <=? length (text s) then
    Done (withText s (take offset (text s)), withText s (drop offset (text s)))
  else Defect "split offset out of range".

(** Modelled from the spec: the tie-break between an insert and a segment
    of no length to the inserting observer that sits at the insert position
    (section 4.2, [applyRemoteOp]).  The order is by sequence number, an
    unacknowledged stamp counting as later than every assigned one; its
    direction is fixed by the test "can maintain interval consistency",
    where the insert sequenced later ends up first. *)
Definition breakTie (pos : nat) (s : Segment) (newSeq : SeqNum) : bool :=
  (pos =? 0) &&
  match newSeq, seq s with
  | Unassigned _, _ => true
  | Assigned _, Unassigned _ => false
  | Assigned n, Assigned m => m <? n
  end.

(** Modelled from the spec: [insert(position, content, clientSeq, refSeq)]
    (section 4.2): walk the segments with the observer's lengths, split
    the segment the position falls into, and put the new segments there.
    A position past the observer's text fails fast. *)
Fixpoint insertSegments (refSeq cid : nat) (newSeq : SeqNum) (pos : nat)
    (news segs : list Segment) : outcome (list Segment) :=
  match segs with
  | [] => if pos =? 0 then Done news else Defect "insert position out of range"
  | s :: rest =>
      let len := nodeLength refSeq cid s in
      if (pos <? len) || ((pos =? len) && breakTie pos s newSeq) then
        if pos =? 0 then Done (news ++ s :: rest)
        else
          match split pos s with
          | Done (l, r) => Done (l :: news ++ r :: rest)
          | Defect m => Defect m
          end
      else
        match insertSegments refSeq cid newSeq (pos - len) news rest with
        | Done segs' => Done (s :: segs')
        | Defect m => Defect m
        end
  end.

(** The text an observer sees. *)
Definition textAt (refSeq cid : nat) (segs : list Segment) : list ascii :=
  concat (map (fun s => if visible refSeq cid s then text s else []) segs).

(** *** A client of the shared string *)

(** Modelled from the spec: a peer (sections 4.5 and 5): its client id, the
    last sequence number it has processed, the count of its local
    operations, those still awaiting acknowledgment (oldest first), and its
    tree. *)
Record Client := {
  self : nat;
  currentSeq : nat;
  localOps : nat;
  pending : list nat;
  segments : list Segment
}.

Definition newClient (cid : nat) : Client :=
  {| self := cid; currentSeq := 0; localOps := 0; pending := []; segments := [] |}.

(** An insert operation as sent to the ordering service (section 6). *)
Record Message := {
  sender : nat;
  referenceSequenceNumber : nat;
  position : nat;
  content : list ascii
}.

Record SequencedMessage := {
  sequenceNumber : nat;
  message : Message
}.

(** [getText()] of a client: the text of its own current view. *)
Definition getText (c : Client) : list ascii :=
  textAt (currentSeq c) (self c) (segments c).

(** [insertText(pos, text)]: applied at once to the local tree with an
    unacknowledged stamp, and handed to the ordering service. *)
Definition insertText (pos : nat) (txt : list ascii) (c : Client)
  : outcome (Client * Message) :=
  let k := S (localOps c) in
  let new := newSegment txt (Unassigned k) (self c) in
  match insertSegments (currentSeq c) (self c) (Unassigned k) pos [new] (segments c) with
  | Done segs =>
      Done ({| self := self c; currentSeq := currentSeq c; localOps := k;
               pending := pending c ++ [k]; segments := segs |},
            {| sender := self c; referenceSequenceNumber := currentSeq c;
               position := pos; content := txt |})
  | Defect m => Defect m
  end.

(** Acknowledgment: the provisional stamp of the pending operation [k] is
    rewritten to the assigned sequence number. *)
Definition ackSegment (cid k assigned : nat) (s : Segment) : Segment :=
  match seq s with
  | Unassigned k' =>
      if (k' =? k) && (clientId s =? cid)
      then {| text := text s; seq := Assigned assigned;
              clientId := clientId s; removed := removed s |}
      else s
  | Assigned _ => s
  end.

(** A sequenced message arrives: the sender's own copy acknowledges its
    oldest pending operation, every other client applies the insert as the
    sender saw it at its reference sequence number. *)
Definition processMessage (m : SequencedMessage) (c : Client) : outcome Client :=
  let n := sequenceNumber m in
  let msg := message m in
  if sender msg =? self c then
    match pending c with
    | k :: rest =>
        Done {| self := self c; currentSeq := n; localOps := localOps c;
                pending := rest;
                segments := map (ackSegment (self c) k n) (segments c) |}
    | [] => Defect "acknowledgment without a pending operation"
    end
  else
    let new := newSegment (content msg) (Assigned n) (sender msg) in
    match insertSegments (referenceSequenceNumber msg) (sender msg) (Assigned n)
            (position msg) [new] (segments c) with
    | Done segs =>
        Done {| self := self c; currentSeq := n; localOps := localOps c;
                pending := pending c; segments := segs |}
    | Defect d => Defect d
    end.

Fixpoint processMessages (ms : list SequencedMessage) (c : Client) : outcome Client :=
  match ms with
  | [] => Done c
  | m :: ms' =>
      match processMessage m c with
      | Done c' => processMessages ms' c'
      | Defect d => Defect d
      end
  end.

(** Modelled from the spec: the ordering service (section 1): it stamps the
    operations it receives with increasing sequence numbers, in the order
    of arrival, and every client sees them in that order. *)
Fixpoint sequenceMessages (lastSeq : nat) (ms : list Message) : list SequencedMessage :=
  match ms with
  | [] => []
  | m :: ms' =>
      {| sequenceNumber := S lastSeq; message := m |}
      :: sequenceMessages (S lastSeq) ms'
  end.

(** A document every client has fully processed up to [n]: no pending
    stamps, nothing sequenced after [n]. *)
Definition settledSeq (n : nat) (s : SeqNum) : bool :=
  match s with Assigned k => k <=? n | Unassigned _ => false end.

Definition settledSegment (n : nat) (s : Segment) : bool :=
  settledSeq n (seq s)
  && match removed s with None => true | Some (rs, _) => settledSeq n rs end.

Definition settled (n : nat) (segs : list Segment) : bool :=
  forallb (settledSegment n) segs.

(** A stamp later than every stamp of a document settled at [n]: a sequence
    number after [n], or an unacknowledged stamp. *)
Definition later (n : nat) (s : SeqNum) : bool :=
  match s with Assigned m => n <? m | Unassigned _ => true end.

(** A segment that was not removed. *)
Definition live (s : Segment) : bool :=
  match removed s with None => true | Some _ => false end.

(** A client that has processed everything up to [n] and waits for
    nothing. *)
Definition clientAt (cid n : nat) (segs : list Segment) : Client :=
  {| self := cid; currentSeq := n; localOps := 0; pending := []; segments := segs |}.

End MergeTree.

(** ** Reverting an edit *)

Module HistoryEditFactory.

Local Open Scope nat_scope.

Abbreviation NodeId := nat (only parsing).
Abbreviation DetachedSequenceId := nat (only parsing).
Abbreviation Payload := string (only parsing).

Record TraitLocation := { parent : NodeId; label : string }.

Inductive Side := Before | After.

(** A place in a trait: next to a sibling, or at an end of the trait. *)
Record StablePlace := {
  referenceSibling : option NodeId;
  referenceTrait : option TraitLocation;
  side : Side
}.

Record StableRange := { start : StablePlace; end_ : StablePlace }.

Definition before (n : NodeId) : StablePlace :=
  {| referenceSibling := Some n; referenceTrait := None; side := Before |}.
Definition after (n : NodeId) : StablePlace :=
  {| referenceSibling := Some n; referenceTrait := None; side := After |}.
Definition atStartOf (t : TraitLocation) : StablePlace :=
  {| referenceSibling := None; referenceTrait := Some t; side := After |}.
Definition atEndOf (t : TraitLocation) : StablePlace :=
  {| referenceSibling := None; referenceTrait := Some t; side := Before |}.
Definition only (n : NodeId) : StableRange :=
  {| start := before n; end_ := after n |}.

(** What a [Build] builds from: a new node, or a sequence built before. *)
Inductive BuildNode :=
| TreeNode (identifier : NodeId) (payload : option Payload)
| DetachedSequence (id : DetachedSequenceId).

(** [ChangeInternal]. *)
Inductive Change :=
| Build (source : list BuildNode) (destination : DetachedSequenceId)
| Insert (source : DetachedSequenceId) (destination : StablePlace)
| Detach (source : StableRange) (destination : option DetachedSequenceId)
| SetValue (nodeToModify : NodeId) (payload : option Payload)
| Constraint (toConstrain : StableRange).

(** The view of the tree that [revert] walks the edit over, and the two
    inverses that are read off it.  [createInvertedDetach] is given the
    source and the destination of the detach, and answers with the inverse
    changes and the ids of the detached nodes; it and
    [createInvertedSetValue] answer [None] when their target is not in the
    view. *)
Class TreeView (V : Type) := {
  createInvertedDetach :
    V -> StableRange -> option DetachedSequenceId -> option (list Change * list NodeId);
  createInvertedSetValue : V -> NodeId -> option (list Change);
  applyChange : V -> Change -> V
}.

(** Modelled from the spec: [createInvertedInsert] of HistoryEditFactory,
    which is not among the sources; the two tests that revert an insert
    expect a detach from the first inserted node to the last one.  The
    inverse of an insert is a detach of the range from before the first
    inserted node to after the last one. *)
Definition createInvertedInsert (nodesInserted : list NodeId)
    (saveTo : option DetachedSequenceId) : Change :=
  Detach {| start := {| referenceSibling := head nodesInserted;
                        referenceTrait := None; side := Before |};
            end_ := {| referenceSibling := last nodesInserted;
                       referenceTrait := None; side := After |} |}
         saveTo.

(** Modelled from the spec: the ids of the nodes a [Build] puts in its
    destination, in the order of its sources; the test "can revert multiple
    detached nodes" builds from two sequences built before. *)
Fixpoint builtNodeIds (builtNodes : gmap nat (list nat)) (source : list BuildNode)
  : outcome (list NodeId) :=
  match source with
  | [] => Done []
  | curr :: more =>
      match builtNodeIds builtNodes more with
      | Defect m => Defect m
      | Done ids =>
          match curr with
          | TreeNode identifier _ => Done (identifier :: ids)
          | DetachedSequence d =>
              match builtNodes !! d with
              | Some nodes => Done (nodes ++ ids)
              | None => Defect "detached sequence must have associated node IDs"
              end
          end
      end
  end.

Section Revert.

Context {V : Type} `{TreeView V}.

(** The loop state of [revert]. *)
Record RevertState := {
  result : list Change;
  builtNodes : gmap nat (list nat);
  detachedNodes : gmap nat (list nat);
  editor : V
}.

Definition hasKey (m : gmap nat (list nat)) (k : nat) : bool :=
  bool_decide (is_Some (m !! k)).

(** Modelled from the spec: one turn of the loop of [revert], which is
    not among the sources; modelled from the cases of its test suite
    ("revert"): the inverse of the change is put in front of the result.
    [Done None] is the function returning [undefined].  The test suite has
    no build into a destination already in use and no constraint; both are
    taken to fail fast, as section 7 of the specification says of malformed
    operations. *)
Definition revertChange (st : RevertState) (change : Change)
  : outcome (option RevertState) :=
  match change with
  | Build source destination =>
      if hasKey (builtNodes st) destination then
        Defect "Cannot revert Build: destination is already used by a Build"
      else if hasKey (detachedNodes st) destination then
        Defect "Cannot revert Build: destination is already used by a Detach"
      else
        match builtNodeIds (builtNodes st) source with
        | Defect m => Defect m
        | Done ids =>
            Done (Some {| result := result st;
                          builtNodes := <[destination := ids]> (builtNodes st);
                          detachedNodes := detachedNodes st;
                          editor := applyChange (editor st) change |})
        end
  | Insert source _ =>
      match builtNodes st !! source, detachedNodes st !! source with
      | Some nodesBuilt, _ =>
          Done (Some {| result := createInvertedInsert nodesBuilt None :: result st;
                        builtNodes := delete source (builtNodes st);
                        detachedNodes := detachedNodes st;
                        editor := applyChange (editor st) change |})
      | None, Some nodesDetached =>
          Done (Some {| result :=
                          createInvertedInsert nodesDetached (Some source) :: result st;
                        builtNodes := builtNodes st;
                        detachedNodes := delete source (detachedNodes st);
                        editor := applyChange (editor st) change |})
      | None, None => Done None
      end
  | Detach source destination =>
      match createInvertedDetach (editor st) source destination with
      | None => Done None
      | Some (invertedDetach, detachedNodeIds) =>
          match destination with
          | Some d =>
              if hasKey (builtNodes st) d || hasKey (detachedNodes st) d then Done None
              else
                Done (Some {| result := invertedDetach ++ result st;
                              builtNodes := builtNodes st;
                              detachedNodes := <[d := detachedNodeIds]> (detachedNodes st);
                              editor := applyChange (editor st) change |})
          | None =>
              Done (Some {| result := invertedDetach ++ result st;
                            builtNodes := builtNodes st;
                            detachedNodes := detachedNodes st;
                            editor := applyChange (editor st) change |})
          end
      end
  | SetValue nodeToModify _ =>
      match createInvertedSetValue (editor st) nodeToModify with
      | None => Done None
      | Some invert =>
          Done (Some {| result := invert ++ result st;
                        builtNodes := builtNodes st;
                        detachedNodes := detachedNodes st;
                        editor := applyChange (editor st) change |})
      end
  | Constraint _ => Defect "Revert currently does not support Constraints"
  end.

Fixpoint revertChanges (changes : list Change) (st : RevertState)
  : outcome (option RevertState) :=
  match changes with
  | [] => Done (Some st)
  | change :: more =>
      match revertChange st change with
      | Done (Some st') => revertChanges more st'
      | Done None => Done None
      | Defect m => Defect m
      end
  end.

(** The state [revert] starts its loop in. *)
Definition initialState (before : V) : RevertState :=
  {| result := []; builtNodes := ∅; detachedNodes := ∅; editor := before |}.

(** Modelled from the spec: [revert(changes, before)] of
    HistoryEditFactory, which is not among the sources; modelled from
    the cases of its test suite. *)
Definition revert (changes : list Change) (before : V)
  : outcome (option (list Change)) :=
  match revertChanges changes (initialState before) with
  | Done (Some st) => Done (Some (result st))
  | Done None => Done None
  | Defect m => Defect m
  end.

End Revert.

Arguments RevertState V : clear implicits.

(** Whether the detached sequence id [d] holds nodes after a change of an
    edit, given whether it did before: a build into [d] and a detach into
    [d] fill it, an insert from [d] empties it. *)
Definition holdsSequenceAfter (d : DetachedSequenceId) (held : bool) (change : Change)
  : bool :=
  match change with
  | Build _ destination => if d =? destination then true else held
  | Detach _ (Some destination) => if d =? destination then true else held
  | Insert source _ => if d =? source then false else held
  | _ => held
  end.

(** Whether [d] holds nodes after the changes [changes], from the start of
    the edit on. *)
Definition holdsSequence (d : DetachedSequenceId) (changes : list Change) : bool :=
  fold_left (holdsSequenceAfter d) changes false.

End HistoryEditFactory.

(** ** The tree of the revert tests

    Modelled from the spec: the views of the tree and the test tree of the
    revert suite ([refreshTestTree]) are not among the sources.  This is a
    small forest that implements [TreeView]: the root, the traits with
    their nodes in order, the payloads, and the sequences detached or built
    by the edit in progress.  [testTree] is the tree of the test suite: a
    root with a node in its left trait and a node in its right trait. *)

Module SimpleTestTree.

Import HistoryEditFactory.

Local Open Scope nat_scope.

#[global] Instance TraitLocation_eq_dec : EqDecision TraitLocation.
Proof. solve_decision. Defined.

Record RevisionView := {
  rootId : nat;
  traits : list (TraitLocation * list nat);
  payloads : gmap nat string;
  detached : gmap nat (list nat)
}.

Definition getTrait (v : RevisionView) (t : TraitLocation) : list nat :=
  match find (fun tn => bool_decide (fst tn = t)) (traits v) with
  | Some (_, ns) => ns
  | None => []
  end.

Definition traitOfNode (v : RevisionView) (n : nat) : option TraitLocation :=
  match find (fun tn => bool_decide (n ∈ snd tn)) (traits v) with
  | Some (t, _) => Some t
  | None => None
  end.

Fixpoint indexOf (n : nat) (ns : list nat) : option nat :=
  match ns with
  | [] => None
  | m :: ns' => if n =? m then Some 0 else option_map S (indexOf n ns')
  end.

(** The nodes of the view: the root, the nodes in the traits, and the
    nodes of the detached sequences. *)
Definition hasNode (v : RevisionView) (n : nat) : bool :=
  (n =? rootId v)
  || bool_decide (is_Some (traitOfNode v n))
  || bool_decide (exists d ns, detached v !! d = Some ns /\ n ∈ ns).

(** Modelled from the spec: the trait and the index in it that a place
    denotes.  A place names either a sibling, which has to be in a trait of
    the view, or a trait, whose parent has to be a node of the view; else
    it denotes nothing ([None]). *)
Definition placeIndex (v : RevisionView) (p : StablePlace) : option (TraitLocation * nat) :=
  match referenceSibling p, referenceTrait p with
  | Some n, None =>
      match traitOfNode v n with
      | Some t =>
          match indexOf n (getTrait v t) with
          | Some i => Some (t, match side p with Before => i | After => S i end)
          | None => None
          end
      | None => None
      end
  | None, Some t =>
      if hasNode v (parent t) then
        Some (t, match side p with After => 0 | Before => length (getTrait v t) end)
      else None
  | _, _ => None
  end.

(** Modelled from the spec: a range is valid when its two places lie in
    one trait, in order. *)
Definition rangeIndices (v : RevisionView) (r : StableRange)
  : option (TraitLocation * nat * nat) :=
  match placeIndex v (start r), placeIndex v (end_ r) with
  | Some (t1, i), Some (t2, j) =>
      if bool_decide (t1 = t2) && (i <=? j) then Some (t1, i, j) else None
  | _, _ => None
  end.

Definition setTrait (t : TraitLocation) (ns : list nat)
    (ts : list (TraitLocation * list nat)) : list (TraitLocation * list nat) :=
  if existsb (fun tn => bool_decide (fst tn = t)) ts
  then map (fun tn => if bool_decide (fst tn = t) then (t, ns) else tn) ts
  else ts ++ [(t, ns)].

(** A place of the trait [t], with the trait named when the place has no
    sibling. *)
Definition placeIn (t : TraitLocation) (p : StablePlace) : StablePlace :=
  match referenceSibling p with
  | Some sibling => {| referenceSibling := Some sibling; referenceTrait := None; side := side p |}
  | None => {| referenceSibling := None; referenceTrait := Some t; side := side p |}
  end.

(** Modelled from the spec: [createInvertedDetach] of HistoryEditFactory,
    which is not among the sources; the test suite only has a detach of a
    node that is not in the tree, for which it answers [undefined].  For a
    range of the view, the detached nodes are those between its places.
    They are put back at the start place of the range when that is on the
    [After] side, else at its end place when that is on the [Before] side,
    else after the node left of the range, or at the start of the trait
    when there is none.  The inverse of a detach with a destination is an
    insert of that destination; the inverse of a detach without one is a
    build of the detached nodes, each with its payload (a build node holds
    no children here: the nodes of the test tree are leaves), and an insert
    of what was built. *)
Definition invertedDetachOf (v : RevisionView) (r : StableRange)
    (destination : option nat) : option (list Change * list nat) :=
  match rangeIndices v r with
  | Some (t, i, j) =>
      let nodes := getTrait v t in
      let detachedNodeIds := take (j - i) (drop i nodes) in
      let leftOfDetached := take i nodes in
      let insertDestination :=
        match side (start r), side (end_ r) with
        | After, _ => placeIn t (start r)
        | Before, Before => placeIn t (end_ r)
        | Before, After =>
            match last leftOfDetached with
            | Some sibling => after sibling
            | None => atStartOf t
            end
        end in
      match destination with
      | Some d => Some ([Insert d insertDestination], detachedNodeIds)
      | None =>
          Some ([Build (map (fun n => TreeNode n (payloads v !! n)) detachedNodeIds) 0;
                 Insert 0 insertDestination], detachedNodeIds)
      end
  | None => None
  end.

(** Modelled from the spec: [createInvertedSetValue] of
    HistoryEditFactory, which is not among the sources; the test suite only
    has a set-value of a node that is not in the tree, for which it answers
    [undefined].  For a node of the view the inverse sets the payload that
    the node has in the view. *)
Definition invertedSetValueOf (v : RevisionView) (n : nat) : option (list Change) :=
  if hasNode v n then Some [SetValue n (payloads v !! n)] else None.

(** Modelled from the spec: the edit in progress applied to the view; a
    change that does not apply leaves the view as it is. *)
Definition applyTo (v : RevisionView) (c : Change) : RevisionView :=
  match c with
  | Build source destination =>
      match builtNodeIds (detached v) source with
      | Done ids =>
          {| rootId := rootId v; traits := traits v; payloads := payloads v;
             detached := <[destination := ids]> (detached v) |}
      | Defect _ => v
      end
  | Insert source destination =>
      match detached v !! source, placeIndex v destination with
      | Some nodes, Some (t, i) =>
          let ns := getTrait v t in
          {| rootId := rootId v; traits := setTrait t (take i ns ++ nodes ++ drop i ns) (traits v);
             payloads := payloads v;
             detached := delete source (detached v) |}
      | _, _ => v
      end
  | Detach source destination =>
      match rangeIndices v source with
      | Some (t, i, j) =>
          let ns := getTrait v t in
          {| rootId := rootId v; traits := setTrait t (take i ns ++ drop j ns) (traits v);
             payloads := payloads v;
             detached :=
               match destination with
               | Some d => <[d := take (j - i) (drop i ns)]> (detached v)
               | None => detached v
               end |}
      | None => v
      end
  | SetValue n p =>
      {| rootId := rootId v; traits := traits v;
         payloads := match p with Some x => <[n := x]> (payloads v) | None => delete n (payloads v) end;
         detached := detached v |}
  | Constraint _ => v
  end.

#[global] Instance RevisionView_TreeView : TreeView RevisionView :=
  {| createInvertedDetach := invertedDetachOf;
     createInvertedSetValue := invertedSetValueOf;
     applyChange := applyTo |}.

Definition root : nat := 0.
Definition left : nat := 1.
Definition right : nat := 2.
Definition leftTraitLocation : TraitLocation := {| parent := root; label := "left" |}.
Definition rightTraitLocation : TraitLocation := {| parent := root; label := "right" |}.

Definition testTree : RevisionView :=
  {| rootId := root;
     traits := [(leftTraitLocation, [left]); (rightTraitLocation, [right])];
     payloads := ∅;
     detached := ∅ |}.

(** [buildLeafInternal()]: a new leaf, not in the tree. *)
Definition buildLeafInternal (identifier : nat) : BuildNode := TreeNode identifier None.

End SimpleTestTree.

(** ** The shared-string scenarios of the tests *)

Module SharedStringTests.

Import MergeTree.

(** Two clients insert at the same position of a document both have fully
    processed up to [n], before either operation is sequenced.  The ordering
    service takes the operation of [a] first; [a], [b] and a third client [c]
    then process both.  The result is the three clients, in that order. *)
Definition concurrentInserts (n : nat) (segs : list Segment) (a b c pos : nat)
    (x y : list ascii) : outcome (Client * Client * Client) :=
  match insertText pos x (clientAt a n segs), insertText pos y (clientAt b n segs) with
  | Done (a1, ma), Done (b1, mb) =>
      let ms := sequenceMessages n [ma; mb] in
      match processMessages ms a1, processMessages ms b1,
            processMessages ms (clientAt c n segs) with
      | Done a2, Done b2, Done c2 => Done (a2, b2, c2)
      | Defect m, _, _ => Defect m
      | _, Defect m, _ => Defect m
      | _, _, Defect m => Defect m
      end
  | Defect m, _ => Defect m
  | _, Defect m => Defect m
  end.

Definition texts (r : outcome (Client * Client * Client)) : option (string * string * string) :=
  match r with
  | Done (a, b, c) =>
      Some (string_of_list_ascii (getText a), string_of_list_ascii (getText b),
            string_of_list_ascii (getText c))
  | Defect _ => None
  end.

(** The scenario of the specification: on an empty document client 1 inserts
    "abc" at 0 and client 2 inserts "xyz" at 0, and the operation of client 1
    is sequenced first. *)
Definition emptyDocumentScenario : option (string * string * string) :=
  texts (concurrentInserts 0 [] 1 2 3 0
           (list_ascii_of_string "abc") (list_ascii_of_string "xyz")).

(** The text part of the test "can maintain interval consistency": client 1
    inserts "xyz" and all messages are processed; then client 1 inserts "abc"
    at 0 and client 2 inserts "wha" at 0, and all messages are processed. *)
Definition intervalConsistencyTest : option (string * string * string) :=
  match insertText 0 (list_ascii_of_string "xyz") (newClient 1) with
  | Done (c1, m) =>
      match processMessages (sequenceMessages 0 [m]) c1 with
      | Done c1' =>
          texts (concurrentInserts 1 (segments c1') 1 2 3 0
                   (list_ascii_of_string "abc") (list_ascii_of_string "wha"))
      | Defect _ => None
      end
  | Defect _ => None
  end.

End SharedStringTests.

(** ** The interval-collection fuzz harness and its consistency check

  The test utilities of the shared string's interval collections
  (src/unnamed/part_001): the operation generators of
  [makeOperationGenerator], their acceptance conditions, [logCurrentState],
  [assertConsistent], the [changeConnectionState] reducer and
  [assertIntervals].

  [SharedString], [IntervalCollection] and [SequenceInterval] are classes
  of the sequence package; the harness only calls their read methods, so
  each object is modelled by what those methods return.  A thrown error (a
  failed assertion, a [TypeError], a [RangeError]) is a [Defect]. *)

Module IntervalCollectionFuzz.

Local Open Scope Z_scope.

(** [PropertySet]: an object used as a map from property names to values;
    [assert.deepEqual] compares two of them by their entries, in no
    order.  The harness generates string values. *)
Abbreviation PropertySet := (gmap string string).

(** A [LocalReference] is a handle that a shared string resolves to a
    position. *)
Definition LocalReference := nat.

Record SequenceInterval := {
  getIntervalId : string;
  start : LocalReference;
  end_ : LocalReference;
  intervalType : Z;
  properties : PropertySet
}.

(** [IntervalCollection<SequenceInterval>]: [intervals] is the order of
    iteration ([for ... of], [Array.from]). *)
Record IntervalCollection := {
  intervals : list SequenceInterval;
  getIntervalById : string -> option SequenceInterval;
  findOverlappingIntervals : Z -> Z -> list SequenceInterval
}.

Record SharedString := {
  id : string;
  getLength : Z;
  getText : string;
  getIntervalCollectionLabels : list string;
  getIntervalCollection : string -> IntervalCollection;
  localRefToPos : LocalReference -> Z;
  localReferencePositionToPosition : LocalReference -> Z
}.

Record MockContainerRuntimeForReconnection := {
  connected : bool
}.

Record Client := {
  sharedString : SharedString;
  containerRuntime : MockContainerRuntimeForReconnection
}.

(** [ClientOpState]: the fuzz state with the shared string an operation is
    generated for.  The [random] member is threaded through the generators
    below. *)
Record ClientOpState := {
  clients : list Client;
  stateSharedString : SharedString
}.

(** [RangeSpec]: [start] and [end]. *)
Definition RangeSpec := (Z * Z)%type.

Inductive Operation :=
| AddText (stringId : string) (index : Z) (content : string)
| RemoveRange (stringId : string) (range : RangeSpec)
| AddInterval (stringId : string) (collectionName : option string)
    (range : RangeSpec) (intervalId : string)
| ChangeInterval (stringId collectionName intervalId : string)
    (newStart newEnd : option Z)
| DeleteInterval (stringId collectionName intervalId : string)
| ChangeProperties (stringId collectionName intervalId : string)
    (newProperties : PropertySet)
| ChangeConnectionState (stringId : string) (nowConnected : bool)
| Synchronize.

(** [Required<OperationGenerationConfig>]: the options after the defaults
    are filled in. *)
Record OperationGenerationConfig := {
  maxStringLength : Z;
  maxIntervals : Z;
  maxInsertLength : Z;
  intervalCollectionNamePool : list string;
  propertyNamePool : list string;
  validateInterval : Z
}.

Definition defaultOptions : OperationGenerationConfig :=
  {| maxStringLength := 1000;
     maxIntervals := 100;
     maxInsertLength := 10;
     intervalCollectionNamePool := ["comments"];
     propertyNamePool := ["prop1"; "prop2"; "prop3"];
     validateInterval := 100 |}.

(** *** Errors *)

#[global] Instance outcome_bind : MBind outcome :=
  fun A B k o => match o with Done a => k a | Defect m => Defect m end.

(** [assert(value, message)] and the [assert.equal] family, given the
    result of the comparison. *)
Definition assert (value : bool) (message : string) : outcome unit :=
  if value then Done tt else Defect message.

(** [for (const x of l) body(x)]: the first error ends the loop. *)
Fixpoint forEach {A} (l : list A) (body : A -> outcome unit) : outcome unit :=
  match l with
  | [] => Done tt
  | x :: rest => body x ;; forEach rest body
  end.

(** *** The random source

  [state.random] (stochastic-test-utils) is a seeded generator: each call
  returns a value and advances its state [R].  [pick] of an empty array is
  [undefined]. *)

Class Random (R : Type) := {
  integer : Z -> Z -> R -> Z * R;
  pick : forall A : Type, list A -> R -> option A * R;
  randomString : Z -> R -> string * R;
  uuid4 : R -> string * R;
  shuffle : list string -> R -> list string * R
}.

Arguments pick {R _ A} _ _.

(** What the generators rely on: [integer(min, max)] lies between its
    bounds, [pick] returns an element of a non-empty array, [shuffle]
    reorders. *)
Record RandomLaws (R : Type) `{Random R} : Prop := {
  integer_range : forall min max r,
    min <= max -> min <= (integer min max r).1 <= max;
  pick_elem : forall (A : Type) (l : list A) r, l <> [] ->
    exists x, (pick l r).1 = Some x /\ In x l;
  shuffle_Permutation : forall l r, Permutation (shuffle l r).1 l
}.

(** A generator reads the random source and may throw. *)
Definition Gen (R A : Type) : Type := R -> outcome (A * R).

Definition genRet {R A} (a : A) : Gen R A := fun r => Done (a, r).
Definition genBind {R A B} (m : Gen R A) (k : A -> Gen R B) : Gen R B :=
  fun r => match m r with Done (a, r') => k a r' | Defect e => Defect e end.
Definition draw {R A} (f : R -> A * R) : Gen R A := fun r => Done (f r).
Definition throw {R A} (message : string) : Gen R A := fun _ => Defect message.

Notation "'let*' x := c 'in' k" := (genBind c (fun x => k))
  (at level 10, x name, c at level 100, k at level 200).

(** *** [makeOperationGenerator] *)

Section Generators.

Context {R : Type} `{Random R}.
Variable options : OperationGenerationConfig.

Definition isNonEmpty (collection : IntervalCollection) : bool :=
  match intervals collection with
  | _ :: _ => true
  | [] => false
  end.

Definition position (state : ClientOpState) : Gen R Z :=
  draw (integer 0 (getLength (stateSharedString state) - 1)).

Definition exclusiveRange (state : ClientOpState) : Gen R RangeSpec :=
  let* start := position state in
  let* end_ := draw (integer (start + 1) (getLength (stateSharedString state))) in
  genRet (start, end_).

Definition inclusiveRange (state : ClientOpState) : Gen R RangeSpec :=
  let* start := position state in
  let* end_ := draw (integer start (getLength (stateSharedString state) - 1)) in
  genRet (start, end_).

(** [array.slice(0, n)]; a negative [n] counts from the end. *)
Definition slice0 {A} (n : Z) (l : list A) : list A :=
  if n <? 0 then take (Z.to_nat (Z.of_nat (length l) + n)) l
  else take (Z.to_nat n) l.

(** The loop of [propertySet]: [propSet[name] = state.random.string(5)]. *)
Fixpoint fillProperties (names : list string) (propSet : PropertySet)
  : Gen R PropertySet :=
  match names with
  | [] => genRet propSet
  | name :: rest =>
      let* value := draw (randomString 5) in
      fillProperties rest (<[name := value]> propSet)
  end.

Definition propertySet (state : ClientOpState) : Gen R PropertySet :=
  let* propNamesShuffled := draw (shuffle (propertyNamePool options)) in
  let* count := draw (integer 1 (Z.of_nat (length propNamesShuffled))) in
  fillProperties (slice0 count propNamesShuffled) ∅.

(** [undefined] when no collection has an interval. *)
Definition nonEmptyIntervalCollection (state : ClientOpState) : Gen R (option string) :=
  let sharedString := stateSharedString state in
  let nonEmptyLabels :=
    List.filter (fun label => isNonEmpty (getIntervalCollection sharedString label))
      (getIntervalCollectionLabels sharedString) in
  draw (pick nonEmptyLabels).

(** [interval]: a collection with an interval, and the id of one of its
    intervals.  With [undefined] for the collection name the source looks
    up a collection of that name and picks from it; this model stops there
    with an error, as the source does when the pick is [undefined]. *)
Definition interval (state : ClientOpState) : Gen R (string * string) :=
  let* collectionName := nonEmptyIntervalCollection state in
  match collectionName with
  | None => throw "TypeError: Cannot read properties of undefined (reading 'getIntervalId')"
  | Some collectionName =>
      let* picked :=
        draw (pick (intervals (getIntervalCollection (stateSharedString state)
                                 collectionName))) in
      match picked with
      | None => throw "TypeError: Cannot read properties of undefined (reading 'getIntervalId')"
      | Some picked => genRet (collectionName, getIntervalId picked)
      end
  end.

Definition addText (state : ClientOpState) : Gen R Operation :=
  let* index := position state in
  let* length := draw (integer 0 (maxInsertLength options)) in
  let* content := draw (randomString length) in
  genRet (AddText (id (stateSharedString state)) index content).

Definition removeRange (state : ClientOpState) : Gen R Operation :=
  let* range := exclusiveRange state in
  genRet (RemoveRange (id (stateSharedString state)) range).

Definition addInterval (state : ClientOpState) : Gen R Operation :=
  let* range := inclusiveRange state in
  let* collectionName := draw (pick (intervalCollectionNamePool options)) in
  let* intervalId := draw uuid4 in
  genRet (AddInterval (id (stateSharedString state)) collectionName range intervalId).

Definition deleteInterval (state : ClientOpState) : Gen R Operation :=
  let* picked := interval state in
  genRet (DeleteInterval (id (stateSharedString state)) picked.1 picked.2).

Definition changeInterval (state : ClientOpState) : Gen R Operation :=
  let* range := inclusiveRange state in
  let* dropStart := draw (integer 0 5) in
  let* dropEnd := draw (integer 0 5) in
  let* picked := interval state in
  genRet (ChangeInterval (id (stateSharedString state)) picked.1 picked.2
            (if dropStart =? 5 then None else Some range.1)
            (if dropEnd =? 5 then None else Some range.2)).

Definition changeProperties (state : ClientOpState) : Gen R Operation :=
  let* picked := interval state in
  let* newProperties := propertySet state in
  genRet (ChangeProperties (id (stateSharedString state)) picked.1 picked.2
            newProperties).

(** [clients.find((c) => c.sharedString.id === stringId)]. *)
Definition findClient (stringId : string) (cs : list Client) : option Client :=
  List.find (fun c => String.eqb (id (sharedString c)) stringId) cs.

Definition changeConnectionState (state : ClientOpState) : Gen R Operation :=
  let stringId := id (stateSharedString state) in
  match findClient stringId (clients state) with
  | None => throw "TypeError: Cannot destructure property 'containerRuntime' of undefined"
  | Some c =>
      genRet (ChangeConnectionState stringId
                (if connected (containerRuntime c) then false else true))
  end.

(** The acceptance conditions. *)
Definition hasAnInterval (state : ClientOpState) : bool :=
  existsb (fun label =>
             isNonEmpty (getIntervalCollection (stateSharedString state) label))
    (getIntervalCollectionLabels (stateSharedString state)).

Definition lengthSatisfies (criteria : Z -> bool) (state : ClientOpState) : bool :=
  criteria (getLength (stateSharedString state)).

Definition hasNonzeroLength : ClientOpState -> bool :=
  lengthSatisfies (fun length => length >? 0).

Definition isShorterThanMaxLength : ClientOpState -> bool :=
  lengthSatisfies (fun length => length <? maxStringLength options).

(** The inner loop of [hasNotTooManyIntervals]: [None] when it returns
    [false], else the count so far. *)
Fixpoint countIntervals (collection : list SequenceInterval) (intervalCount : Z)
  : option Z :=
  match collection with
  | [] => Some intervalCount
  | _ :: rest =>
      let intervalCount := intervalCount + 1 in
      if intervalCount >=? maxIntervals options then None
      else countIntervals rest intervalCount
  end.

Fixpoint countCollections (sharedString : SharedString) (labels : list string)
    (intervalCount : Z) : option Z :=
  match labels with
  | [] => Some intervalCount
  | label :: rest =>
      match countIntervals (intervals (getIntervalCollection sharedString label))
              intervalCount with
      | None => None
      | Some intervalCount => countCollections sharedString rest intervalCount
      end
  end.

Definition hasNotTooManyIntervals (state : ClientOpState) : bool :=
  match countCollections (stateSharedString state)
          (getIntervalCollectionLabels (stateSharedString state)) 0 with
  | Some _ => true
  | None => false
  end.

(** [all(...clauses)]: [clauses.reduce((prev, cond) => prev && cond(t), true)]. *)
Definition all {T} (clauses : list (T -> bool)) (t : T) : bool :=
  fold_left (fun prev cond => prev && cond t) clauses true.

(** The rows of [createWeightedGenerator]: a generator, its weight and its
    acceptance condition, if it has one. *)
Definition clientBaseOperationGenerator
  : list ((ClientOpState -> Gen R Operation) * Z * option (ClientOpState -> bool)) :=
  [ (addText, 2, Some isShorterThanMaxLength);
    (removeRange, 1, Some hasNonzeroLength);
    (addInterval, 2, Some (all [hasNotTooManyIntervals; hasNonzeroLength]));
    (deleteInterval, 2, Some hasAnInterval);
    (changeInterval, 2, Some (all [hasAnInterval; hasNonzeroLength]));
    (changeProperties, 2, Some hasAnInterval);
    (changeConnectionState, 1, None) ].

(** A row may be chosen in a state when it has no condition or its
    condition holds. *)
Definition accepts (condition : option (ClientOpState -> bool))
    (state : ClientOpState) : bool :=
  match condition with
  | Some condition => condition state
  | None => true
  end.

End Generators.

(** *** [logCurrentState] *)

Record LoggingInfo := {
  trackedIntervalId : string;
  clientIds : list string
}.

Definition newline : string := String "010"%char EmptyString.

(** A string of [n] spaces. *)
Definition spaces (n : nat) : string := string_of_list_ascii (replicate n " "%char).

(** [" ".repeat(count)]: a [RangeError] for a negative count. *)
Definition repeatSpace (count : Z) : outcome string :=
  if count <? 0 then Defect "RangeError: Invalid count value"
  else Done (spaces (Z.to_nat count)).

(** The line that marks an interval from [start] to [end]. *)
Definition intervalMarker (start end_ : Z) : outcome string :=
  if end_ =? start then
    s ← repeatSpace start; Done (s ++ "x")%string
  else
    s1 ← repeatSpace start;
    s2 ← repeatSpace (end_ - start - 1);
    Done (s1 ++ "[" ++ s2 ++ "]")%string.

(** The interval that [logCurrentState] tracks in a string: the first
    defined result of [getIntervalById] over the labels. *)
Definition trackedInterval (sharedString : SharedString) (loggingInfo : LoggingInfo)
  : option SequenceInterval :=
  head (omap (fun label =>
                getIntervalById (getIntervalCollection sharedString label)
                  (trackedIntervalId loggingInfo))
          (getIntervalCollectionLabels sharedString)).

(** One round of the loop of [logCurrentState]: the lines it prints for
    the client [clientId], and whether it threw. *)
Definition logClient (cs : list Client) (loggingInfo : LoggingInfo)
    (clientId : string) : list string * outcome unit :=
  match findClient clientId cs with
  | None => ([], Defect "TypeError: Cannot destructure property 'sharedString' of undefined")
  | Some c =>
      let sharedString := sharedString c in
      let header := ("Client " ++ clientId ++ ":")%string in
      match trackedInterval sharedString loggingInfo with
      | Some tracked =>
          let start := localReferencePositionToPosition sharedString (start tracked) in
          let end_ := localReferencePositionToPosition sharedString (end_ tracked) in
          match intervalMarker start end_ with
          | Done marker => ([header; marker; getText sharedString; newline], Done tt)
          | Defect e => ([header], Defect e)
          end
      | None => ([header; getText sharedString; newline], Done tt)
      end
  end.

Fixpoint logClients (cs : list Client) (loggingInfo : LoggingInfo)
    (ids : list string) : list string * outcome unit :=
  match ids with
  | [] => ([], Done tt)
  | clientId :: rest =>
      match logClient cs loggingInfo clientId with
      | (lines, Done _) =>
          let '(more, result) := logClients cs loggingInfo rest in
          (lines ++ more, result)
      | (lines, Defect e) => (lines, Defect e)
      end
  end.

Definition logCurrentState (cs : list Client) (loggingInfo : LoggingInfo)
  : list string * outcome unit :=
  logClients cs loggingInfo (clientIds loggingInfo).

(** *** [assertConsistent] *)

(** [Array.prototype.sort()] without a comparison function orders strings
    by their code units; here the characters of a label are compared one
    by one, which is the same order for labels of ASCII characters. *)
Definition sortLabels (labels : list string) : list string :=
  merge_sort (fun a b => Is_true (String.leb a b)) labels.

(** The body of the loop over [intervals1]. *)
Definition assertSameInterval (first other : SharedString)
    (collection2 : IntervalCollection) (interval : SequenceInterval)
  : outcome unit :=
  match getIntervalById collection2 (getIntervalId interval) with
  | None => Defect "TypeError: Cannot read properties of undefined (reading 'start')"
  | Some otherInterval =>
      let firstStart := localRefToPos first (start interval) in
      let otherStart := localRefToPos other (start otherInterval) in
      assert (firstStart =? otherStart) "Startpoints of interval different" ;;
      let firstEnd := localRefToPos first (end_ interval) in
      let otherEnd := localRefToPos other (end_ otherInterval) in
      assert (firstEnd =? otherEnd) "Endpoints of interval different" ;;
      assert (intervalType interval =? intervalType otherInterval)
        "Expected values to be strictly equal" ;;
      assert (bool_decide (properties interval = properties otherInterval))
        "Expected values to be strictly deep-equal"
  end.

(** The body of the loop over the labels: [labels] is
    [(firstLabels[i], otherLabels[i])]. *)
Definition assertSameCollection (first other : SharedString)
    (labels : string * string) : outcome unit :=
  let collection1 := getIntervalCollection first labels.1 in
  let collection2 := getIntervalCollection other labels.2 in
  let intervals1 := intervals collection1 in
  let intervals2 := intervals collection2 in
  assert (length intervals1 =? length intervals2)%nat
    "Different number of intervals found" ;;
  forEach intervals1 (assertSameInterval first other collection2).

(** The body of the loop over the other connected clients.  The loop over
    [i] runs after [firstLabels] and [otherLabels] were found equal, so it
    visits the pairs of the two arrays. *)
Definition assertConsistentWith (first other : SharedString) : outcome unit :=
  assert (getLength first =? getLength other)
    "Expected values to be strictly equal" ;;
  assert (String.eqb (getText first) (getText other))
    "Non-equal text between strings" ;;
  let firstLabels := sortLabels (getIntervalCollectionLabels first) in
  let otherLabels := sortLabels (getIntervalCollectionLabels other) in
  assert (bool_decide (firstLabels = otherLabels))
    "Different interval collections found" ;;
  forEach (zip firstLabels otherLabels) (assertSameCollection first other).

Definition connectedClients (cs : list Client) : list Client :=
  List.filter (fun client => connected (containerRuntime client)) cs.

Definition assertConsistent (cs : list Client) : outcome unit :=
  if (length (connectedClients cs) <? 2)%nat then Done tt
  else
    match connectedClients cs with
    | [] => Done tt
    | firstClient :: others =>
        forEach others
          (fun client =>
             assertConsistentWith (sharedString firstClient) (sharedString client))
    end.

(** What [assertConsistent] establishes between the first connected client
    and another one, stated without loops. *)
Definition sameInterval (first other : SharedString)
    (i j : SequenceInterval) : Prop :=
  localRefToPos first (start i) = localRefToPos other (start j)
  /\ localRefToPos first (end_ i) = localRefToPos other (end_ j)
  /\ intervalType i = intervalType j
  /\ properties i = properties j.

Definition sameCollection (first other : SharedString) (label : string) : Prop :=
  length (intervals (getIntervalCollection first label))
  = length (intervals (getIntervalCollection other label))
  /\ forall i, In i (intervals (getIntervalCollection first label)) ->
       exists j,
         getIntervalById (getIntervalCollection other label) (getIntervalId i) = Some j
         /\ sameInterval first other i j.

Definition consistentWith (first other : SharedString) : Prop :=
  getLength first = getLength other
  /\ getText first = getText other
  /\ Permutation (getIntervalCollectionLabels first) (getIntervalCollectionLabels other)
  /\ forall label, In label (getIntervalCollectionLabels first) ->
       sameCollection first other label.

(** The string [s] has a collection labelled [collectionName] which holds
    an interval with the id [intervalId]. *)
Definition hasInterval (s : SharedString) (collectionName intervalId : string) : Prop :=
  In collectionName (getIntervalCollectionLabels s)
  /\ exists i, In i (intervals (getIntervalCollection s collectionName))
              /\ getIntervalId i = intervalId.

(** *** The [changeConnectionState] reducer *)

(** [containerRuntime.connected = connected] on the first client whose
    shared string has the id [stringId]. *)
Fixpoint setConnected (stringId : string) (nowConnected : bool) (cs : list Client)
  : outcome (list Client) :=
  match cs with
  | [] => Defect "TypeError: Cannot destructure property 'containerRuntime' of undefined"
  | c :: rest =>
      if String.eqb (id (sharedString c)) stringId then
        Done ({| sharedString := sharedString c;
                 containerRuntime := {| connected := nowConnected |} |} :: rest)
      else
        rest' ← setConnected stringId nowConnected rest; Done (c :: rest')
  end.

(** *** [assertIntervals] (the interval-collection tests) *)

Definition assertIntervals (sharedString : SharedString)
    (intervalCollection : IntervalCollection) (expected : list (Z * Z))
  : outcome unit :=
  let actual :=
    findOverlappingIntervals intervalCollection 0 (getLength sharedString - 1) in
  assert (length actual =? length expected)%nat
    "findOverlappingIntervals() must return the expected number of intervals" ;;
  forEach actual
    (fun actualInterval =>
       let start := localRefToPos sharedString (start actualInterval) in
       let end_ := localRefToPos sharedString (end_ actualInterval) in
       let found :=
         existsb (fun expectedInterval =>
                    (expectedInterval.1 =? start) && (expectedInterval.2 =? end_))
           expected in
       assert found "Unexpected interval").

End IntervalCollectionFuzz.

(** *** Sample states of the harness

  Two replicas of the text "ab" with one collection, "comments", that
  holds one interval from position 0 to position 1, and a replica that
  has not received the text yet. *)

Module FuzzSamples.

Import IntervalCollectionFuzz.

Local Open Scope Z_scope.

Definition comment : SequenceInterval :=
  {| getIntervalId := "i1"; start := 0%nat; end_ := 1%nat;
     intervalType := 2; properties := {["prop1" := "v"]} |}.

Definition comments : IntervalCollection :=
  {| intervals := [comment];
     getIntervalById := fun name => if String.eqb name "i1" then Some comment else None;
     findOverlappingIntervals := fun _ _ => [comment] |}.

(** A collection whose query returns two intervals, both from 0 to 1. *)
Definition twoComments : IntervalCollection :=
  {| intervals := [comment; comment];
     getIntervalById := fun name => if String.eqb name "i1" then Some comment else None;
     findOverlappingIntervals := fun _ _ => [comment; comment] |}.

Definition noIntervals : IntervalCollection :=
  {| intervals := [];
     getIntervalById := fun _ => None;
     findOverlappingIntervals := fun _ _ => [] |}.

Definition replica (name : string) : SharedString :=
  {| id := name;
     getLength := 2;
     getText := "ab";
     getIntervalCollectionLabels := ["comments"];
     getIntervalCollection :=
       fun label => if String.eqb label "comments" then comments else noIntervals;
     localRefToPos := Z.of_nat;
     localReferencePositionToPosition := Z.of_nat |}.

Definition staleReplica (name : string) : SharedString :=
  {| id := name;
     getLength := 0;
     getText := "";
     getIntervalCollectionLabels := [];
     getIntervalCollection := fun _ => noIntervals;
     localRefToPos := Z.of_nat;
     localReferencePositionToPosition := Z.of_nat |}.

Definition client (s : SharedString) (isConnected : bool) : Client :=
  {| sharedString := s; containerRuntime := {| connected := isConnected |} |}.

Definition sampleClients : list Client :=
  [client (replica "A") true; client (staleReplica "B") false; client (replica "C") true].

(** A random source that always returns the least value and the first
    element. *)
#[global] Instance leastRandom : Random unit :=
  {| integer := fun min _ r => (min, r);
     pick := fun _ l r => (head l, r);
     randomString := fun _ r => ("", r);
     uuid4 := fun r => ("00000000-0000-4000-8000-000000000000", r);
     shuffle := fun l r => (l, r) |}.

Definition sampleState : ClientOpState :=
  {| clients := sampleClients; stateSharedString := replica "A" |}.

End FuzzSamples.

(** ** Loading text into segments

  [loadSegments] of the merge-tree test utilities (src/unnamed/part_000)
  cuts a text into paragraphs and the paragraphs into segments.  A
  JavaScript string is a sequence of UTF-16 code units; the methods of
  [String] that [loadSegments] calls are written out on such sequences. *)

Module JsString.

Local Open Scope N_scope.

(** The code units of a string of ASCII characters. *)
Definition ofString (s : string) : list N :=
  map N_of_ascii (list_ascii_of_string s).

(** [s.startsWith(pattern)]. *)
Fixpoint startsWith (pattern s : list N) : bool :=
  match pattern, s with
  | [], _ => true
  | _ :: _, [] => false
  | p :: pattern, c :: s => (p =? c) && startsWith pattern s
  end.

(** [pattern] starts nowhere in [s]. *)
Definition absent (pattern s : list N) : Prop :=
  forall i, startsWith pattern (drop i s) = false.

(** [s.split(separator)] scans from the left: where the separator starts,
    the piece read so far ends and the scan goes on behind the separator.
    A scan of [s] takes at most [length s] steps. *)
Fixpoint splitFrom (steps : nat) (separator s piece : list N) : list (list N) :=
  match steps, s with
  | S steps, c :: rest =>
      if startsWith separator s
      then piece :: splitFrom steps separator (drop (length separator) s) []
      else splitFrom steps separator rest (piece ++ [c])
  | _, _ => [piece ++ s]
  end.

(** With the empty separator, [split] gives the code units one by one. *)
Definition split (separator s : list N) : list (list N) :=
  match separator with
  | [] => map (fun c => [c]) s
  | _ :: _ => splitFrom (length s) separator s []
  end.

(** [pieces.join(separator)]. *)
Fixpoint join (separator : list N) (pieces : list (list N)) : list N :=
  match pieces with
  | [] => []
  | [piece] => piece
  | piece :: pieces => piece ++ separator ++ join separator pieces
  end.

(** [s.replace(/pattern/g, replacement)] for a pattern that is a literal,
    non-empty string: the occurrences are found from the left and do not
    overlap. *)
Fixpoint replaceAllFrom (steps : nat) (pattern replacement s : list N) : list N :=
  match steps, s with
  | S steps, c :: rest =>
      if startsWith pattern s
      then replacement ++ replaceAllFrom steps pattern replacement (drop (length pattern) s)
      else c :: replaceAllFrom steps pattern replacement rest
  | _, _ => s
  end.

Definition replaceAll (pattern replacement s : list N) : list N :=
  replaceAllFrom (length s) pattern replacement s.

(** [s.replace(/a|b/g, replacement)] for a pattern that is an alternative
    of single code units, given as a test on a code unit. *)
Definition replaceUnits (matches : N -> bool) (replacement s : list N) : list N :=
  flat_map (fun c => if matches c then replacement else [c]) s.

(** [s.indexOf(pattern)]: the least index where [pattern] starts, or -1. *)
Fixpoint indexOfFrom (pattern s : list N) (index : Z) : Z :=
  if startsWith pattern s then index
  else match s with
       | [] => (-1)%Z
       | _ :: rest => indexOfFrom pattern rest (index + 1)%Z
       end.

Definition indexOf (pattern s : list N) : Z := indexOfFrom pattern s 0%Z.

(** A number, as far as the length of an array is concerned: an integer,
    or a number that is no integer (a fraction, an infinity or [NaN]), of
    which only the comparison with zero is read. *)
Inductive JsNumber :=
| Integer (z : Z)
| NotInteger (isGreaterThanZero : bool).

(** [n > 0]. *)
Definition greaterThanZero (n : JsNumber) : bool :=
  match n with
  | Integer z => (z >? 0)%Z
  | NotInteger isGreaterThanZero => isGreaterThanZero
  end.

(** [array.length = n]: a [RangeError] unless [n] is an integer from 0 to
    [2^32 - 1]; else the array is cut to [n] elements, or extended with
    holes, which read as [undefined] ([None]). *)
Definition setLength {A} (n : JsNumber) (array : list A) : outcome (list (option A)) :=
  match n with
  | Integer z =>
      if ((0 <=? z) && (z <? 2 ^ 32))%Z then
        Done (map Some (take (Z.to_nat z) array)
              ++ replicate (Z.to_nat z - length array) None)
      else Defect "RangeError: Invalid array length"
  | NotInteger _ => Defect "RangeError: Invalid array length"
  end.

End JsString.

Module TextLoader.

Import JsString.

Local Open Scope N_scope.

(** The values of the properties that [loadSegments] sets. *)
Inductive PropertyValue :=
| PString (s : string)
| PNumber (n : Z)
| PStrings (l : list string).

#[global] Instance PropertyValue_eq_dec : EqDecision PropertyValue.
Proof. solve_decision. Defined.

Abbreviation PropertySet := (gmap string PropertyValue).

(** The segments of [MergeTree]: [new TextSegment(text, seq, clientId)]
    has no properties, [TextSegment.make(text, props, seq, clientId)] and
    [Marker.make(behavior, props, seq, clientId)] have. *)
Inductive Segment :=
| TextSegment (text : list N) (properties : option PropertySet) (seq clientId : Z)
| Marker (behaviors : Z) (properties : PropertySet) (seq clientId : Z).

(** [marker.addProperties(newProps)]. *)
Definition addProperties (newProps : PropertySet) (s : Segment) : Segment :=
  match s with
  | TextSegment text properties seq clientId =>
      TextSegment text (Some (newProps ∪ default ∅ properties)) seq clientId
  | Marker behaviors properties seq clientId =>
      Marker behaviors (newProps ∪ properties) seq clientId
  end.

Definition byteOrderMark : N := 0xFEFF.
Definition leftDoubleQuote : N := 0x201C.
Definition rightDoubleQuote : N := 0x201D.
Definition rightSingleQuote : N := 0x2019.
Definition doubleQuote : N := 34.
Definition apostrophe : N := 39.
Definition space : N := 32.
Definition lineFeed : N := 10.
Definition underscore : N := 95.
Definition crlf : list N := [13; 10].

(** [content.replace(/^\uFEFF/, ...)] with the empty string: a byte order
    mark at the start is dropped. *)
Definition stripByteOrderMark (content : list N) : list N :=
  match content with
  | c :: rest => if c =? byteOrderMark then rest else content
  | [] => content
  end.

(** The text of a segment; a marker has none. *)
Definition segmentText (s : Segment) : list N :=
  match s with
  | TextSegment text _ _ _ => text
  | Marker _ _ _ _ => []
  end.

Definition isMarker (s : Segment) : bool :=
  match s with
  | Marker _ _ _ _ => true
  | TextSegment _ _ _ _ => false
  end.

(** The constants of the merge tree that [loadSegments] reads:
    [MergeTree.UniversalSequenceNumber], [MergeTree.LocalClientId],
    [ops.MarkerBehaviors.Tile] and [MergeTree.reservedTileLabelsKey]. *)
Class MergeTreeConstants := {
  UniversalSequenceNumber : Z;
  LocalClientId : Z;
  Tile : Z;
  reservedTileLabelsKey : string
}.

Section LoadSegments.

Context `{MergeTreeConstants}.

Definition withProps : bool := true.

(** The first loop: the replacements in a paragraph, and the line feed
    that ends it when there are no markers. *)
Definition prepareParagraph (markers : bool) (paragraph : list N) : list N :=
  let paragraph :=
    replaceUnits (fun c => c =? rightSingleQuote) [apostrophe]
      (replaceUnits (fun c => (c =? leftDoubleQuote) || (c =? rightDoubleQuote))
         [doubleQuote]
         (replaceAll crlf [space] paragraph)) in
  if markers then paragraph else paragraph ++ [lineFeed].

(** The loop over [emphStrings], from index [i] on: the pieces at odd
    indices are emphasized; empty pieces give no segment. *)
Fixpoint emphSegments (i : nat) (emphStrings : list (list N)) : list Segment :=
  match emphStrings with
  | [] => []
  | piece :: rest =>
      (if Nat.odd i then
         if (0 <? length piece)%nat then
           [TextSegment piece (Some {["fontStyle" := PString "italic"]})
              UniversalSequenceNumber LocalClientId]
         else []
       else
         if (0 <? length piece)%nat then
           [TextSegment piece None UniversalSequenceNumber LocalClientId]
         else [])
      ++ emphSegments (S i) rest
  end.

(** The body of the second loop: the segments pushed for one paragraph. *)
Definition paragraphSegments (markers : bool) (paragraph : list N) : list Segment :=
  let seq := UniversalSequenceNumber in
  let cli := LocalClientId in
  let pgMarker := Marker Tile {[reservedTileLabelsKey := PStrings ["pg"]]} seq cli in
  let '(pgMarker, pushed) :=
    if withProps then
      if (indexOf (ofString "Chapter") paragraph >=? 0)%Z then
        if markers then
          (addProperties {["header" := PNumber 2]} pgMarker,
           [TextSegment paragraph None seq cli])
        else
          (pgMarker,
           [TextSegment paragraph
              (Some {["fontSize" := PString "140%"; "lineHeight" := PString "150%"]})
              seq cli])
      else
        (pgMarker, emphSegments 0 (split [underscore] paragraph))
    else
      (pgMarker, [TextSegment paragraph None seq cli]) in
  if markers then pushed ++ [pgMarker] else pushed.

Definition paragraphsOf (content : list N) (markers : bool) : list (list N) :=
  map (prepareParagraph markers) (split crlf (stripByteOrderMark content)).

(** The array [segments] before [segLimit] is applied. *)
Definition allSegments (content : list N) (markers : bool) : list Segment :=
  flat_map (paragraphSegments markers) (paragraphsOf content markers).

(** [loadSegments(content, segLimit, markers)]; an element [None] is a hole
    of the array.  The assignment to [segments.length] throws for a limit
    that is no array length. *)
Definition loadSegments (content : list N) (segLimit : JsNumber) (markers : bool)
  : outcome (list (option Segment)) :=
  let segments := allSegments content markers in
  if greaterThanZero segLimit then setLength segLimit segments
  else Done (map Some segments).

End LoadSegments.

(** The text that the segments hold, in order. *)
Definition segmentsText (segments : list Segment) : list N :=
  concat (map segmentText segments).

(** Sample constants. *)
Definition sampleConstants : MergeTreeConstants :=
  {| UniversalSequenceNumber := 0;
     LocalClientId := -1;
     Tile := 1;
     reservedTileLabelsKey := "referenceTileLabels" |}.

End TextLoader.

(** ** The tic-tac-toe routes

  The handler that [create] registers for the page of a game, [/:id]
  (apps/src/routes/tictactoe.ts).  The handler is modelled by the calls it
  makes on the response and on the bot, in order.  The player of the query
  is compared with the string "single" only, and is taken as a string or
  [undefined] ([None]); so are the ids and the key of the configuration. *)

Module TicTacToe.

Section Routes.

(** [config.tenantInfo.endpoints] and the partials are passed on as they
    are. *)
Variables Endpoints Partials : Type.
Variable defaultPartials : Partials.

(** [JSON.stringify]. *)
Variable stringify : Endpoints -> string.

(** The fields of [config.tenantInfo] that the route reads. *)
Record TenantInfo := {
  endpoints : Endpoints;
  id : option string;
  secretKey : option string;
  tenantId : option string
}.

(** The parts of the request that the route reads: [request.query.player],
    [request.query.token] and [request.params.id]. *)
Record Request := {
  queryPlayer : option string;
  queryToken : option string;
  paramsId : string
}.

(** The data given to the "tictactoe" view. *)
Record ViewData := {
  viewEndpoints : string;
  viewId : string;
  viewPartials : Partials;
  viewTenantId : option string;
  viewTitle : string;
  viewToken : option string
}.

Inductive Call :=
| Render (view : string) (data : ViewData)
| BotStart (docId : string) (tenant : option string) (botEndpoints : Endpoints)
    (token : option string).

Definition renderView (request : Request) (docId : string) (tenantInfo : TenantInfo)
  : list Call :=
  [Render "tictactoe"
     {| viewEndpoints := stringify (endpoints tenantInfo);
        viewId := docId;
        viewPartials := defaultPartials;
        viewTenantId := id tenantInfo;
        viewTitle := docId;
        viewToken := queryToken request |}].

(** [router.get("/:id")], after [ensureAuthenticated] has let the request
    through; [localsToken] is [response.locals.token]. *)
Definition getById (tenantInfo : TenantInfo) (request : Request)
    (localsToken : option string) : list Call :=
  let request :=
    {| queryPlayer := queryPlayer request;
       queryToken := localsToken;
       paramsId := paramsId request |} in
  let docId := paramsId request in
  renderView request docId tenantInfo
  ++ (if bool_decide (queryPlayer request = Some "single") then
        [BotStart docId (tenantId tenantInfo) (endpoints tenantInfo)
           (queryToken request)]
      else []).

End Routes.

Arguments endpoints {Endpoints}.
Arguments id {Endpoints}.
Arguments secretKey {Endpoints}.
Arguments tenantId {Endpoints}.
Arguments Render {Endpoints Partials}.
Arguments BotStart {Endpoints Partials}.
Arguments renderView {Endpoints Partials}.
Arguments getById {Endpoints Partials}.

End TicTacToe.

(** * Properties *)

(** ** blobs.ts *)

(** Two string literals that differ. *)
Ltac literals_differ :=
  let H := fresh in
  intros H; apply String.eqb_eq in H; vm_compute in H; discriminate H.

(** A literal is not in a list of other literals. *)
Ltac not_among_literals :=
  rewrite ?elem_of_cons, ?elem_of_nil;
  let H := fresh in
  intros H; repeat (destruct H as [H | H]; [revert H; literals_differ |]);
  try exact H; try (revert H; literals_differ).

Section BlobsFacts.

Import Blobs.

Lemma getFileBlobType_cases (mimeType : string) :
  (mimeType ∈ imageMimeTypes /\ getFileBlobType mimeType = "image")
  \/ (mimeType = "video/mp4" /\ getFileBlobType mimeType = "video")
  \/ (mimeType = "text/plain" /\ getFileBlobType mimeType = "text")
  \/ ((mimeType ∉ knownMimeTypes) /\ getFileBlobType mimeType = "generic").
Proof.
  unfold getFileBlobType, knownMimeTypes, imageMimeTypes.
  destruct (String.eqb_spec mimeType "image/jpeg") as [->|H1];
    [left; split; [repeat constructor | reflexivity] |].
  destruct (String.eqb_spec mimeType "image/png") as [->|H2];
    [left; split; [repeat constructor | reflexivity] |].
  destruct (String.eqb_spec mimeType "image/gif") as [->|H3];
    [left; split; [repeat constructor | reflexivity] |].
  destruct (String.eqb_spec mimeType "image/bmp") as [->|H4];
    [left; split; [repeat constructor | reflexivity] |].
  destruct (String.eqb_spec mimeType "video/mp4") as [->|H5];
    [right; left; split; reflexivity |].
  destruct (String.eqb_spec mimeType "text/plain") as [->|H6];
    [right; right; left; split; reflexivity |].
  right; right; right. split; [|reflexivity].
  cbn [app]. rewrite !elem_of_cons, elem_of_nil. tauto.
Qed.

Lemma blobType_tags (b : IGenericBlob) : blobType b ∈ genericBlobTags.
Proof. destruct b; unfold genericBlobTags; cbn; repeat constructor. Qed.

Lemma text_not_a_blob_tag : "text" ∉ genericBlobTags.
Proof. unfold genericBlobTags. not_among_literals. Qed.

Lemma image_mime_known (m : string) : m ∈ imageMimeTypes -> m ∈ knownMimeTypes.
Proof. unfold knownMimeTypes. intros Hm. apply elem_of_app. by left. Qed.

Lemma video_not_image : "video/mp4" ∉ imageMimeTypes.
Proof. unfold imageMimeTypes. not_among_literals. Qed.

Lemma text_not_image : "text/plain" ∉ imageMimeTypes.
Proof. unfold imageMimeTypes. not_among_literals. Qed.

Lemma video_known : "video/mp4" ∈ knownMimeTypes.
Proof. cbv. repeat constructor. Qed.

Lemma text_known : "text/plain" ∈ knownMimeTypes.
Proof. cbv. repeat constructor. Qed.

Lemma getFileBlobType_image_iff (mimeType : string) :
  getFileBlobType mimeType = "image" <-> mimeType ∈ imageMimeTypes.
Proof.
  destruct (getFileBlobType_cases mimeType)
    as [[Hm Hr] | [[-> Hr] | [[-> Hr] | [Hm Hr]]]]; rewrite Hr; split.
  - intros _. exact Hm.
  - reflexivity.
  - literals_differ.
  - intros H. contradiction (video_not_image H).
  - literals_differ.
  - intros H. contradiction (text_not_image H).
  - literals_differ.
  - intros H. contradiction (Hm (image_mime_known _ H)).
Qed.

Lemma getFileBlobType_video_iff (mimeType : string) :
  getFileBlobType mimeType = "video" <-> mimeType = "video/mp4".
Proof.
  destruct (getFileBlobType_cases mimeType)
    as [[Hm Hr] | [[-> Hr] | [[-> Hr] | [Hm Hr]]]]; rewrite Hr; split.
  - literals_differ.
  - intros ->. contradiction (video_not_image Hm).
  - reflexivity.
  - reflexivity.
  - literals_differ.
  - literals_differ.
  - literals_differ.
  - intros ->. contradiction (Hm video_known).
Qed.

Lemma getFileBlobType_text_iff (mimeType : string) :
  getFileBlobType mimeType = "text" <-> mimeType = "text/plain".
Proof.
  destruct (getFileBlobType_cases mimeType)
    as [[Hm Hr] | [[-> Hr] | [[-> Hr] | [Hm Hr]]]]; rewrite Hr; split.
  - literals_differ.
  - intros ->. contradiction (text_not_image Hm).
  - literals_differ.
  - literals_differ.
  - reflexivity.
  - reflexivity.
  - literals_differ.
  - intros ->. contradiction (Hm text_known).
Qed.

Lemma getFileBlobType_generic_iff (mimeType : string) :
  getFileBlobType mimeType = "generic" <-> (mimeType ∉ knownMimeTypes).
Proof.
  destruct (getFileBlobType_cases mimeType)
    as [[Hm Hr] | [[-> Hr] | [[-> Hr] | [Hm Hr]]]]; rewrite Hr; split.
  - literals_differ.
  - intros H. contradiction (H (image_mime_known _ Hm)).
  - literals_differ.
  - intros H. contradiction (H video_known).
  - literals_differ.
  - intros H. contradiction (H text_known).
  - intros _. exact Hm.
  - reflexivity.
Qed.

(** Whatever the argument, the result is one of four tags. *)
Lemma getFileBlobType_range (mimeType : string) :
  getFileBlobType mimeType ∈ ["image"; "video"; "text"; "generic"].
Proof.
  destruct (getFileBlobType_cases mimeType)
    as [[_ ->] | [[_ ->] | [[_ ->] | [_ ->]]]]; repeat constructor.
Qed.

(** The mime type is compared as it is: another spelling of a known type,
    and any unknown type, is "generic". *)
Lemma getFileBlobType_examples :
  getFileBlobType "image/png" = "image"
  /\ getFileBlobType "video/mp4" = "video"
  /\ getFileBlobType "text/plain" = "text"
  /\ getFileBlobType "application/pdf" = "generic"
  /\ getFileBlobType "IMAGE/PNG" = "generic"
  /\ getFileBlobType "" = "generic".
Proof. repeat split. Qed.

(** C10: [getFileBlobType] answers every string with one of four tags: it
    returns "image" for exactly the four image mime types, "video" for
    exactly "video/mp4", "text" for exactly "text/plain" and "generic" for
    every other string; so for "text/plain" its result, "text", is the
    [type] tag of no member of the [IGenericBlob] union, whose tags are
    "generic", "image" and "video". *)
Theorem getFileBlobType_spec (mimeType : string) :
  getFileBlobType mimeType ∈ ["image"; "video"; "text"; "generic"] /\
  (getFileBlobType mimeType = "image" <-> mimeType ∈ imageMimeTypes) /\
  (getFileBlobType mimeType = "video" <-> mimeType = "video/mp4") /\
  (getFileBlobType mimeType = "text" <-> mimeType = "text/plain") /\
  (getFileBlobType mimeType = "generic" <-> (mimeType ∉ knownMimeTypes)) /\
  getFileBlobType "text/plain" = "text" /\
  (getFileBlobType "text/plain" ∉ genericBlobTags) /\
  (forall b : IGenericBlob,
     blobType b ∈ genericBlobTags /\ blobType b <> getFileBlobType "text/plain").
Proof.
  split; [apply getFileBlobType_range |].
  split; [apply getFileBlobType_image_iff |].
  split; [apply getFileBlobType_video_iff |].
  split; [apply getFileBlobType_text_iff |].
  split; [apply getFileBlobType_generic_iff |].
  split; [reflexivity |].
  split; [exact text_not_a_blob_tag |].
  intros b. split; [apply blobType_tags |].
  destruct b; literals_differ.
Qed.

End BlobsFacts.

(** ** summarizerHeuristics.ts *)

Section SummarizerFacts.

Import SummarizerHeuristics.

Local Open Scope Z_scope.

(** The calls of [run()], branch by branch. *)
Lemma run_calls (r : SummarizeHeuristicRunner) (now : Z) :
  calls (run r now) =
    if now - summaryTime (lastSuccessfulSummary (heuristicData r))
       >? maxTime (configuration r)
    then [IdleTimerClear; TrySummarize "maxTime"]
    else if opsSinceLastAck r >? maxOps (configuration r)
    then [IdleTimerClear; TrySummarize "maxOps"]
    else [IdleTimerRestart].
Proof.
  unfold run.
  destruct (_ >? _); [reflexivity |].
  destruct (_ >? _); reflexivity.
Qed.

(** [run()] never calls [trySummarize] more than once. *)
Lemma run_at_most_once (r : SummarizeHeuristicRunner) (now : Z) :
  (length (trySummarizeReasons (calls (run r now))) <= 1)%nat.
Proof.
  rewrite run_calls.
  destruct (_ >? _); [cbn; lia |].
  destruct (_ >? _); cbn; lia.
Qed.

(** C9: [run()] calls [trySummarize] exactly once, with reason "maxTime",
    when the time since the last successful summary is strictly more than
    [maxTime]; otherwise exactly once, with reason "maxOps", when
    [opsSinceLastAck] (the last op sequence number less the reference
    sequence number of the last successful summary) is strictly more than
    [maxOps]; otherwise it does not call [trySummarize] and restarts the idle
    timer.  Equality with a threshold does not trigger a summary. *)
Theorem run_trySummarize (r : SummarizeHeuristicRunner) (now : Z) :
  let timeSinceLastSummary :=
    now - summaryTime (lastSuccessfulSummary (heuristicData r)) in
  let cs := calls (run r now) in
  opsSinceLastAck r =
    lastOpSequenceNumber (heuristicData r)
    - refSequenceNumber (lastSuccessfulSummary (heuristicData r)) /\
  (maxTime (configuration r) < timeSinceLastSummary ->
     cs = [IdleTimerClear; TrySummarize "maxTime"]
     /\ trySummarizeReasons cs = ["maxTime"]) /\
  (timeSinceLastSummary <= maxTime (configuration r) ->
   maxOps (configuration r) < opsSinceLastAck r ->
     cs = [IdleTimerClear; TrySummarize "maxOps"]
     /\ trySummarizeReasons cs = ["maxOps"]) /\
  (timeSinceLastSummary <= maxTime (configuration r) ->
   opsSinceLastAck r <= maxOps (configuration r) ->
     cs = [IdleTimerRestart] /\ trySummarizeReasons cs = []) /\
  (timeSinceLastSummary = maxTime (configuration r) ->
   opsSinceLastAck r = maxOps (configuration r) ->
     trySummarizeReasons cs = []).
Proof.
  intros timeSinceLastSummary cs.
  subst cs timeSinceLastSummary. rewrite run_calls.
  split; [reflexivity |].
  rewrite !Z.gtb_ltb.
  destruct (Z.ltb_spec (maxTime (configuration r))
              (now - summaryTime (lastSuccessfulSummary (heuristicData r))))
    as [Ht | Ht];
    [| destruct (Z.ltb_spec (maxOps (configuration r)) (opsSinceLastAck r))
         as [Ho | Ho]].
  all: repeat split; intros; try reflexivity; lia.
Qed.

(** [run()] on concrete data: past [maxTime]; at [maxTime] but past
    [maxOps]; at both thresholds. *)
Lemma run_examples :
  let cfg := {| idleTime := 5000; maxTime := 60000; maxOps := 1000;
                minOpsForLastSummaryAttempt := 50 |} in
  let data (lastOp : Z) :=
    newSummarizeHeuristicData lastOp {| refSequenceNumber := 100; summaryTime := 7000 |} in
  calls (run {| heuristicData := data 100; configuration := cfg |} 67001)
    = [IdleTimerClear; TrySummarize "maxTime"]
  /\ calls (run {| heuristicData := data 1101; configuration := cfg |} 67000)
    = [IdleTimerClear; TrySummarize "maxOps"]
  /\ calls (run {| heuristicData := data 1100; configuration := cfg |} 67000)
    = [IdleTimerRestart].
Proof. repeat split. Qed.

(** [shouldRunLastSummary()] answers whether at least
    [minOpsForLastSummaryAttempt] ops came after the last acknowledged
    summary, and sends one telemetry event. *)
Lemma shouldRunLastSummary_spec (r : SummarizeHeuristicRunner) :
  fst (shouldRunLastSummary r) = true
    <-> minOpsForLastSummaryAttempt (configuration r) <= opsSinceLastAck r.
Proof. cbn. rewrite Z.geb_leb. apply Z.leb_le. Qed.

(** A successful attempt becomes the baseline of the next [run()]. *)
Lemma markLastAttemptAsSuccessful_baseline (d : SummarizeHeuristicData)
    (refSeq : option Z) (now : Z) :
  lastSuccessfulSummary (markLastAttemptAsSuccessful (recordAttempt refSeq now d))
  = {| refSequenceNumber := default (lastOpSequenceNumber d) refSeq;
       summaryTime := now |}.
Proof. reflexivity. Qed.

End SummarizerFacts.

(** ** The merge tree *)

Section MergeTreeFacts.

Import MergeTree SharedStringTests.

Local Open Scope nat_scope.

(** *** Segments and observers *)

Lemma visible_withText (r c : nat) (s : Segment) (txt : list ascii) :
  visible r c (withText s txt) = visible r c s.
Proof. reflexivity. Qed.

Lemma nodeLength_withText (r c : nat) (s : Segment) (txt : list ascii) :
  nodeLength r c (withText s txt) = if visible r c s then length txt else 0.
Proof. reflexivity. Qed.

(** Every observer that has seen a settled segment's stamps sees it alike:
    it is visible exactly when it is live. *)
Lemma visible_settled (n r c : nat) (s : Segment) :
  settledSegment n s = true -> n <= r -> visible r c s = live s.
Proof.
  unfold settledSegment, visible, live. intros Hs Hr.
  apply andb_true_iff in Hs as [Hq Hrem].
  destruct (seq s) as [k | k]; cbn in Hq; [| discriminate].
  apply Nat.leb_le in Hq.
  assert (Hk : seqVisible r (Assigned k) = true) by (cbn; apply Nat.leb_le; lia).
  rewrite Hk, orb_true_r. cbn.
  destruct (removed s) as [[[k' | k'] rc] |]; cbn in Hrem; try discriminate; [| reflexivity].
  apply Nat.leb_le in Hrem.
  assert (Hk' : seqVisible r (Assigned k') = true) by (cbn; apply Nat.leb_le; lia).
  rewrite Hk', orb_true_r. reflexivity.
Qed.

(** Against a settled segment the tie is broken in favour of any later
    stamp. *)
Lemma breakTie_settled (n pos : nat) (s : Segment) (sq : SeqNum) :
  settledSegment n s = true -> later n sq = true -> breakTie pos s sq = (pos =? 0).
Proof.
  unfold settledSegment, breakTie, later. intros Hs Hl.
  apply andb_true_iff in Hs as [Hq _].
  destruct (seq s) as [k | k]; cbn in Hq; [| discriminate].
  apply Nat.leb_le in Hq.
  destruct sq as [m | m]; [| apply andb_true_r].
  apply Nat.ltb_lt in Hl.
  assert (Hkm : (k <? m) = true) by (apply Nat.ltb_lt; lia).
  rewrite Hkm. apply andb_true_r.
Qed.

Lemma settled_cons (n : nat) (s : Segment) (segs : list Segment) :
  settled n (s :: segs) = true <-> settledSegment n s = true /\ settled n segs = true.
Proof. unfold settled. cbn. apply andb_true_iff. Qed.

Lemma settled_elem (n : nat) (segs : list Segment) (s : Segment) :
  settled n segs = true -> s ∈ segs -> settledSegment n s = true.
Proof.
  unfold settled. rewrite forallb_forall. intros H Hin.
  apply H. by apply list_elem_of_In.
Qed.

(** *** The insert walk, one segment at a time *)

Lemma insertSegments_cons (r c : nat) (sq : SeqNum) (pos : nat)
    (news : list Segment) (s : Segment) (rest : list Segment) :
  insertSegments r c sq pos news (s :: rest) =
    if (pos <? nodeLength r c s) || ((pos =? nodeLength r c s) && breakTie pos s sq) then
      if pos =? 0 then Done (news ++ s :: rest)
      else
        match split pos s with
        | Done (l, r') => Done (l :: news ++ r' :: rest)
        | Defect m => Defect m
        end
    else
      match insertSegments r c sq (pos - nodeLength r c s) news rest with
      | Done segs' => Done (s :: segs')
      | Defect m => Defect m
      end.
Proof. reflexivity. Qed.

(** The new segments go in front of a segment of no length that loses the
    tie. *)
Lemma insert_before_tied (r c : nat) (sq : SeqNum) (news : list Segment)
    (s : Segment) (rest : list Segment) :
  nodeLength r c s = 0 -> breakTie 0 s sq = true ->
  insertSegments r c sq 0 news (s :: rest) = Done (news ++ s :: rest).
Proof.
  intros Hl Ht. rewrite insertSegments_cons, Hl, Ht. reflexivity.
Qed.

(** They go in front of a segment the observer sees some text of. *)
Lemma insert_before_visible (r c : nat) (sq : SeqNum) (news : list Segment)
    (s : Segment) (rest : list Segment) :
  0 < nodeLength r c s ->
  insertSegments r c sq 0 news (s :: rest) = Done (news ++ s :: rest).
Proof.
  intros Hl. rewrite insertSegments_cons.
  assert (H0 : (0 <? nodeLength r c s) = true) by (by apply Nat.ltb_lt).
  rewrite H0. reflexivity.
Qed.

(** They go past a segment of no length that wins the tie. *)
Lemma insert_past_tied (r c : nat) (sq : SeqNum) (pos : nat) (news : list Segment)
    (s : Segment) (rest : list Segment) :
  nodeLength r c s = 0 -> breakTie pos s sq = false ->
  insertSegments r c sq pos news (s :: rest) =
    match insertSegments r c sq pos news rest with
    | Done segs' => Done (s :: segs')
    | Defect m => Defect m
    end.
Proof.
  intros Hl Ht. rewrite insertSegments_cons, Hl, Ht, andb_false_r, Nat.sub_0_r.
  reflexivity.
Qed.

(** They go past a segment whose text ends exactly at the position. *)
Lemma insert_past_exact (r c : nat) (sq : SeqNum) (pos : nat) (news : list Segment)
    (s : Segment) (rest : list Segment) :
  nodeLength r c s = pos -> pos <> 0 ->
  insertSegments r c sq pos news (s :: rest) =
    match insertSegments r c sq 0 news rest with
    | Done segs' => Done (s :: segs')
    | Defect m => Defect m
    end.
Proof.
  intros Hl Hp. rewrite insertSegments_cons, Hl, Nat.ltb_irrefl, Nat.sub_diag.
  unfold breakTie. apply Nat.eqb_neq in Hp. rewrite Hp, andb_false_r.
  reflexivity.
Qed.

(** The walk over a settled segment with a later stamp, by cases: in front
    of it, inside it, or past it. *)
Lemma insertSegments_settled_cons (n c : nat) (sq : SeqNum) (pos : nat)
    (news : list Segment) (s : Segment) (rest : list Segment) :
  settledSegment n s = true -> later n sq = true ->
  let len := if live s then length (text s) else 0 in
  insertSegments n c sq pos news (s :: rest) =
    if pos =? 0 then Done (news ++ s :: rest)
    else if pos <? len then
      Done (withText s (take pos (text s)) :: news
            ++ withText s (drop pos (text s)) :: rest)
    else
      match insertSegments n c sq (pos - len) news rest with
      | Done segs' => Done (s :: segs')
      | Defect m => Defect m
      end.
Proof.
  intros Hs Hl len. rewrite insertSegments_cons.
  unfold nodeLength. rewrite (visible_settled n n c s Hs (le_n n)).
  rewrite (breakTie_settled n pos s sq Hs Hl). fold len.
  destruct (Nat.eqb_spec pos 0) as [-> | Hp].
  - destruct (0 <? len) eqn:H0; [reflexivity |].
    apply Nat.ltb_ge in H0. assert (len = 0) as -> by lia. reflexivity.
  - rewrite andb_false_r, orb_false_r.
    destruct (Nat.ltb_spec pos len) as [Hlt | Hge]; [| reflexivity].
    unfold split.
    assert (Hlen : len = length (text s)).
    { subst len. destruct (live s); [reflexivity | lia]. }
    assert (Hle : (pos <=? length (text s)) = true) by (apply Nat.leb_le; lia).
    rewrite Hle. reflexivity.
Qed.


(** The two parts of a split make up the segment (section 4.1). *)
Lemma split_content (offset : nat) (s l r : Segment) :
  split offset s = Done (l, r) -> text l ++ text r = text s.
Proof.
  unfold split. destruct (offset <=? length (text s)); [| discriminate].
  intros [= <- <-]. apply take_drop.
Qed.

(** *** Two concurrent inserts at one position *)

Lemma nodeLength_foreign_new (n a b : nat) (x : list ascii) :
  a <> b -> nodeLength n b (newSegment x (Assigned (S n)) a) = 0.
Proof.
  intros Hab. unfold nodeLength, visible. cbn -[Nat.leb Nat.eqb].
  apply Nat.eqb_neq in Hab. rewrite Hab.
  assert (Hn : (S n <=? n) = false) by (apply Nat.leb_gt; lia).
  rewrite Hn. reflexivity.
Qed.

Lemma nodeLength_foreign_local (n a b k : nat) (y : list ascii) :
  a <> b -> nodeLength n a (newSegment y (Unassigned k) b) = 0.
Proof.
  intros Hab. unfold nodeLength, visible. cbn -[Nat.leb Nat.eqb].
  assert (Hba : (b =? a) = false) by (apply Nat.eqb_neq; congruence).
  rewrite Hba. reflexivity.
Qed.

Lemma nodeLength_left_part (n c pos : nat) (s : Segment) :
  settledSegment n s = true ->
  pos < (if live s then length (text s) else 0) ->
  nodeLength n c (withText s (take pos (text s))) = pos.
Proof.
  intros Hs Hp. rewrite nodeLength_withText, (visible_settled n n c s Hs (le_n n)).
  destruct (live s); [| lia]. rewrite length_take. lia.
Qed.

Lemma nodeLength_right_part (n c pos : nat) (s : Segment) :
  settledSegment n s = true ->
  pos < (if live s then length (text s) else 0) ->
  0 < nodeLength n c (withText s (drop pos (text s))).
Proof.
  intros Hs Hp. rewrite nodeLength_withText, (visible_settled n n c s Hs (le_n n)).
  destruct (live s); [| lia]. rewrite length_drop. lia.
Qed.

(** A remote insert sequenced right after a concurrent remote insert at the
    same position ends up in front of it. *)
Lemma remote_after_remote (n a b : nat) (x y : list ascii) (segs : list Segment) :
  settled n segs = true -> a <> b ->
  forall (pos : nat) (l1 : list Segment),
    insertSegments n a (Assigned (S n)) pos [newSegment x (Assigned (S n)) a] segs = Done l1 ->
    insertSegments n b (Assigned (S (S n))) pos [newSegment y (Assigned (S (S n))) b] l1
    = insertSegments n b (Assigned (S (S n))) pos
        [newSegment y (Assigned (S (S n))) b; newSegment x (Assigned (S n)) a] segs.
Proof.
  intros Hs Hab.
  set (X := newSegment x (Assigned (S n)) a).
  set (Y := newSegment y (Assigned (S (S n))) b).
  assert (HX : nodeLength n b X = 0) by (by apply nodeLength_foreign_new).
  assert (HtX : breakTie 0 X (Assigned (S (S n))) = true).
  { unfold breakTie. cbn -[Nat.ltb]. apply Nat.ltb_lt. lia. }
  assert (Hla : later n (Assigned (S n)) = true) by (cbn -[Nat.ltb]; apply Nat.ltb_lt; lia).
  assert (Hlb : later n (Assigned (S (S n))) = true) by (cbn -[Nat.ltb]; apply Nat.ltb_lt; lia).
  induction segs as [| s rest IH]; intros pos l1 H.
  - cbn in H. destruct (Nat.eqb_spec pos 0) as [-> | Hp]; [| discriminate H].
    injection H as <-. rewrite (insert_before_tied _ _ _ _ _ _ HX HtX). reflexivity.
  - apply settled_cons in Hs as [Hs1 Hs2].
    rewrite (insertSegments_settled_cons n a _ pos _ s rest Hs1 Hla) in H.
    rewrite (insertSegments_settled_cons n b _ pos _ s rest Hs1 Hlb).
    destruct (Nat.eqb_spec pos 0) as [-> | Hp].
    { injection H as <-. cbn [app].
      rewrite (insert_before_tied _ _ _ _ _ _ HX HtX). reflexivity. }
    destruct (Nat.ltb_spec pos (if live s then length (text s) else 0)) as [Hlt | Hge].
    { injection H as <-. cbn [app].
      rewrite (insert_past_exact n b _ pos _ _ _ (nodeLength_left_part n b pos s Hs1 Hlt) Hp).
      rewrite (insert_before_tied _ _ _ _ _ _ HX HtX). reflexivity. }
    destruct (insertSegments n a (Assigned (S n)) _ [X] rest) as [l' | m] eqn:E;
      [| discriminate H].
    injection H as <-.
    rewrite (insertSegments_settled_cons n b _ pos _ s l' Hs1 Hlb).
    apply Nat.eqb_neq in Hp. rewrite Hp.
    apply Nat.ltb_ge in Hge. rewrite Hge.
    rewrite (IH Hs2 _ _ E). reflexivity.
Qed.

(** A remote insert that arrives at a client with a pending local insert at
    the same position ends up behind the pending one. *)
Lemma remote_after_local (n a b k : nat) (x y : list ascii) (segs : list Segment) :
  settled n segs = true -> a <> b ->
  forall (pos : nat) (l1 : list Segment),
    insertSegments n b (Unassigned k) pos [newSegment y (Unassigned k) b] segs = Done l1 ->
    insertSegments n a (Assigned (S n)) pos [newSegment x (Assigned (S n)) a] l1
    = insertSegments n b (Unassigned k) pos
        [newSegment y (Unassigned k) b; newSegment x (Assigned (S n)) a] segs.
Proof.
  intros Hs Hab.
  set (X := newSegment x (Assigned (S n)) a).
  set (Y := newSegment y (Unassigned k) b).
  assert (HY : nodeLength n a Y = 0) by (by apply nodeLength_foreign_local).
  assert (HtY : forall pos, breakTie pos Y (Assigned (S n)) = false).
  { intros pos. unfold breakTie. cbn. apply andb_false_r. }
  assert (Hla : later n (Assigned (S n)) = true) by (cbn -[Nat.ltb]; apply Nat.ltb_lt; lia).
  assert (Hlb : later n (Unassigned k) = true) by reflexivity.
  induction segs as [| s rest IH]; intros pos l1 H.
  - cbn in H. destruct (Nat.eqb_spec pos 0) as [-> | Hp]; [| discriminate H].
    injection H as <-. rewrite (insert_past_tied _ _ _ _ _ _ _ HY (HtY 0)). reflexivity.
  - apply settled_cons in Hs as [Hs1 Hs2].
    rewrite (insertSegments_settled_cons n b _ pos _ s rest Hs1 Hlb) in H.
    rewrite (insertSegments_settled_cons n b _ pos _ s rest Hs1 Hlb).
    destruct (Nat.eqb_spec pos 0) as [-> | Hp].
    { injection H as <-. cbn [app].
      rewrite (insert_past_tied _ _ _ _ _ _ _ HY (HtY 0)).
      rewrite (insertSegments_settled_cons n a _ 0 _ s rest Hs1 Hla). reflexivity. }
    destruct (Nat.ltb_spec pos (if live s then length (text s) else 0)) as [Hlt | Hge].
    { injection H as <-. cbn [app].
      rewrite (insert_past_exact n a _ pos _ _ _ (nodeLength_left_part n a pos s Hs1 Hlt) Hp).
      rewrite (insert_past_tied _ _ _ _ _ _ _ HY (HtY 0)).
      rewrite (insert_before_visible n a _ _ _ _ (nodeLength_right_part n a pos s Hs1 Hlt)).
      reflexivity. }
    destruct (insertSegments n b (Unassigned k) _ [Y] rest) as [l' | m] eqn:E;
      [| discriminate H].
    injection H as <-.
    rewrite (insertSegments_settled_cons n a _ pos _ s l' Hs1 Hla).
    apply Nat.eqb_neq in Hp. rewrite Hp.
    apply Nat.ltb_ge in Hge. rewrite Hge.
    rewrite (IH Hs2 _ _ E). reflexivity.
Qed.


(** *** Acknowledgment *)

Lemma ackSegment_settled (n c k m : nat) (s : Segment) (txt : list ascii) :
  settledSegment n s = true -> ackSegment c k m (withText s txt) = withText s txt.
Proof.
  unfold settledSegment, ackSegment. intros Hs.
  apply andb_true_iff in Hs as [Hq _]. cbn.
  destruct (seq s); [reflexivity | discriminate Hq].
Qed.

Lemma ackSegment_settled_id (n c k m : nat) (s : Segment) :
  settledSegment n s = true -> ackSegment c k m s = s.
Proof.
  unfold settledSegment, ackSegment. intros Hs.
  apply andb_true_iff in Hs as [Hq _].
  destruct (seq s); [reflexivity | discriminate Hq].
Qed.

Lemma map_ackSegment_settled (n c k m : nat) (segs : list Segment) :
  settled n segs = true -> map (ackSegment c k m) segs = segs.
Proof.
  induction segs as [| s rest IH]; [reflexivity |].
  intros Hs. apply settled_cons in Hs as [Hs1 Hs2].
  cbn. rewrite (ackSegment_settled_id n _ _ _ _ Hs1), (IH Hs2). reflexivity.
Qed.

Lemma ackSegment_own (c k m : nat) (txt : list ascii) :
  ackSegment c k m (newSegment txt (Unassigned k) c) = newSegment txt (Assigned m) c.
Proof. unfold ackSegment. cbn -[Nat.eqb]. rewrite !Nat.eqb_refl. reflexivity. Qed.

Lemma ackSegment_assigned (c k m j d : nat) (txt : list ascii) :
  ackSegment c k m (newSegment txt (Assigned j) d) = newSegment txt (Assigned j) d.
Proof. reflexivity. Qed.

(** Acknowledging a local insert into a settled document gives the tree a
    remote application of the same insert gives. *)
Lemma ack_local_insert (n c k m : nat) (news segs : list Segment) :
  settled n segs = true -> n < m ->
  forall (pos : nat) (l : list Segment),
    insertSegments n c (Unassigned k) pos news segs = Done l ->
    insertSegments n c (Assigned m) pos (map (ackSegment c k m) news) segs
    = Done (map (ackSegment c k m) l).
Proof.
  intros Hs Hm.
  assert (Hl1 : later n (Unassigned k) = true) by reflexivity.
  assert (Hl2 : later n (Assigned m) = true) by (by apply Nat.ltb_lt).
  induction segs as [| s rest IH]; intros pos l H.
  - cbn in *. destruct (pos =? 0); [| discriminate H]. by injection H as <-.
  - apply settled_cons in Hs as [Hs1 Hs2].
    rewrite (insertSegments_settled_cons n c _ pos _ s rest Hs1 Hl1) in H.
    rewrite (insertSegments_settled_cons n c _ pos _ s rest Hs1 Hl2).
    destruct (pos =? 0).
    { injection H as <-. rewrite map_app. cbn [map].
      rewrite (ackSegment_settled_id n _ _ _ _ Hs1), (map_ackSegment_settled n _ _ _ _ Hs2).
      reflexivity. }
    destruct (pos <? _).
    { injection H as <-. cbn [map]. rewrite map_app. cbn [map].
      rewrite !(ackSegment_settled n _ _ _ _ _ Hs1), (map_ackSegment_settled n _ _ _ _ Hs2).
      reflexivity. }
    destruct (insertSegments n c (Unassigned k) _ news rest) as [l' | e] eqn:E;
      [| discriminate H].
    injection H as <-. rewrite (IH Hs2 _ _ E). cbn [map].
    rewrite (ackSegment_settled_id n _ _ _ _ Hs1). reflexivity.
Qed.

(** *** What an insert does to the text *)

Lemma textAt_cons (r c : nat) (s : Segment) (segs : list Segment) :
  textAt r c (s :: segs) = (if visible r c s then text s else []) ++ textAt r c segs.
Proof. reflexivity. Qed.

Lemma textAt_app (r c : nat) (l1 l2 : list Segment) :
  textAt r c (l1 ++ l2) = textAt r c l1 ++ textAt r c l2.
Proof. unfold textAt. rewrite map_app, concat_app. reflexivity. Qed.

(** A settled document reads the same to every observer that has seen it. *)
Lemma textAt_settled (n r c c' : nat) (segs : list Segment) :
  settled n segs = true -> n <= r -> textAt r c segs = textAt n c' segs.
Proof.
  induction segs as [| s rest IH]; [reflexivity |].
  intros Hs Hr. apply settled_cons in Hs as [Hs1 Hs2].
  rewrite !textAt_cons, (visible_settled n r c s Hs1 Hr),
    (visible_settled n n c' s Hs1 (le_n n)), (IH Hs2 Hr).
  reflexivity.
Qed.

Lemma length_textAt_settled_cons (n c : nat) (s : Segment) (rest : list Segment) :
  settledSegment n s = true ->
  length (textAt n c (s :: rest))
  = (if live s then length (text s) else 0) + length (textAt n c rest).
Proof.
  intros Hs. rewrite textAt_cons, (visible_settled n n c s Hs (le_n n)), length_app.
  destruct (live s); reflexivity.
Qed.

(** An insert at a position within the text succeeds. *)
Lemma insert_settled_succeeds (n c : nat) (sq : SeqNum) (news segs : list Segment) :
  settled n segs = true -> later n sq = true ->
  forall pos : nat,
    pos <= length (textAt n c segs) ->
    exists l, insertSegments n c sq pos news segs = Done l.
Proof.
  intros Hs Hl. induction segs as [| s rest IH]; intros pos Hp.
  - cbn in Hp. assert (pos = 0) as -> by lia. by eexists.
  - apply settled_cons in Hs as [Hs1 Hs2].
    rewrite (insertSegments_settled_cons n c _ pos _ s rest Hs1 Hl).
    rewrite (length_textAt_settled_cons n c s rest Hs1) in Hp.
    destruct (pos =? 0); [by eexists |].
    destruct (Nat.ltb_spec pos (if live s then length (text s) else 0)) as [Hlt | Hge];
      [by eexists |].
    destruct (IH Hs2 (pos - (if live s then length (text s) else 0))) as [l' Hl'];
      [lia |].
    rewrite Hl'. by eexists.
Qed.

(** The text after an insert into a settled document, for an observer that
    has seen the document: the old text with the new segments' text at the
    position. *)
Lemma insert_settled_text (n r c b : nat) (sq : SeqNum) (news segs : list Segment) :
  settled n segs = true -> later n sq = true -> n <= r ->
  forall (pos : nat) (l : list Segment),
    insertSegments n b sq pos news segs = Done l ->
    textAt r c l
    = take pos (textAt r c segs) ++ textAt r c news ++ drop pos (textAt r c segs).
Proof.
  intros Hs Hl Hr. induction segs as [| s rest IH]; intros pos l H.
  - cbn in H. destruct (pos =? 0); [| discriminate H]. injection H as <-.
    cbn. rewrite take_nil, drop_nil, app_nil_r. reflexivity.
  - apply settled_cons in Hs as [Hs1 Hs2].
    rewrite (insertSegments_settled_cons n b _ pos _ s rest Hs1 Hl) in H.
    rewrite textAt_cons, (visible_settled n r c s Hs1 Hr).
    destruct (Nat.eqb_spec pos 0) as [-> | Hp].
    { injection H as <-. rewrite textAt_app, textAt_cons, (visible_settled n r c s Hs1 Hr).
      reflexivity. }
    destruct (Nat.ltb_spec pos (if live s then length (text s) else 0)) as [Hlt | Hge].
    { injection H as <-.
      destruct (live s) eqn:Hlive; [| lia].
      rewrite textAt_cons, textAt_app, textAt_cons, !visible_withText,
        (visible_settled n r c s Hs1 Hr), Hlive.
      cbn [text withText].
      rewrite take_app_le, drop_app_le by lia.
      rewrite <- ?app_assoc. reflexivity. }
    destruct (insertSegments n b sq _ news rest) as [l' | e] eqn:E; [| discriminate H].
    injection H as <-.
    rewrite textAt_cons, (visible_settled n r c s Hs1 Hr), (IH Hs2 _ _ E).
    destruct (live s).
    + rewrite take_app_ge, drop_app_ge by lia. rewrite <- ?app_assoc. reflexivity.
    + rewrite Nat.sub_0_r. reflexivity.
Qed.


(** A local insert into a settled document puts the text at the position
    of the client's view. *)
Lemma insertText_text (n a pos : nat) (x : list ascii) (segs : list Segment) :
  settled n segs = true ->
  pos <= length (textAt n a segs) ->
  exists (c : Client) (m : Message),
    insertText pos x (clientAt a n segs) = Done (c, m)
    /\ getText c = take pos (textAt n a segs) ++ x ++ drop pos (textAt n a segs)
    /\ m = {| sender := a; referenceSequenceNumber := n; position := pos; content := x |}.
Proof.
  intros Hs Hpos.
  destruct (insert_settled_succeeds n a (Unassigned 1)
              [newSegment x (Unassigned 1) a] segs Hs eq_refl pos Hpos) as [l Hl].
  unfold insertText, clientAt. cbn [self currentSeq localOps pending segments].
  rewrite Hl. eexists _, _. split; [reflexivity |]. split; [| reflexivity].
  unfold getText. cbn [self currentSeq segments].
  rewrite (insert_settled_text n n a a (Unassigned 1) _ segs Hs eq_refl (le_n n) pos l Hl).
  unfold textAt at 2, visible. cbn -[Nat.eqb]. rewrite Nat.eqb_refl. cbn.
  by rewrite app_nil_r.
Qed.

(** *** Clients *)

Lemma processMessage_own (m : SequencedMessage) (c : Client) (k : nat) (rest : list nat) :
  sender (message m) = self c -> pending c = k :: rest ->
  processMessage m c =
    Done {| self := self c; currentSeq := sequenceNumber m; localOps := localOps c;
            pending := rest;
            segments := map (ackSegment (self c) k (sequenceNumber m)) (segments c) |}.
Proof.
  intros Hs Hp. unfold processMessage. rewrite Hs, Nat.eqb_refl, Hp. reflexivity.
Qed.

Lemma processMessage_remote (m : SequencedMessage) (c : Client) (l : list Segment) :
  sender (message m) <> self c ->
  insertSegments (referenceSequenceNumber (message m)) (sender (message m))
    (Assigned (sequenceNumber m)) (position (message m))
    [newSegment (content (message m)) (Assigned (sequenceNumber m)) (sender (message m))]
    (segments c) = Done l ->
  processMessage m c =
    Done {| self := self c; currentSeq := sequenceNumber m; localOps := localOps c;
            pending := pending c; segments := l |}.
Proof.
  intros Hs Hl. unfold processMessage.
  apply Nat.eqb_neq in Hs. rewrite Hs, Hl. reflexivity.
Qed.

Lemma textAt_two_new (r c a b : nat) (x y : list ascii) (i j : nat) :
  i <= r -> j <= r ->
  textAt r c [newSegment y (Assigned j) b; newSegment x (Assigned i) a] = y ++ x.
Proof.
  intros Hi Hj. unfold textAt, visible. cbn -[Nat.leb Nat.eqb].
  apply Nat.leb_le in Hi, Hj. rewrite Hi, Hj, !orb_true_r. cbn.
  by rewrite app_nil_r.
Qed.

(** Two clients insert at one position of a settled document at once, and
    the operation of [a] is sequenced first: on [a], on [b] and on any third
    client the tree ends up the same, with the text of [b] (sequenced later)
    in front of the text of [a]. *)
Lemma concurrent_inserts_converge (n a b c pos : nat) (x y : list ascii)
    (segs : list Segment) :
  settled n segs = true -> a <> b -> c <> a -> c <> b ->
  pos <= length (textAt n a segs) ->
  exists final : list Segment,
    insertSegments n b (Assigned (S (S n))) pos
      [newSegment y (Assigned (S (S n))) b; newSegment x (Assigned (S n)) a] segs
    = Done final
    /\ concurrentInserts n segs a b c pos x y
       = Done ({| self := a; currentSeq := S (S n); localOps := 1; pending := [];
                  segments := final |},
               {| self := b; currentSeq := S (S n); localOps := 1; pending := [];
                  segments := final |},
               {| self := c; currentSeq := S (S n); localOps := 0; pending := [];
                  segments := final |}).
Proof.
  intros Hs Hab Hca Hcb Hpos.
  assert (Hposb : pos <= length (textAt n b segs))
    by (by rewrite (textAt_settled n n b a segs Hs (le_n n))).
  assert (Hl1 : later n (Assigned (S n)) = true) by (apply Nat.ltb_lt; lia).
  assert (Hl2 : later n (Assigned (S (S n))) = true) by (apply Nat.ltb_lt; lia).
  destruct (insert_settled_succeeds n a (Unassigned 1)
              [newSegment x (Unassigned 1) a] segs Hs eq_refl pos Hpos) as [lA HlA].
  destruct (insert_settled_succeeds n b (Unassigned 1)
              [newSegment y (Unassigned 1) b] segs Hs eq_refl pos Hposb) as [lB HlB].
  destruct (insert_settled_succeeds n b (Unassigned 1)
              [newSegment y (Unassigned 1) b; newSegment x (Assigned (S n)) a]
              segs Hs eq_refl pos Hposb) as [lB2 HlB2].
  destruct (insert_settled_succeeds n b (Assigned (S (S n)))
              [newSegment y (Assigned (S (S n))) b; newSegment x (Assigned (S n)) a]
              segs Hs Hl2 pos Hposb) as [final Hfinal].
  (* client a: its insert is acknowledged, then the insert of b arrives *)
  pose proof (ack_local_insert n a 1 (S n) _ segs Hs (Nat.lt_succ_diag_r n) pos lA HlA)
    as HA1.
  cbn [map] in HA1. rewrite ackSegment_own in HA1.
  pose proof (remote_after_remote n a b x y segs Hs Hab pos _ HA1) as HA2.
  rewrite Hfinal in HA2.
  (* client b: the insert of a arrives, then its own is acknowledged *)
  pose proof (remote_after_local n a b 1 x y segs Hs Hab pos lB HlB) as HB1.
  rewrite HlB2 in HB1.
  assert (Hn2 : n < S (S n)) by lia.
  pose proof (ack_local_insert n b 1 (S (S n)) _ segs Hs Hn2 pos lB2 HlB2) as HB2.
  cbn [map] in HB2. rewrite ackSegment_own, ackSegment_assigned, Hfinal in HB2.
  injection HB2 as HB2.
  exists final. split; [exact Hfinal |].
  unfold concurrentInserts, insertText, clientAt.
  cbn [self currentSeq localOps pending segments].
  rewrite HlA, HlB.
  cbn [sequenceMessages processMessages app].
  (* a *)
  rewrite (processMessage_own _ _ 1 []) by reflexivity.
  cbn [self currentSeq localOps pending segments sequenceNumber message].
  erewrite processMessage_remote;
    [| cbn [self sender message]; congruence
     | cbn [self sender message referenceSequenceNumber position content
            sequenceNumber segments]; exact HA2].
  (* b *)
  erewrite (processMessage_remote _ _ lB2);
    [| cbn [self sender message]; congruence
     | cbn [self sender message referenceSequenceNumber position content
            sequenceNumber segments]; exact HB1].
  rewrite (processMessage_own _ _ 1 []) by reflexivity.
  (* c *)
  erewrite processMessage_remote;
    [| cbn [self sender message]; congruence
     | cbn [self sender message referenceSequenceNumber position content
            sequenceNumber segments]; exact HA1].
  erewrite processMessage_remote;
    [| cbn [self sender message]; congruence
     | cbn [self sender message referenceSequenceNumber position content
            sequenceNumber segments]; exact HA2].
  cbn [self currentSeq localOps pending segments sequenceNumber message].
  rewrite <- HB2. reflexivity.
Qed.


(** *** The order of two concurrent inserts *)

(** The test "can maintain interval consistency": after "xyz", the
    concurrent inserts of "abc" (sequenced first) and "wha" at position 0
    give "whaabcxyz" on every client. *)
Lemma intervalConsistencyTest_text :
  intervalConsistencyTest = Some ("whaabcxyz", "whaabcxyz", "whaabcxyz")%string.
Proof. vm_compute. reflexivity. Qed.

(** C2, as stated, fails.  In the test, "abc" has the lower sequence number
    and "wha" the higher, both inserted at position 0 at the same reference
    sequence number, and every client ends with "wha" first.  On the scenario
    the claim names, with "abc" sequenced first and "xyz" second at position
    0 of an empty document, every client ends with "xyzabc", not with
    "abcxyz". *)
Lemma lower_sequence_number_is_not_first :
  intervalConsistencyTest = Some ("whaabcxyz", "whaabcxyz", "whaabcxyz")%string
  /\ emptyDocumentScenario = Some ("xyzabc", "xyzabc", "xyzabc")%string
  /\ emptyDocumentScenario <> Some ("abcxyz", "abcxyz", "abcxyz")%string.
Proof.
  assert (H : emptyDocumentScenario = Some ("xyzabc", "xyzabc", "xyzabc")%string)
    by (vm_compute; reflexivity).
  split; [vm_compute; reflexivity |].
  split; [exact H |]. rewrite H. discriminate.
Qed.

(** C2 (amended): when two clients concurrently (same reference sequence
    number) insert at the same position of a document that every client has
    fully processed, each of the two clients and any third client ends with
    the text of the insert with the higher sequence number first, directly
    followed by the text of the insert with the lower sequence number; on an
    empty document, with "abc" sequenced first and "xyz" second at position
    0, every client ends with "xyzabc". *)
Theorem concurrent_inserts_later_first (n a b c pos : nat) (x y : list ascii)
    (segs : list Segment) :
  settled n segs = true -> a <> b -> c <> a -> c <> b ->
  pos <= length (textAt n a segs) ->
  (exists ca cb cc : Client,
     concurrentInserts n segs a b c pos x y = Done (ca, cb, cc)
     /\ getText ca = take pos (textAt n a segs) ++ y ++ x ++ drop pos (textAt n a segs)
     /\ getText cb = take pos (textAt n a segs) ++ y ++ x ++ drop pos (textAt n a segs)
     /\ getText cc = take pos (textAt n a segs) ++ y ++ x ++ drop pos (textAt n a segs)
     /\ segments cb = segments ca /\ segments cc = segments ca)
  /\ emptyDocumentScenario = Some ("xyzabc", "xyzabc", "xyzabc")%string.
Proof.
  intros Hs Hab Hca Hcb Hpos.
  split; [| vm_compute; reflexivity].
  destruct (concurrent_inserts_converge n a b c pos x y segs Hs Hab Hca Hcb Hpos)
    as (final & Hfinal & Hrun).
  assert (Hl2 : later n (Assigned (S (S n))) = true) by (apply Nat.ltb_lt; lia).
  assert (Hn : n <= S (S n)) by lia.
  assert (Htext : forall cid : nat,
    textAt (S (S n)) cid final
    = take pos (textAt n a segs) ++ y ++ x ++ drop pos (textAt n a segs)).
  { intros cid.
    rewrite (insert_settled_text n (S (S n)) cid b _ _ segs Hs Hl2 Hn pos final Hfinal).
    rewrite (textAt_settled n (S (S n)) cid a segs Hs Hn).
    rewrite textAt_two_new by lia. by rewrite <- app_assoc. }
  eexists _, _, _. split; [exact Hrun |].
  unfold getText. cbn [self currentSeq segments].
  rewrite !Htext. repeat split; reflexivity.
Qed.

(** The theorem at the scenario of the specification. *)
Lemma concurrent_inserts_later_first_witness :
  (exists ca cb cc : Client,
     concurrentInserts 0 [] 1 2 3 0
       (list_ascii_of_string "abc") (list_ascii_of_string "xyz") = Done (ca, cb, cc)
     /\ getText ca = list_ascii_of_string "xyzabc"
     /\ getText cb = list_ascii_of_string "xyzabc"
     /\ getText cc = list_ascii_of_string "xyzabc"
     /\ segments cb = segments ca /\ segments cc = segments ca)
  /\ emptyDocumentScenario = Some ("xyzabc", "xyzabc", "xyzabc")%string.
Proof.
  apply (concurrent_inserts_later_first 0 1 2 3 0
           (list_ascii_of_string "abc") (list_ascii_of_string "xyz") []).
  - reflexivity.
  - lia.
  - lia.
  - lia.
  - cbn. lia.
Defined.

End MergeTreeFacts.

(** ** Reverting an edit *)

Section RevertFacts.

Import HistoryEditFactory.

Context {V : Type} `{TreeView V}.

Lemma revertChanges_app (cs1 cs2 : list Change) (st : RevertState V) :
  revertChanges (cs1 ++ cs2) st =
    match revertChanges cs1 st with
    | Done (Some st') => revertChanges cs2 st'
    | Done None => Done None
    | Defect m => Defect m
    end.
Proof.
  revert st. induction cs1 as [| c cs1 IH]; intros st; [reflexivity |].
  cbn. destruct (revertChange st c) as [[st' |] | m]; [apply IH | reflexivity | reflexivity].
Qed.

(** Once a change makes the loop return [undefined], so does [revert]. *)
Lemma revert_undefined_at (before : V) (prefix rest : list Change) (change : Change)
    (st : RevertState V) :
  revertChanges prefix (initialState before) = Done (Some st) ->
  revertChange st change = Done None ->
  revert (prefix ++ change :: rest) before = Done None.
Proof.
  intros Hp Hc. unfold revert. rewrite revertChanges_app, Hp. cbn. rewrite Hc.
  reflexivity.
Qed.

(** An insert whose source is neither built nor detached at that point. *)
Lemma revertChange_insert_unavailable (st : RevertState V)
    (source : nat) (destination : StablePlace) :
  builtNodes st !! source = None -> detachedNodes st !! source = None ->
  revertChange st (Insert source destination) = Done None.
Proof. intros Hb Hd. cbn. rewrite Hb, Hd. reflexivity. Qed.

(** A detach into a destination that a build or a detach already uses. *)
Lemma revertChange_detach_occupied (st : RevertState V)
    (source : StableRange) (d : nat) :
  hasKey (builtNodes st) d || hasKey (detachedNodes st) d = true ->
  revertChange st (Detach source (Some d)) = Done None.
Proof.
  intros Hk. cbn.
  destruct (createInvertedDetach (editor st) source (Some d)) as [[inv ids] |];
    [rewrite Hk |]; reflexivity.
Qed.

(** A detach or a set-value whose target is not in the view (a conflicted
    edit). *)
Lemma revertChange_detach_conflicted (st : RevertState V)
    (source : StableRange) (destination : option nat) :
  createInvertedDetach (editor st) source destination = None ->
  revertChange st (Detach source destination) = Done None.
Proof. intros Hc. cbn. rewrite Hc. reflexivity. Qed.

Lemma revertChange_setValue_conflicted (st : RevertState V)
    (node : nat) (payload : option string) :
  createInvertedSetValue (editor st) node = None ->
  revertChange st (SetValue node payload) = Done None.
Proof. intros Hc. cbn. rewrite Hc. reflexivity. Qed.

Lemma hasKey_insert (m : gmap nat (list nat)) (k : nat) (v : list nat) :
  hasKey (<[k := v]> m) k = true.
Proof.
  unfold hasKey. apply bool_decide_eq_true. rewrite lookup_insert_eq. by eexists.
Qed.

Lemma hasKey_insert_ne (m : gmap nat (list nat)) (k k' : nat) (v : list nat) :
  k <> k' -> hasKey (<[k := v]> m) k' = hasKey m k'.
Proof. intros Hne. unfold hasKey. by rewrite lookup_insert_ne. Qed.

Lemma hasKey_delete (m : gmap nat (list nat)) (k : nat) :
  hasKey (delete k m) k = false.
Proof.
  unfold hasKey. apply bool_decide_eq_false. rewrite lookup_delete_eq.
  intros [x Hx]. discriminate Hx.
Qed.

Lemma hasKey_delete_ne (m : gmap nat (list nat)) (k k' : nat) :
  k <> k' -> hasKey (delete k m) k' = hasKey m k'.
Proof. intros Hne. unfold hasKey. by rewrite lookup_delete_ne. Qed.

Lemma hasKey_empty (k : nat) : hasKey ∅ k = false.
Proof.
  unfold hasKey. apply bool_decide_eq_false. rewrite lookup_empty.
  intros [x Hx]. discriminate Hx.
Qed.

Lemma hasKey_false (m : gmap nat (list nat)) (k : nat) :
  hasKey m k = false <-> m !! k = None.
Proof.
  unfold hasKey. rewrite bool_decide_eq_false, <- eq_None_not_Some. reflexivity.
Qed.

Lemma hasKey_true (m : gmap nat (list nat)) (k : nat) (v : list nat) :
  m !! k = Some v -> hasKey m k = true.
Proof. intros Hk. unfold hasKey. apply bool_decide_eq_true. by exists v. Qed.

(** A first build of new nodes. *)
Lemma revertChange_build_first (before : V) (identifier : nat) (payload : option string)
    (d : nat) :
  revertChange (initialState before) (Build [TreeNode identifier payload] d)
  = Done (Some {| result := [];
                  builtNodes := {[ d := [identifier] ]};
                  detachedNodes := ∅;
                  editor := applyChange before (Build [TreeNode identifier payload] d) |}).
Proof.
  cbn. rewrite !hasKey_empty. reflexivity.
Qed.

(** The two maps of the loop never hold the same id, and together they
    hold the ids that [holdsSequenceAfter] says hold nodes. *)
Lemma revertChange_holdsSequence (st st' : RevertState V) (change : Change) (d : nat) :
  revertChange st change = Done (Some st') ->
  (forall k, hasKey (builtNodes st) k && hasKey (detachedNodes st) k = false) ->
  (hasKey (builtNodes st') d || hasKey (detachedNodes st') d
   = holdsSequenceAfter d (hasKey (builtNodes st) d || hasKey (detachedNodes st) d) change)
  /\ (forall k, hasKey (builtNodes st') k && hasKey (detachedNodes st') k = false).
Proof.
  intros Hstep Hdisjoint. destruct change as [source destination | source destination
    | source [destination |] | node payload | range]; cbn in Hstep.
  - destruct (hasKey (builtNodes st) destination) eqn:Hb; [discriminate |].
    destruct (hasKey (detachedNodes st) destination) eqn:Hd; [discriminate |].
    destruct (builtNodeIds (builtNodes st) source) as [ids | m]; [| discriminate].
    injection Hstep as <-. cbn. split.
    + destruct (Nat.eqb_spec d destination) as [-> | Hne].
      * by rewrite hasKey_insert.
      * by rewrite hasKey_insert_ne.
    + intros k. destruct (Nat.eq_dec destination k) as [<- | Hne].
      * rewrite Hd. apply andb_false_r.
      * rewrite hasKey_insert_ne by done. apply Hdisjoint.
  - destruct (builtNodes st !! source) as [nodesBuilt |] eqn:Hb.
    + injection Hstep as <-. cbn.
      assert (Hd : hasKey (detachedNodes st) source = false).
      { pose proof (Hdisjoint source) as Hs.
        by rewrite (hasKey_true _ _ _ Hb) in Hs. }
      split.
      * destruct (Nat.eqb_spec d source) as [-> | Hne].
        -- by rewrite hasKey_delete, Hd.
        -- by rewrite hasKey_delete_ne.
      * intros k. destruct (Nat.eq_dec source k) as [<- | Hne].
        -- by rewrite hasKey_delete.
        -- rewrite hasKey_delete_ne by done. apply Hdisjoint.
    + destruct (detachedNodes st !! source) as [nodesDetached |] eqn:Hd;
        [| discriminate].
      injection Hstep as <-. cbn. split.
      * destruct (Nat.eqb_spec d source) as [-> | Hne].
        -- by rewrite hasKey_delete, (proj2 (hasKey_false _ _) Hb).
        -- by rewrite hasKey_delete_ne.
      * intros k. destruct (Nat.eq_dec source k) as [<- | Hne].
        -- rewrite hasKey_delete. apply andb_false_r.
        -- rewrite hasKey_delete_ne by done. apply Hdisjoint.
  - destruct (createInvertedDetach (editor st) source (Some destination))
      as [[inv ids] |]; [| discriminate].
    destruct (hasKey (builtNodes st) destination) eqn:Hb; [discriminate |].
    destruct (hasKey (detachedNodes st) destination) eqn:Hd; [discriminate |].
    cbn in Hstep. injection Hstep as <-. cbn. split.
    + destruct (Nat.eqb_spec d destination) as [-> | Hne].
      * rewrite hasKey_insert. apply orb_true_r.
      * by rewrite hasKey_insert_ne.
    + intros k. destruct (Nat.eq_dec destination k) as [<- | Hne].
      * by rewrite Hb.
      * rewrite hasKey_insert_ne by done. apply Hdisjoint.
  - destruct (createInvertedDetach (editor st) source None) as [[inv ids] |];
      [| discriminate].
    injection Hstep as <-. cbn. split; [reflexivity | exact Hdisjoint].
  - destruct (createInvertedSetValue (editor st) node) as [inv |]; [| discriminate].
    injection Hstep as <-. cbn. split; [reflexivity | exact Hdisjoint].
  - discriminate.
Qed.

Lemma revertChanges_holdsSequence (changes : list Change) (st st' : RevertState V)
    (d : nat) :
  revertChanges changes st = Done (Some st') ->
  (forall k, hasKey (builtNodes st) k && hasKey (detachedNodes st) k = false) ->
  hasKey (builtNodes st') d || hasKey (detachedNodes st') d
  = fold_left (holdsSequenceAfter d) changes
      (hasKey (builtNodes st) d || hasKey (detachedNodes st) d).
Proof.
  revert st. induction changes as [| change changes IH]; intros st Hrun Hdisjoint.
  - cbn in Hrun. injection Hrun as <-. reflexivity.
  - cbn in Hrun. destruct (revertChange st change) as [[st1 |] | m] eqn:Hstep;
      try discriminate.
    destruct (revertChange_holdsSequence st st1 change d Hstep Hdisjoint)
      as [Hheld Hdisjoint1].
    cbn [fold_left]. rewrite <- Hheld. by apply IH.
Qed.

(** The state of the loop after changes that revert. *)
Lemma revert_defined_state (changes inverse : list Change) (before : V) :
  revert changes before = Done (Some inverse) ->
  exists st, revertChanges changes (initialState before) = Done (Some st).
Proof.
  unfold revert.
  destruct (revertChanges changes (initialState before)) as [[st |] | m];
    [intros _; by exists st | discriminate | discriminate].
Qed.

Lemma revert_holdsSequence (changes inverse : list Change) (before : V) (d : nat) :
  revert changes before = Done (Some inverse) ->
  exists st,
    revertChanges changes (initialState before) = Done (Some st)
    /\ hasKey (builtNodes st) d || hasKey (detachedNodes st) d
       = holdsSequence d changes.
Proof.
  intros Hrevert. destruct (revert_defined_state _ _ _ Hrevert) as [st Hst].
  exists st. split; [exact Hst |].
  rewrite (revertChanges_holdsSequence changes (initialState before) st d Hst).
  - cbn. by rewrite !hasKey_empty.
  - intros k. cbn. by rewrite !hasKey_empty.
Qed.

(** C8 (amended): reverting an edit that is malformed in one of these ways
    -- an insert whose source detached-sequence id holds no nodes at that
    point of the edit (nothing was built or detached into it, or it was
    inserted already), or a detach whose destination id already holds the
    nodes of an earlier build or detach -- completes with the result
    [undefined], as for a conflicted edit, and does not fail fast.  The
    changes before the malformed one are any changes that revert. *)
Theorem revert_malformed_returns_undefined (before : V) :
  (forall (source : nat) (destination : StablePlace),
     revert [Insert source destination] before = Done None) /\
  (forall (identifier : nat) (payload : option string) (d : nat)
          (p1 p2 : StablePlace),
     revert [Build [TreeNode identifier payload] d; Insert d p1; Insert d p2] before
     = Done None) /\
  (forall (prefix rest inverse : list Change)
          (source : nat) (destination : StablePlace),
     revert prefix before = Done (Some inverse) ->
     holdsSequence source prefix = false ->
     revert (prefix ++ Insert source destination :: rest) before = Done None) /\
  (forall (r1 r2 : StableRange) (d : nat),
     revert [Detach r1 (Some d); Detach r2 (Some d)] before = Done None) /\
  (forall (identifier : nat) (payload : option string) (r : StableRange) (d : nat),
     revert [Build [TreeNode identifier payload] d; Detach r (Some d)] before
     = Done None) /\
  (forall (prefix rest inverse : list Change)
          (source : StableRange) (d : nat),
     revert prefix before = Done (Some inverse) ->
     holdsSequence d prefix = true ->
     revert (prefix ++ Detach source (Some d) :: rest) before = Done None).
Proof.
  repeat apply conj.
  - intros source destination.
    apply (revert_undefined_at before [] [] _ _ eq_refl).
    apply revertChange_insert_unavailable; apply lookup_empty.
  - intros identifier payload d p1 p2.
    unfold revert. cbn [revertChanges]. rewrite revertChange_build_first.
    cbn. rewrite lookup_singleton_eq. cbn. rewrite delete_singleton_eq, !lookup_empty.
    reflexivity.
  - intros prefix rest inverse source destination Hprefix Hheld.
    destruct (revert_holdsSequence prefix inverse before source Hprefix)
      as (st & Hst & Hkeys).
    rewrite Hheld in Hkeys. apply orb_false_iff in Hkeys as [Hb Hd].
    apply (revert_undefined_at before prefix rest _ st Hst).
    apply revertChange_insert_unavailable; by apply hasKey_false.
  - intros r1 r2 d. unfold revert. cbn [revertChanges].
    destruct (revertChange (initialState before) (Detach r1 (Some d)))
      as [[st |] | m] eqn:E; [| reflexivity |].
    + rewrite revertChange_detach_occupied; [reflexivity |].
      cbn in E. destruct (createInvertedDetach before r1 (Some d)) as [[inv ids] |];
        [| discriminate E].
      rewrite !hasKey_empty in E. cbn in E. injection E as <-. cbn [detachedNodes].
      rewrite hasKey_insert. apply orb_true_r.
    + cbn in E. destruct (createInvertedDetach before r1 (Some d)) as [[inv ids] |];
        [rewrite !hasKey_empty in E |]; discriminate E.
  - intros identifier payload r d.
    unfold revert. cbn [revertChanges]. rewrite revertChange_build_first.
    rewrite revertChange_detach_occupied; [reflexivity |].
    cbn [builtNodes]. unfold singletonM, map_singleton. rewrite hasKey_insert.
    reflexivity.
  - intros prefix rest inverse source d Hprefix Hheld.
    destruct (revert_holdsSequence prefix inverse before d Hprefix)
      as (st & Hst & Hkeys).
    rewrite Hheld in Hkeys.
    apply (revert_undefined_at before prefix rest _ st Hst).
    by apply revertChange_detach_occupied.
Qed.

(** Conflicted edits: a detach or a set-value of a node that is not in the
    tree reverts to [undefined]. *)
Lemma revert_conflicted_returns_undefined (before : V) :
  (forall (r : StableRange) (destination : option nat),
     createInvertedDetach before r destination = None ->
     revert [Detach r destination] before = Done None) /\
  (forall (node : nat) (payload : option string),
     createInvertedSetValue before node = None ->
     revert [SetValue node payload] before = Done None).
Proof.
  split.
  - intros r destination Hc.
    apply (revert_undefined_at before [] [] _ _ eq_refl).
    by apply revertChange_detach_conflicted.
  - intros node payload Hc.
    apply (revert_undefined_at before [] [] _ _ eq_refl).
    by apply revertChange_setValue_conflicted.
Qed.

End RevertFacts.

(** ** The cases of the revert test suite, on the test tree *)

Section RevertTests.

Import HistoryEditFactory SimpleTestTree.

(** "can revert a single detached node". *)
Lemma revert_single_detached_node :
  revert [Build [buildLeafInternal 10] 0; Build [DetachedSequence 0] 1;
          Insert 1 {| referenceSibling := None;
                      referenceTrait := Some leftTraitLocation; side := After |}]
    testTree
  = Done (Some [Detach {| start := before 10; end_ := after 10 |} None]).
Proof. vm_compute. reflexivity. Qed.

(** "can revert multiple detached nodes". *)
Lemma revert_multiple_detached_nodes :
  revert [Build [buildLeafInternal 10] 0; Build [buildLeafInternal 11] 1;
          Build [DetachedSequence 0; DetachedSequence 1] 2;
          Insert 2 {| referenceSibling := None;
                      referenceTrait := Some leftTraitLocation; side := After |}]
    testTree
  = Done (Some [Detach {| start := before 10; end_ := after 11 |} None]).
Proof. vm_compute. reflexivity. Qed.

(** "when reverting a detach of a node that is not in the tree" and "when
    reverting a set value of a node that is not in the tree". *)
Lemma revert_conflicted_tests :
  revert [Detach (only 10) None] testTree = Done None
  /\ revert [SetValue 10 (Some "42")] testTree = Done None.
Proof. split; vm_compute; reflexivity. Qed.

(** "when reverting an insert whose source is not insertable" and "when
    reverting a detach whose destination is already occupied": each of the
    four edits reverts to [undefined]; none fails fast, as C8 says they
    would. *)
Lemma malformed_revert_does_not_fail_fast :
  revert [Insert 0 (atStartOf leftTraitLocation)] testTree = Done None
  /\ revert [Build [buildLeafInternal 10] 0;
             Insert 0 (atStartOf leftTraitLocation);
             Insert 0 (atStartOf leftTraitLocation)] testTree = Done None
  /\ revert [Detach (only left) (Some 0); Detach (only left) (Some 0)] testTree
     = Done None
  /\ revert [Build [buildLeafInternal 10] 0; Detach (only left) (Some 0)] testTree
     = Done None
  /\ failedFast (revert [Insert 0 (atStartOf leftTraitLocation)] testTree) = false
  /\ failedFast (revert [Detach (only left) (Some 0); Detach (only left) (Some 0)]
                   testTree) = false.
Proof. repeat split; vm_compute; reflexivity. Qed.

(** A detach of a node that is in the tree does revert: to a build and an
    insert that put the node back. *)
Lemma revert_detach_in_tree :
  revert [Detach (only left) None] testTree
  = Done (Some [Build [TreeNode left None] 0; Insert 0 (atStartOf leftTraitLocation)]).
Proof. vm_compute. reflexivity. Qed.

End RevertTests.

(** ** summarizerHeuristics.ts: how the heuristics compose *)

Section SummarizerComposition.

Import SummarizerHeuristics.

Local Open Scope Z_scope.

(** [run()] calls [trySummarize] exactly when one of the two thresholds is
    exceeded. *)
Lemma run_summarizes_iff (r : SummarizeHeuristicRunner) (now : Z) :
  length (trySummarizeReasons (calls (run r now))) = 1%nat
  <-> maxTime (configuration r)
        < now - summaryTime (lastSuccessfulSummary (heuristicData r))
      \/ maxOps (configuration r) < opsSinceLastAck r.
Proof.
  rewrite run_calls, !Z.gtb_ltb.
  destruct (Z.ltb_spec (maxTime (configuration r))
              (now - summaryTime (lastSuccessfulSummary (heuristicData r))));
    [cbn; split; [intros _; by left | reflexivity] |].
  destruct (Z.ltb_spec (maxOps (configuration r)) (opsSinceLastAck r));
    [cbn; split; [intros _; by right | reflexivity] |].
  cbn. split; [discriminate | lia].
Qed.

(** X1: the decision of [run()] is monotone.  With the configuration and the
    last successful summary unchanged, once [run()] calls [trySummarize] it
    does so at every later time and for every later last op sequence
    number: waiting or receiving more ops never withdraws a summary that is
    due. *)
Theorem run_trySummarize_monotone (r r' : SummarizeHeuristicRunner) (now now' : Z) :
  configuration r' = configuration r ->
  lastSuccessfulSummary (heuristicData r') = lastSuccessfulSummary (heuristicData r) ->
  lastOpSequenceNumber (heuristicData r) <= lastOpSequenceNumber (heuristicData r') ->
  now <= now' ->
  length (trySummarizeReasons (calls (run r now))) = 1%nat ->
  length (trySummarizeReasons (calls (run r' now'))) = 1%nat.
Proof.
  intros Hcfg Hlast Hops Hnow.
  rewrite !run_summarizes_iff. unfold opsSinceLastAck.
  rewrite Hcfg, Hlast. lia.
Qed.

Lemma run_trySummarize_monotone_witness :
  let cfg := {| idleTime := 5000; maxTime := 60000; maxOps := 1000;
                minOpsForLastSummaryAttempt := 50 |} in
  let data (lastOp : Z) :=
    newSummarizeHeuristicData lastOp {| refSequenceNumber := 100; summaryTime := 7000 |} in
  length (trySummarizeReasons
            (calls (run {| heuristicData := data 1200; configuration := cfg |} 9000)))
  = 1%nat.
Proof.
  intros cfg data.
  apply (run_trySummarize_monotone
           {| heuristicData := data 1101; configuration := cfg |}
           {| heuristicData := data 1200; configuration := cfg |} 8000 9000);
    cbn; first [reflexivity | lia].
Defined.

(** X2: recording an attempt changes no decision.  Between
    [recordAttempt] and [markLastAttemptAsSuccessful] the runner counts ops
    and time from the same successful summary as before: [run()] makes the
    same calls and [shouldRunLastSummary()] gives the same answer and the
    same telemetry event, whatever reference sequence number and time the
    attempt was recorded with. *)
Theorem recordAttempt_changes_no_decision (r : SummarizeHeuristicRunner)
    (refSeq : option Z) (attemptTime now : Z) :
  let r' := {| heuristicData := recordAttempt refSeq attemptTime (heuristicData r);
               configuration := configuration r |} in
  run r' now = run r now
  /\ shouldRunLastSummary r' = shouldRunLastSummary r
  /\ opsSinceLastAck r' = opsSinceLastAck r.
Proof. repeat split. Qed.

(** X3: what a successful attempt resets.  After [recordAttempt] at time
    [attemptTime] and [markLastAttemptAsSuccessful], with [k] further ops
    received, [run()] calls [trySummarize] exactly when more than [maxTime]
    has passed since the attempt was recorded, or the ops after the
    attempt's reference sequence number are more than [maxOps]; an attempt
    recorded without a reference sequence number counts from the last op
    seen when it was recorded, so that exactly the [k] later ops count. *)
Theorem run_after_successful_attempt (d : SummarizeHeuristicData)
    (cfg : ISummaryConfigurationHeuristics) (refSeq : option Z)
    (attemptTime k now : Z) :
  let d1 := markLastAttemptAsSuccessful (recordAttempt refSeq attemptTime d) in
  let r := {| heuristicData :=
                {| lastOpSequenceNumber := lastOpSequenceNumber d1 + k;
                   lastAttempt := lastAttempt d1;
                   lastSuccessfulSummary := lastSuccessfulSummary d1 |};
              configuration := cfg |} in
  (length (trySummarizeReasons (calls (run r now))) = 1%nat
   <-> maxTime cfg < now - attemptTime
       \/ maxOps cfg < lastOpSequenceNumber d + k - default (lastOpSequenceNumber d) refSeq)
  /\ (refSeq = None -> opsSinceLastAck r = k).
Proof.
  intros d1 r. split.
  - rewrite run_summarizes_iff. reflexivity.
  - intros ->. unfold opsSinceLastAck. cbn. lia.
Qed.

End SummarizerComposition.

(** ** blobs.ts: the result as a blob type *)

Section BlobsUnionFacts.

Import Blobs.

(** X4: "text/plain" is the only mime type for which [getFileBlobType]
    returns something that is not a [type] tag of the [IGenericBlob] union:
    for every other string the result is "generic", "image" or "video". *)
Theorem getFileBlobType_in_union_iff (mimeType : string) :
  getFileBlobType mimeType ∈ genericBlobTags <-> mimeType <> "text/plain".
Proof.
  destruct (getFileBlobType_cases mimeType)
    as [[Hm Hr] | [[-> Hr] | [[-> Hr] | [Hm Hr]]]]; rewrite Hr; split.
  - intros _ ->. contradiction (text_not_image Hm).
  - intros _. unfold genericBlobTags. repeat constructor.
  - intros _. literals_differ.
  - intros _. unfold genericBlobTags. repeat constructor.
  - intros Hin. contradiction (text_not_a_blob_tag Hin).
  - intros Hne. by contradiction Hne.
  - intros _ ->. contradiction (Hm text_known).
  - intros _. unfold genericBlobTags. repeat constructor.
Qed.

End BlobsUnionFacts.

(** ** The fuzz harness: [assertConsistent] *)

Section AssertConsistentFacts.

Import IntervalCollectionFuzz.

Local Open Scope Z_scope.

Lemma assert_Done (value : bool) (message : string) :
  assert value message = Done tt <-> value = true.
Proof. destruct value; cbn; split; congruence. Qed.

Lemma seq_Done (o k : outcome unit) :
  (o ;; k) = Done tt <-> o = Done tt /\ k = Done tt.
Proof.
  destruct o as [[] | e]; cbn; [tauto |].
  split; [discriminate | intros [? _]; discriminate].
Qed.

Lemma forEach_Done {A} (l : list A) (body : A -> outcome unit) :
  forEach l body = Done tt <-> forall x, In x l -> body x = Done tt.
Proof.
  induction l as [| x l IH]; cbn [forEach].
  - split; [intros _ x [] | reflexivity].
  - rewrite seq_Done, IH. cbn. split.
    + intros [Hx Hl] y [<- | Hy]; auto.
    + intros Hall. split; [apply Hall; by left | intros y Hy; apply Hall; by right].
Qed.

Lemma forEach_zip_diag {A} (l : list A) (body : A * A -> outcome unit) :
  forEach (zip l l) body = forEach l (fun x => body (x, x)).
Proof. induction l as [| x l IH]; cbn; [reflexivity | by rewrite IH]. Qed.

(** The order of labels. *)
Lemma ascii_compare_N (a b : ascii) :
  Ascii.compare a b = N.compare (N_of_ascii a) (N_of_ascii b).
Proof. reflexivity. Qed.

Lemma ascii_compare_Eq (a b : ascii) : Ascii.compare a b = Eq -> a = b.
Proof.
  rewrite ascii_compare_N. intros Heq%N.compare_eq_iff.
  rewrite <- (ascii_N_embedding a), <- (ascii_N_embedding b). by rewrite Heq.
Qed.

Lemma ascii_compare_refl (a : ascii) : Ascii.compare a a = Eq.
Proof. rewrite ascii_compare_N. by apply N.compare_eq_iff. Qed.

Lemma string_leb_trans (s1 s2 s3 : string) :
  String.leb s1 s2 = true -> String.leb s2 s3 = true -> String.leb s1 s3 = true.
Proof.
  unfold String.leb.
  revert s2 s3. induction s1 as [| c1 s1 IH]; intros [| c2 s2] [| c3 s3]; cbn;
    try congruence.
  destruct (Ascii.compare c1 c2) eqn:H12; try discriminate;
    destruct (Ascii.compare c2 c3) eqn:H23; try discriminate.
  - apply ascii_compare_Eq in H12, H23. subst.
    rewrite ascii_compare_refl. apply IH.
  - apply ascii_compare_Eq in H12. subst. by rewrite H23.
  - apply ascii_compare_Eq in H23. subst. by rewrite H12.
  - rewrite ascii_compare_N in *. rewrite N.compare_lt_iff in *.
    assert (Hlt : (N_of_ascii c1 < N_of_ascii c3)%N) by lia.
    apply N.compare_lt_iff in Hlt. by rewrite Hlt.
Qed.

Lemma label_le_trans : Transitive (fun a b => Is_true (String.leb a b)).
Proof.
  intros a b c Hab%Is_true_true Hbc%Is_true_true.
  apply Is_true_true. by apply (string_leb_trans a b c).
Qed.

Lemma label_le_total : Total (fun a b => Is_true (String.leb a b)).
Proof.
  intros a b. destruct (String.leb_total a b) as [Hle | Hle];
    [left | right]; by apply Is_true_true.
Qed.

Lemma label_le_antisym : AntiSymm eq (fun a b => Is_true (String.leb a b)).
Proof.
  intros a b Hab%Is_true_true Hba%Is_true_true. by apply String.leb_antisym.
Qed.

(** Two arrays of labels sort to the same array exactly when they hold the
    same labels, each as often. *)
Lemma sortLabels_eq_iff (l1 l2 : list string) :
  sortLabels l1 = sortLabels l2 <-> Permutation l1 l2.
Proof.
  unfold sortLabels. split.
  - intros Heq.
    rewrite <- (merge_sort_Permutation (fun a b => Is_true (String.leb a b)) l1).
    rewrite Heq. apply merge_sort_Permutation.
  - intros Hperm.
    pose proof label_le_trans as Htrans.
    pose proof label_le_total as Htotal.
    pose proof label_le_antisym as Hantisym.
    apply (Sorted_unique (fun a b => Is_true (String.leb a b)));
      try apply Sorted_merge_sort; try apply _.
    by rewrite !merge_sort_Permutation.
Qed.

Lemma In_sortLabels (label : string) (l : list string) :
  In label (sortLabels l) <-> In label l.
Proof.
  unfold sortLabels.
  rewrite <- !list_elem_of_In.
  by rewrite (merge_sort_Permutation (fun a b => Is_true (String.leb a b)) l).
Qed.

Lemma assertSameInterval_Done (first other : SharedString)
    (collection2 : IntervalCollection) (i : SequenceInterval) :
  assertSameInterval first other collection2 i = Done tt
  <-> exists j, getIntervalById collection2 (getIntervalId i) = Some j
                /\ sameInterval first other i j.
Proof.
  unfold assertSameInterval, sameInterval.
  destruct (getIntervalById collection2 (getIntervalId i)) as [j |].
  - cbn zeta. rewrite !seq_Done, !assert_Done, !Z.eqb_eq, bool_decide_eq_true.
    split.
    + intros (? & ? & ? & ?). by exists j.
    + intros (j' & [= <-] & ?). tauto.
  - split; [discriminate | intros (j & [=] & _)].
Qed.

Lemma assertSameCollection_Done (first other : SharedString) (label : string) :
  assertSameCollection first other (label, label) = Done tt
  <-> sameCollection first other label.
Proof.
  unfold assertSameCollection, sameCollection. cbn [fst snd].
  rewrite seq_Done, assert_Done, Nat.eqb_eq, forEach_Done.
  by setoid_rewrite assertSameInterval_Done.
Qed.

(** The checks on one other client pass exactly when it is consistent with
    the first. *)
Lemma assertConsistentWith_Done (first other : SharedString) :
  assertConsistentWith first other = Done tt <-> consistentWith first other.
Proof.
  unfold assertConsistentWith, consistentWith. cbn zeta.
  rewrite !seq_Done, !assert_Done, Z.eqb_eq, String.eqb_eq, bool_decide_eq_true.
  split.
  - intros (Hlen & Htext & Hlabels & Hloop).
    split; [done |]. split; [done |]. split; [by apply sortLabels_eq_iff |].
    rewrite <- Hlabels, forEach_zip_diag, forEach_Done in Hloop.
    intros label Hin. apply assertSameCollection_Done, Hloop.
    by apply (proj2 (In_sortLabels _ _)).
  - intros (Hlen & Htext & Hperm & Hall).
    apply sortLabels_eq_iff in Hperm.
    split; [done |]. split; [done |]. split; [exact Hperm |].
    rewrite <- Hperm, forEach_zip_diag, forEach_Done.
    intros label Hin. apply (proj1 (In_sortLabels _ _)) in Hin.
    apply (proj2 (assertSameCollection_Done first other label)). by apply Hall.
Qed.

End AssertConsistentFacts.

Section AssertConsistentTheorems.

Import IntervalCollectionFuzz.

Local Open Scope Z_scope.

(** X5: [assertConsistent] returns without an error exactly when every
    connected client after the first connected one is consistent with the
    first: equal length, equal text, the same labels of interval
    collections, and per label as many intervals as the first and, for each
    interval of the first, an interval of the same id whose start and end
    resolve to the same positions and whose type and properties are equal.
    Clients that are not connected are not looked at, and with fewer than
    two connected clients nothing is checked. *)
Theorem assertConsistent_passes_iff (cs : list Client) :
  assertConsistent cs = Done tt
  <-> forall firstClient others,
        connectedClients cs = firstClient :: others ->
        forall client, In client others ->
          consistentWith (sharedString firstClient) (sharedString client).
Proof.
  unfold assertConsistent.
  destruct (connectedClients cs) as [| firstClient [| second others]] eqn:Hconn.
  - cbn. split; [intros _ ? ? [=] | reflexivity].
  - cbn. split; [intros _ ? ? [= <- <-] ? [] | reflexivity].
  - cbn [length Nat.ltb Nat.leb]. rewrite forEach_Done. split.
    + intros Hall ? ? [= <- <-] client Hin.
      by apply assertConsistentWith_Done, Hall.
    + intros Hall client Hin.
      by apply assertConsistentWith_Done, (Hall firstClient (second :: others)).
Qed.

Lemma consistentWith_observations (first other : SharedString) :
  consistentWith first other ->
  getText first = getText other
  /\ getLength first = getLength other
  /\ Permutation (getIntervalCollectionLabels first) (getIntervalCollectionLabels other).
Proof. intros (? & ? & ? & _). auto. Qed.

(** X6: when [assertConsistent] returns without an error, any two connected
    clients, not only the first and another, have the same text, the same
    length and the same labels of interval collections. *)
Theorem assertConsistent_connected_agree (cs : list Client) (c1 c2 : Client) :
  assertConsistent cs = Done tt ->
  In c1 cs -> connected (containerRuntime c1) = true ->
  In c2 cs -> connected (containerRuntime c2) = true ->
  getText (sharedString c1) = getText (sharedString c2)
  /\ getLength (sharedString c1) = getLength (sharedString c2)
  /\ Permutation (getIntervalCollectionLabels (sharedString c1))
       (getIntervalCollectionLabels (sharedString c2)).
Proof.
  intros Hpass Hin1 Hconn1 Hin2 Hconn2.
  assert (Hc1 : In c1 (connectedClients cs)) by (apply filter_In; auto).
  assert (Hc2 : In c2 (connectedClients cs)) by (apply filter_In; auto).
  destruct (connectedClients cs) as [| firstClient others] eqn:Hconn; [destruct Hc1 |].
  pose proof (proj1 (assertConsistent_passes_iff cs) Hpass firstClient others Hconn)
    as Hall.
  assert (Hfirst : forall c, In c (firstClient :: others) ->
            getText (sharedString firstClient) = getText (sharedString c)
            /\ getLength (sharedString firstClient) = getLength (sharedString c)
            /\ Permutation (getIntervalCollectionLabels (sharedString firstClient))
                 (getIntervalCollectionLabels (sharedString c))).
  { intros c [<- | Hc]; [repeat split; reflexivity |].
    by apply consistentWith_observations, Hall. }
  destruct (Hfirst c1 Hc1) as (Ht1 & Hl1 & Hp1).
  destruct (Hfirst c2 Hc2) as (Ht2 & Hl2 & Hp2).
  split; [congruence |]. split; [congruence |].
  by rewrite <- Hp1, Hp2.
Qed.

Lemma assertConsistent_connected_agree_witness :
  getText (FuzzSamples.replica "A") = getText (FuzzSamples.replica "C")
  /\ getLength (FuzzSamples.replica "A") = getLength (FuzzSamples.replica "C")
  /\ Permutation (getIntervalCollectionLabels (FuzzSamples.replica "A"))
       (getIntervalCollectionLabels (FuzzSamples.replica "C")).
Proof.
  apply (assertConsistent_connected_agree FuzzSamples.sampleClients
           (FuzzSamples.client (FuzzSamples.replica "A") true)
           (FuzzSamples.client (FuzzSamples.replica "C") true)).
  - vm_compute. reflexivity.
  - cbn. auto.
  - reflexivity.
  - cbn. auto.
  - reflexivity.
Defined.

Lemma NoDup_map_injective {A B} (f : A -> B) (l : list A) (x y : A) :
  NoDup (map f l) -> In x l -> In y l -> f x = f y -> x = y.
Proof.
  induction l as [| a l IH]; cbn; [intros _ [] |].
  intros Hnd%NoDup_cons [-> | Hx] [-> | Hy] Heq; destruct Hnd as [Hnotin Hnd].
  - reflexivity.
  - exfalso. apply Hnotin. rewrite Heq. apply list_elem_of_In. by apply in_map.
  - exfalso. apply Hnotin. rewrite <- Heq. apply list_elem_of_In. by apply in_map.
  - by apply IH.
Qed.

(** X7: the check of the intervals runs from the first client to the other
    one only, yet it covers both directions.  When [assertConsistent]
    returns without an error, the ids of the first client's intervals in a
    collection are distinct, and the other client's [getIntervalById]
    returns intervals of its own collection under the id asked for, then
    every interval of the other client also has an interval of the same id
    in the first client, at the same start and end positions and with the
    same type and properties. *)
Theorem assertConsistent_covers_other_intervals (cs : list Client)
    (firstClient other : Client) (others : list Client) (label : string) :
  let collection1 := getIntervalCollection (sharedString firstClient) label in
  let collection2 := getIntervalCollection (sharedString other) label in
  assertConsistent cs = Done tt ->
  connectedClients cs = firstClient :: others ->
  In other others ->
  In label (getIntervalCollectionLabels (sharedString firstClient)) ->
  NoDup (map getIntervalId (intervals collection1)) ->
  (forall name j, getIntervalById collection2 name = Some j ->
     In j (intervals collection2) /\ getIntervalId j = name) ->
  forall j, In j (intervals collection2) ->
    exists i, In i (intervals collection1)
      /\ getIntervalId i = getIntervalId j
      /\ sameInterval (sharedString firstClient) (sharedString other) i j.
Proof.
  intros collection1 collection2 Hpass Hconn Hother Hlabel Hnodup Hcoherent j Hj.
  destruct (proj1 (assertConsistent_passes_iff cs) Hpass _ _ Hconn other Hother)
    as (_ & _ & _ & Hcollections).
  destruct (Hcollections label Hlabel) as [Hlength Hintervals].
  fold collection1 collection2 in Hlength, Hintervals.
  set (ids1 := map getIntervalId (intervals collection1)) in *.
  set (ids2 := map getIntervalId (intervals collection2)).
  assert (Hsub : ids1 ⊆+ ids2).
  { apply NoDup_submseteq; [exact Hnodup |].
    intros name Hname%list_elem_of_In. apply in_map_iff in Hname as (i & <- & Hi).
    destruct (Hintervals i Hi) as (j' & Hj' & _).
    destruct (Hcoherent _ _ Hj') as [Hin <-].
    apply list_elem_of_In. by apply in_map. }
  assert (Hperm : Permutation ids1 ids2).
  { apply submseteq_length_Permutation; [exact Hsub |].
    unfold ids1, ids2. rewrite !length_map. lia. }
  assert (Hnodup2 : NoDup ids2) by (by rewrite <- Hperm).
  assert (Hid : In (getIntervalId j) ids1).
  { apply list_elem_of_In. rewrite Hperm. apply list_elem_of_In. by apply in_map. }
  apply in_map_iff in Hid as (i & Hidi & Hi).
  exists i. split; [exact Hi |]. split; [exact Hidi |].
  destruct (Hintervals i Hi) as (j' & Hj' & Hsame).
  destruct (Hcoherent _ _ Hj') as [Hin Hidj'].
  assert (j' = j) as <-; [| exact Hsame].
  apply (NoDup_map_injective getIntervalId (intervals collection2)); auto.
  congruence.
Qed.

Lemma assertConsistent_covers_other_intervals_witness :
  exists i, In i (intervals FuzzSamples.comments)
    /\ getIntervalId i = getIntervalId FuzzSamples.comment
    /\ sameInterval (FuzzSamples.replica "A") (FuzzSamples.replica "C")
         i FuzzSamples.comment.
Proof.
  apply (assertConsistent_covers_other_intervals FuzzSamples.sampleClients
           (FuzzSamples.client (FuzzSamples.replica "A") true)
           (FuzzSamples.client (FuzzSamples.replica "C") true)
           [FuzzSamples.client (FuzzSamples.replica "C") true] "comments").
  - vm_compute. reflexivity.
  - reflexivity.
  - cbn. auto.
  - cbn. auto.
  - cbn. repeat constructor. intros Hin. inversion Hin.
  - cbn. intros name j. destruct (String.eqb_spec name "i1") as [-> |]; [| discriminate].
    intros [= <-]. auto.
  - cbn. auto.
Defined.

End AssertConsistentTheorems.

(** ** The fuzz harness: operation generators *)

Section GeneratorFacts.

Import IntervalCollectionFuzz.

Local Open Scope Z_scope.

Context {R : Type} `{Random R}.
Variable options : OperationGenerationConfig.

Lemma countIntervals_spec (collection : list SequenceInterval) (intervalCount : Z) :
  countIntervals options collection intervalCount =
    if match collection with
       | [] => true
       | _ :: _ => intervalCount + Z.of_nat (length collection) <? maxIntervals options
       end
    then Some (intervalCount + Z.of_nat (length collection))
    else None.
Proof.
  revert intervalCount. induction collection as [| i rest IH]; intros intervalCount.
  - cbn. f_equal. lia.
  - cbn [countIntervals length]. rewrite IH. clear IH.
    destruct (Z.geb_spec (intervalCount + 1) (maxIntervals options)) as [Hge | Hlt].
    + destruct (Z.ltb_spec (intervalCount + Z.of_nat (S (length rest)))
                  (maxIntervals options)); [lia | reflexivity].
    + destruct rest as [| i' rest].
      * cbn [length].
        destruct (Z.ltb_spec (intervalCount + Z.of_nat 1) (maxIntervals options));
          [f_equal; lia | lia].
      * destruct (Z.ltb_spec (intervalCount + 1 + Z.of_nat (length (i' :: rest)))
                    (maxIntervals options)),
                 (Z.ltb_spec (intervalCount + Z.of_nat (S (length (i' :: rest))))
                    (maxIntervals options)); try lia; [f_equal; lia | reflexivity].
Qed.

Lemma countIntervals_app (l1 l2 : list SequenceInterval) (intervalCount : Z) :
  countIntervals options (l1 ++ l2) intervalCount =
    match countIntervals options l1 intervalCount with
    | None => None
    | Some intervalCount => countIntervals options l2 intervalCount
    end.
Proof.
  revert intervalCount. induction l1 as [| i l1 IH]; intros intervalCount;
    [reflexivity |].
  cbn. destruct (_ >=? _); [reflexivity | apply IH].
Qed.

Lemma countCollections_flat_map (s : SharedString) (labels : list string)
    (intervalCount : Z) :
  countCollections options s labels intervalCount =
    countIntervals options
      (flat_map (fun label => intervals (getIntervalCollection s label)) labels)
      intervalCount.
Proof.
  revert intervalCount. induction labels as [| label labels IH]; intros intervalCount;
    [reflexivity |].
  cbn. rewrite countIntervals_app.
  destruct (countIntervals options _ intervalCount); [apply IH | reflexivity].
Qed.

(** X8: [hasNotTooManyIntervals] accepts a state exactly when the shared
    string has no interval at all, or the number of its intervals, over
    all its collections, is strictly less than [maxIntervals].  A string
    without intervals is accepted whatever [maxIntervals] is, also zero or
    negative. *)
Theorem hasNotTooManyIntervals_iff (state : ClientOpState) :
  let count :=
    length (flat_map
              (fun label =>
                 intervals (getIntervalCollection (stateSharedString state) label))
              (getIntervalCollectionLabels (stateSharedString state))) in
  hasNotTooManyIntervals options state = true
  <-> count = 0%nat \/ Z.of_nat count < maxIntervals options.
Proof.
  intros count. subst count. unfold hasNotTooManyIntervals.
  rewrite countCollections_flat_map, countIntervals_spec.
  destruct (flat_map _ _) as [| i rest].
  - cbn. tauto.
  - rewrite Z.add_0_l.
    destruct (Z.ltb_spec (Z.of_nat (length (i :: rest))) (maxIntervals options)).
    + tauto.
    + split; [discriminate |]. cbn [length] in *. intros [? | ?]; [discriminate | lia].
Qed.

(** [all] is the conjunction of its clauses. *)
Lemma all_true_iff {T} (clauses : list (T -> bool)) (t : T) :
  all clauses t = true <-> forall clause, In clause clauses -> clause t = true.
Proof.
  unfold all.
  assert (Hfold : forall prev,
            fold_left (fun prev cond => prev && cond t) clauses prev = true
            <-> prev = true /\ forall clause, In clause clauses -> clause t = true).
  { induction clauses as [| c clauses IH]; intros prev; cbn.
    - split; [intros ->; split; [reflexivity | intros ? []] | tauto].
    - rewrite IH, andb_true_iff. split.
      + intros [[-> Hc] Hrest]. split; [reflexivity |].
        intros clause [<- | Hin]; auto.
      + intros [-> Hall]. split; [split; [reflexivity | apply Hall; by left] |].
        intros clause Hin. apply Hall. by right. }
  rewrite Hfold. tauto.
Qed.

Hypothesis laws : RandomLaws R.

Lemma position_range (state : ClientOpState) (r : R) :
  0 < getLength (stateSharedString state) ->
  exists index r', position state r = Done (index, r')
    /\ 0 <= index <= getLength (stateSharedString state) - 1.
Proof.
  intros Hlen. unfold position, draw.
  destruct (integer 0 (getLength (stateSharedString state) - 1) r) as [index r'] eqn:Hi.
  exists index, r'. split; [reflexivity |].
  pose proof (integer_range R laws 0 (getLength (stateSharedString state) - 1) r) as Hr.
  rewrite Hi in Hr. apply Hr. lia.
Qed.

Lemma exclusiveRange_valid (state : ClientOpState) (r : R) :
  0 < getLength (stateSharedString state) ->
  exists range r', exclusiveRange state r = Done (range, r')
    /\ 0 <= range.1 < range.2 /\ range.2 <= getLength (stateSharedString state).
Proof.
  intros Hlen. unfold exclusiveRange, genBind.
  destruct (position_range state r Hlen) as (start & r1 & -> & Hstart).
  unfold draw, genRet.
  destruct (integer (start + 1) (getLength (stateSharedString state)) r1)
    as [end_ r2] eqn:He.
  exists (start, end_), r2. split; [reflexivity |]. cbn.
  pose proof (integer_range R laws (start + 1) (getLength (stateSharedString state)) r1)
    as Hr.
  rewrite He in Hr. cbn in Hr. lia.
Qed.

Lemma inclusiveRange_valid (state : ClientOpState) (r : R) :
  0 < getLength (stateSharedString state) ->
  exists range r', inclusiveRange state r = Done (range, r')
    /\ 0 <= range.1 <= range.2 /\ range.2 <= getLength (stateSharedString state) - 1.
Proof.
  intros Hlen. unfold inclusiveRange, genBind.
  destruct (position_range state r Hlen) as (start & r1 & -> & Hstart).
  unfold draw, genRet.
  destruct (integer start (getLength (stateSharedString state) - 1) r1)
    as [end_ r2] eqn:He.
  exists (start, end_), r2. split; [reflexivity |]. cbn.
  pose proof (integer_range R laws start (getLength (stateSharedString state) - 1) r1)
    as Hr.
  rewrite He in Hr. cbn in Hr. lia.
Qed.

Lemma hasNonzeroLength_true (state : ClientOpState) :
  hasNonzeroLength state = true <-> 0 < getLength (stateSharedString state).
Proof. unfold hasNonzeroLength, lengthSatisfies. rewrite Z.gtb_ltb. apply Z.ltb_lt. Qed.

(** The picks of [interval]. *)
Lemma interval_exists (state : ClientOpState) (r : R) :
  hasAnInterval state = true ->
  exists collectionName intervalId r',
    interval state r = Done ((collectionName, intervalId), r')
    /\ hasInterval (stateSharedString state) collectionName intervalId.
Proof.
  intros Hhas. unfold hasAnInterval in Hhas.
  apply existsb_exists in Hhas as (label & Hlabel & Hnonempty).
  unfold interval, nonEmptyIntervalCollection, genBind, draw.
  set (nonEmptyLabels := List.filter _ _).
  assert (Hne : nonEmptyLabels <> []).
  { intros Hnil. assert (Hin : In label nonEmptyLabels) by (apply filter_In; auto).
    rewrite Hnil in Hin. destruct Hin. }
  destruct (pick_elem R laws _ nonEmptyLabels r Hne) as (name & Hpick & Hname).
  destruct (pick nonEmptyLabels r) as [picked r1]. cbn in Hpick. subst picked.
  apply filter_In in Hname as [Hname Hnameok].
  unfold isNonEmpty in Hnameok.
  set (collection := intervals (getIntervalCollection (stateSharedString state) name)) in *.
  assert (Hne2 : collection <> []) by (destruct collection; [discriminate | discriminate]).
  destruct (pick_elem R laws _ collection r1 Hne2) as (i & Hpick2 & Hi).
  destruct (pick collection r1) as [picked r2]. cbn in Hpick2. subst picked.
  exists name, (getIntervalId i), r2. split; [reflexivity |]. split; [exact Hname |].
  by exists i.
Qed.




Lemma addText_draws (state : ClientOpState) (r : R) :
  exists content r',
    addText options state r
    = Done (AddText (id (stateSharedString state))
              (integer 0 (getLength (stateSharedString state) - 1) r).1 content, r').
Proof.
  unfold addText, position, genBind, draw, genRet.
  destruct (integer 0 (getLength (stateSharedString state) - 1) r) as [index r1].
  destruct (integer 0 (maxInsertLength options) r1) as [length r2].
  destruct (randomString length r2) as [content r3].
  by exists content, r3.
Qed.

(** X9: where [addText] inserts.  In a string of non-zero length the index
    is that of a character, [0 <= index <= length - 1]: text is never
    added behind the last character.  The acceptance condition of the row,
    [isShorterThanMaxLength], also holds for the empty string when
    [maxStringLength] is positive; the index is then what the random
    source returns for an integer between 0 and -1. *)
Theorem addText_index (state : ClientOpState) (r : R) :
  exists index content r',
    addText options state r
    = Done (AddText (id (stateSharedString state)) index content, r')
    /\ (0 < getLength (stateSharedString state) ->
        0 <= index <= getLength (stateSharedString state) - 1)
    /\ (getLength (stateSharedString state) = 0 -> 0 < maxStringLength options ->
        isShorterThanMaxLength options state = true
        /\ index = (integer 0 (-1) r).1).
Proof.
  destruct (addText_draws state r) as (content & r' & Hadd).
  eexists _, content, r'. split; [exact Hadd |]. split.
  - intros Hlen. apply (integer_range R laws). lia.
  - intros Hzero Hmax. split.
    + unfold isShorterThanMaxLength, lengthSatisfies. rewrite Hzero.
      by apply Z.ltb_lt.
    + by rewrite Hzero.
Qed.

(** X10: a [removeRange] operation generated for a string of non-zero length,
    which is the acceptance condition of its row, removes a non-empty range
    within the string: [0 <= start < end <= length]. *)
Theorem removeRange_valid (state : ClientOpState) (r : R) :
  hasNonzeroLength state = true ->
  exists range r',
    removeRange state r
    = Done (RemoveRange (id (stateSharedString state)) range, r')
    /\ 0 <= range.1 < range.2
    /\ range.2 <= getLength (stateSharedString state).
Proof.
  intros Hlen%hasNonzeroLength_true.
  destruct (exclusiveRange_valid state r Hlen) as (range & r' & Hrange & Hvalid).
  exists range, r'. split; [| exact Hvalid].
  unfold removeRange, genBind. by rewrite Hrange.
Qed.

(** X11: an [addInterval] operation generated in a state its row accepts
    (not too many intervals, non-zero length) has both endpoints on
    characters of the string, in order: [0 <= start <= end <= length - 1];
    its collection is one of [intervalCollectionNamePool] when that pool is
    not empty. *)
Theorem addInterval_valid (state : ClientOpState) (r : R) :
  all [hasNotTooManyIntervals options; hasNonzeroLength] state = true ->
  exists collectionName range intervalId r',
    addInterval options state r
    = Done (AddInterval (id (stateSharedString state)) collectionName range intervalId,
            r')
    /\ 0 <= range.1 <= range.2
    /\ range.2 <= getLength (stateSharedString state) - 1
    /\ (intervalCollectionNamePool options <> [] ->
        exists name, collectionName = Some name
                     /\ In name (intervalCollectionNamePool options)).
Proof.
  intros Hall. rewrite all_true_iff in Hall.
  assert (Hlen : 0 < getLength (stateSharedString state)).
  { apply hasNonzeroLength_true, Hall. cbn. auto. }
  destruct (inclusiveRange_valid state r Hlen) as (range & r1 & Hrange & Hvalid).
  unfold addInterval, genBind. rewrite Hrange. unfold draw, genRet.
  destruct (pick (intervalCollectionNamePool options) r1) as [collectionName r2] eqn:Hp.
  destruct (uuid4 r2) as [intervalId r3].
  exists collectionName, range, intervalId, r3.
  split; [reflexivity |]. split; [apply Hvalid |]. split; [apply Hvalid |].
  intros Hpool.
  destruct (pick_elem R laws _ _ r1 Hpool) as (name & Hname & Hin).
  rewrite Hp in Hname. by exists name.
Qed.


(** X13: a [changeInterval] operation generated in a state its row accepts
    (some collection has an interval, non-zero length) names an interval
    that the string has; each endpoint it gives is on a character of the
    string, and when it gives both, the start is not after the end. *)
Theorem changeInterval_valid (state : ClientOpState) (r : R) :
  all [hasAnInterval; hasNonzeroLength] state = true ->
  exists collectionName intervalId newStart newEnd r',
    changeInterval state r
    = Done (ChangeInterval (id (stateSharedString state)) collectionName intervalId
              newStart newEnd, r')
    /\ hasInterval (stateSharedString state) collectionName intervalId
    /\ (forall s, newStart = Some s -> 0 <= s <= getLength (stateSharedString state) - 1)
    /\ (forall e, newEnd = Some e -> 0 <= e <= getLength (stateSharedString state) - 1)
    /\ (forall s e, newStart = Some s -> newEnd = Some e -> s <= e).
Proof.
  intros Hall. rewrite all_true_iff in Hall.
  assert (Hlen : 0 < getLength (stateSharedString state)).
  { apply hasNonzeroLength_true, Hall. cbn. auto. }
  assert (Hhas : hasAnInterval state = true) by (apply Hall; cbn; auto).
  destruct (inclusiveRange_valid state r Hlen) as ([s e] & r1 & Hrange & Hvalid).
  cbn [fst snd] in Hvalid.
  unfold changeInterval, genBind. rewrite Hrange. unfold draw at 1 2.
  destruct (integer 0 5 r1) as [dropStart r2].
  destruct (integer 0 5 r2) as [dropEnd r3].
  destruct (interval_exists state r3 Hhas) as (name & intervalId & r4 & -> & Hin).
  eexists name, intervalId, _, _, r4. split; [reflexivity |]. split; [exact Hin |].
  cbn [fst snd].
  destruct (dropStart =? 5), (dropEnd =? 5); repeat split; intros; simplify_eq; lia.
Qed.

End GeneratorFacts.

Section ConnectionFacts.

Import IntervalCollectionFuzz.

Lemma findClient_split (stringId : string) (cs : list Client) (c : Client) :
  findClient stringId cs = Some c ->
  exists before after,
    cs = before ++ c :: after
    /\ id (sharedString c) = stringId
    /\ Forall (fun c' => id (sharedString c') <> stringId) before.
Proof.
  unfold findClient. induction cs as [| c' cs IH]; [discriminate |].
  cbn. destruct (String.eqb_spec (id (sharedString c')) stringId) as [Heq | Hne].
  - intros [= <-]. exists [], cs. repeat split; [exact Heq | constructor].
  - intros Hfind. destruct (IH Hfind) as (before & after & -> & Hid & Hbefore).
    exists (c' :: before), after. repeat split; [exact Hid | by constructor].
Qed.

Lemma setConnected_split (stringId : string) (nowConnected : bool)
    (before after : list Client) (c : Client) :
  id (sharedString c) = stringId ->
  Forall (fun c' => id (sharedString c') <> stringId) before ->
  setConnected stringId nowConnected (before ++ c :: after)
  = Done (before
          ++ {| sharedString := sharedString c;
                containerRuntime := {| connected := nowConnected |} |} :: after).
Proof.
  intros Hid. induction 1 as [| c' before Hne _ IH]; cbn.
  - by rewrite (proj2 (String.eqb_eq _ _) Hid).
  - rewrite (proj2 (String.eqb_neq _ _) Hne), IH. reflexivity.
Qed.

(** X14: a generated [changeConnectionState] operation always changes a
    connection state.  If the state has a client for the string, the
    operation asks for the opposite of that client's [connected], consumes
    no randomness, and its reducer sets [connected] on that same client,
    the first one with the string's id, leaving every other client as it
    was. *)
Theorem changeConnectionState_flips {R : Type} `{Random R}
    (state : ClientOpState) (r : R) (c : Client) :
  let stringId := id (stateSharedString state) in
  let flipped := negb (connected (containerRuntime c)) in
  findClient stringId (clients state) = Some c ->
  changeConnectionState state r = Done (ChangeConnectionState stringId flipped, r)
  /\ exists before after,
       clients state = before ++ c :: after
       /\ Forall (fun c' => id (sharedString c') <> stringId) before
       /\ setConnected stringId flipped (clients state)
          = Done (before
                  ++ {| sharedString := sharedString c;
                        containerRuntime := {| connected := flipped |} |} :: after).
Proof.
  intros stringId flipped Hfind. split.
  - unfold changeConnectionState. fold stringId. rewrite Hfind.
    subst flipped. by destruct (connected (containerRuntime c)).
  - destruct (findClient_split _ _ _ Hfind) as (before & after & Hcs & Hid & Hbefore).
    exists before, after. split; [exact Hcs |]. split; [exact Hbefore |].
    rewrite Hcs. by apply setConnected_split.
Qed.

End ConnectionFacts.

Section GeneratorInstances.

Import IntervalCollectionFuzz.

Local Open Scope Z_scope.

Lemma leastRandom_laws : RandomLaws unit.
Proof.
  split.
  - intros min max r Hle. cbn. lia.
  - intros A [| x l] r Hne; [done |]. exists x. cbn. auto.
  - intros l r. reflexivity.
Qed.

Lemma addText_index_witness :
  exists index content r',
    addText defaultOptions FuzzSamples.sampleState tt
    = Done (AddText "A" index content, r')
    /\ (0 < 2 -> 0 <= index <= 2 - 1)
    /\ (2 = 0 -> 0 < 1000 ->
        isShorterThanMaxLength defaultOptions FuzzSamples.sampleState = true
        /\ index = (integer 0 (-1) tt).1).
Proof.
  exact (addText_index defaultOptions leastRandom_laws FuzzSamples.sampleState tt).
Defined.

Lemma removeRange_valid_witness :
  exists range r',
    removeRange FuzzSamples.sampleState tt
    = Done (RemoveRange "A" range, r')
    /\ 0 <= range.1 < range.2 /\ range.2 <= 2.
Proof.
  apply (removeRange_valid leastRandom_laws FuzzSamples.sampleState tt).
  reflexivity.
Defined.

Lemma addInterval_valid_witness :
  exists collectionName range intervalId r',
    addInterval defaultOptions FuzzSamples.sampleState tt
    = Done (AddInterval "A" collectionName range intervalId, r')
    /\ 0 <= range.1 <= range.2
    /\ range.2 <= 2 - 1
    /\ (intervalCollectionNamePool defaultOptions <> [] ->
        exists name, collectionName = Some name
                     /\ In name (intervalCollectionNamePool defaultOptions)).
Proof.
  apply (addInterval_valid defaultOptions leastRandom_laws FuzzSamples.sampleState tt).
  reflexivity.
Defined.


Lemma changeInterval_valid_witness :
  exists collectionName intervalId newStart newEnd r',
    changeInterval FuzzSamples.sampleState tt
    = Done (ChangeInterval "A" collectionName intervalId newStart newEnd, r')
    /\ hasInterval (FuzzSamples.replica "A") collectionName intervalId
    /\ (forall s, newStart = Some s -> 0 <= s <= 2 - 1)
    /\ (forall e, newEnd = Some e -> 0 <= e <= 2 - 1)
    /\ (forall s e, newStart = Some s -> newEnd = Some e -> s <= e).
Proof.
  apply (changeInterval_valid leastRandom_laws FuzzSamples.sampleState tt).
  reflexivity.
Defined.

Lemma changeConnectionState_flips_witness :
  changeConnectionState FuzzSamples.sampleState tt
  = Done (ChangeConnectionState "A" false, tt)
  /\ exists before after,
       FuzzSamples.sampleClients
       = before ++ FuzzSamples.client (FuzzSamples.replica "A") true :: after
       /\ Forall (fun c' => id (sharedString c') <> "A") before
       /\ setConnected "A" false FuzzSamples.sampleClients
          = Done (before ++ FuzzSamples.client (FuzzSamples.replica "A") false :: after).
Proof.
  apply (changeConnectionState_flips FuzzSamples.sampleState tt
           (FuzzSamples.client (FuzzSamples.replica "A") true)).
  reflexivity.
Defined.

End GeneratorInstances.

(** ** The fuzz harness: [logCurrentState] *)

Section LogFacts.

Import IntervalCollectionFuzz.

Local Open Scope Z_scope.

Lemma repeatSpace_ok (count : Z) :
  0 <= count -> repeatSpace count = Done (spaces (Z.to_nat count)).
Proof.
  intros Hc. unfold repeatSpace. destruct (Z.ltb_spec count 0); [lia | reflexivity].
Qed.

Lemma repeatSpace_negative (count : Z) :
  count < 0 -> repeatSpace count = Defect "RangeError: Invalid count value".
Proof.
  intros Hc. unfold repeatSpace. destruct (Z.ltb_spec count 0); [reflexivity | lia].
Qed.

Lemma length_spaces_append (n : nat) (s : string) :
  String.length (spaces n ++ s) = (n + String.length s)%nat.
Proof. induction n as [| n IH]; cbn; [reflexivity | by rewrite <- IH]. Qed.

Lemma get_spaces_append_lt (n k : nat) (s : string) :
  (k < n)%nat -> String.get k (spaces n ++ s) = Some " "%char.
Proof.
  revert k. induction n as [| n IH]; intros k Hk; [lia |].
  destruct k as [| k]; [reflexivity |]. cbn. apply IH. lia.
Qed.

Lemma get_spaces_append_ge (n k : nat) (s : string) :
  String.get (n + k) (spaces n ++ s) = String.get k s.
Proof. induction n as [| n IH]; cbn; [reflexivity | exact IH]. Qed.

Lemma string_app_cons (c : ascii) (s1 s2 : string) :
  (String c s1 ++ s2 = String c (s1 ++ s2))%string.
Proof. reflexivity. Qed.

Lemma string_app_nil (s : string) : (EmptyString ++ s = s)%string.
Proof. reflexivity. Qed.

(** The marker of an interval whose end is after its start. *)
Lemma intervalMarker_brackets (s e : Z) :
  0 <= s < e ->
  intervalMarker s e
  = Done (spaces (Z.to_nat s) ++ "[" ++ spaces (Z.to_nat (e - s - 1)) ++ "]")%string.
Proof.
  intros Hse. unfold intervalMarker.
  destruct (Z.eqb_spec e s); [lia |].
  rewrite !repeatSpace_ok by lia. reflexivity.
Qed.

Lemma intervalMarker_x (s : Z) :
  0 <= s -> intervalMarker s s = Done (spaces (Z.to_nat s) ++ "x")%string.
Proof.
  intros Hs. unfold intervalMarker. rewrite Z.eqb_refl, repeatSpace_ok by lia.
  reflexivity.
Qed.

Lemma intervalMarker_throws (s e : Z) :
  s < 0 \/ e < s ->
  intervalMarker s e = Defect "RangeError: Invalid count value".
Proof.
  intros Hse. unfold intervalMarker.
  destruct (Z.eqb_spec e s) as [-> | Hne].
  - rewrite repeatSpace_negative by lia. reflexivity.
  - destruct (Z.ltb_spec s 0).
    + rewrite (repeatSpace_negative s) by lia. reflexivity.
    + rewrite (repeatSpace_ok s) by lia.
      rewrite (repeatSpace_negative (e - s - 1)) by lia. reflexivity.
Qed.

(** One round of [logCurrentState], for a client that has the tracked
    interval. *)
Lemma logClient_marker (cs : list Client) (loggingInfo : LoggingInfo)
    (clientId : string) (c : Client) (tracked : SequenceInterval) :
  let s := localReferencePositionToPosition (sharedString c) (start tracked) in
  let e := localReferencePositionToPosition (sharedString c) (end_ tracked) in
  let header := ("Client " ++ clientId ++ ":")%string in
  findClient clientId cs = Some c ->
  trackedInterval (sharedString c) loggingInfo = Some tracked ->
  (0 <= s <= e ->
     exists marker,
       logClient cs loggingInfo clientId
       = ([header; marker; getText (sharedString c); newline], Done tt)
       /\ String.length marker = (Z.to_nat e + 1)%nat
       /\ String.get (Z.to_nat s) marker = Some (if s =? e then "x"%char else "["%char)
       /\ (s < e -> String.get (Z.to_nat e) marker = Some "]"%char)
       /\ (forall k, (k < Z.to_nat e)%nat -> k <> Z.to_nat s ->
             String.get k marker = Some " "%char))
  /\ (s < 0 \/ e < s ->
      logClient cs loggingInfo clientId
      = ([header], Defect "RangeError: Invalid count value")).
Proof.
  intros s e header Hfind Htracked. unfold logClient. rewrite Hfind. cbn zeta.
  rewrite Htracked. fold s e header. split.
  - intros Hse. destruct (Z.eqb_spec s e) as [Heq | Hne].
    + rewrite <- Heq. rewrite intervalMarker_x by lia.
      eexists. split; [reflexivity |].
      rewrite length_spaces_append. split; [reflexivity |].
      split.
      { rewrite <- (Nat.add_0_r (Z.to_nat s)) at 1. by rewrite get_spaces_append_ge. }
      split; [lia |].
      intros k Hk _. by apply get_spaces_append_lt.
    + rewrite intervalMarker_brackets by lia.
      eexists. split; [reflexivity |].
      assert (He : Z.to_nat e = (Z.to_nat s + S (Z.to_nat (e - s - 1)))%nat) by lia.
      split.
      { rewrite length_spaces_append, string_app_cons, string_app_nil.
        cbn [String.length]. rewrite length_spaces_append. cbn [String.length]. lia. }
      split.
      { rewrite <- (Nat.add_0_r (Z.to_nat s)) at 1. by rewrite get_spaces_append_ge. }
      split.
      { intros _. rewrite He, get_spaces_append_ge, string_app_cons, string_app_nil.
        cbn [String.get].
        rewrite <- (Nat.add_0_r (Z.to_nat (e - s - 1))) at 1.
        by rewrite get_spaces_append_ge. }
      intros k Hk Hks.
      destruct (Nat.lt_ge_cases k (Z.to_nat s)) as [Hlt | Hge];
        [by apply get_spaces_append_lt |].
      replace k with (Z.to_nat s + S (k - Z.to_nat s - 1))%nat by lia.
      rewrite get_spaces_append_ge, string_app_cons, string_app_nil.
      cbn [String.get]. apply get_spaces_append_lt. lia.
  - intros Hse. by rewrite intervalMarker_throws.
Qed.

(** The loop of [logCurrentState] over the ids [ids1] and then [ids2]. *)
Lemma logClients_app (cs : list Client) (loggingInfo : LoggingInfo)
    (ids1 ids2 : list string) :
  logClients cs loggingInfo (ids1 ++ ids2)
  = match logClients cs loggingInfo ids1 with
    | (lines, Done _) =>
        let '(more, result) := logClients cs loggingInfo ids2 in (lines ++ more, result)
    | (lines, Defect e) => (lines, Defect e)
    end.
Proof.
  induction ids1 as [| clientId ids1 IH]; cbn [app logClients].
  - by destruct (logClients cs loggingInfo ids2).
  - destruct (logClient cs loggingInfo clientId) as [lines [[] | e]]; [| reflexivity].
    rewrite IH. destruct (logClients cs loggingInfo ids1) as [lines1 [[] | e1]];
      [| reflexivity].
    destruct (logClients cs loggingInfo ids2) as [lines2 result].
    by rewrite app_assoc.
Qed.

(** The loop reads of the logging information only the id of the tracked
    interval. *)
Lemma logClients_trackedIntervalId (cs : list Client) (info1 info2 : LoggingInfo)
    (ids : list string) :
  trackedIntervalId info1 = trackedIntervalId info2 ->
  logClients cs info1 ids = logClients cs info2 ids.
Proof.
  intros Hid. induction ids as [| clientId ids IH]; [reflexivity |].
  cbn [logClients]. rewrite IH.
  unfold logClient, trackedInterval. by rewrite Hid.
Qed.

(** X15: what [logCurrentState] prints for a client that has the tracked
    interval, wherever the client stands in the list of clients to print.
    Let the interval run from position [s] to position [e].  When the
    clients listed before it are printed without an error, as the lines
    [linesBefore], then with [0 <= s <= e] the lines for the client follow
    [linesBefore]: the header, a marker line, the text and an empty line;
    the marker line is [e + 1] characters wide, with "x" in column [s] when
    [s = e], else "[" in column [s] and "]" in column [e], and spaces
    elsewhere, so that the brackets stand over the characters at [s] and
    [e] of the text printed below; after them come the lines and the
    result of the clients listed after it.  With a negative start, or an
    end before the start, [logCurrentState] throws a [RangeError] after the
    header, prints neither marker nor text, and prints nothing for the
    clients listed after it.  When printing the clients listed before it
    throws, nothing is printed for the client. *)
Theorem logCurrentState_marker (cs : list Client) (loggingInfo : LoggingInfo)
    (idsBefore idsAfter : list string)
    (clientId : string) (c : Client) (tracked : SequenceInterval) :
  let s := localReferencePositionToPosition (sharedString c) (start tracked) in
  let e := localReferencePositionToPosition (sharedString c) (end_ tracked) in
  let header := ("Client " ++ clientId ++ ":")%string in
  let logOf ids :=
    logCurrentState cs
      {| trackedIntervalId := trackedIntervalId loggingInfo; clientIds := ids |} in
  clientIds loggingInfo = idsBefore ++ clientId :: idsAfter ->
  findClient clientId cs = Some c ->
  trackedInterval (sharedString c) loggingInfo = Some tracked ->
  (forall linesBefore, logOf idsBefore = (linesBefore, Done tt) ->
     (0 <= s <= e ->
        exists marker,
          logCurrentState cs loggingInfo
          = (linesBefore ++ [header; marker; getText (sharedString c); newline]
               ++ (logOf idsAfter).1,
             (logOf idsAfter).2)
          /\ String.length marker = (Z.to_nat e + 1)%nat
          /\ String.get (Z.to_nat s) marker
             = Some (if s =? e then "x"%char else "["%char)
          /\ (s < e -> String.get (Z.to_nat e) marker = Some "]"%char)
          /\ (forall k, (k < Z.to_nat e)%nat -> k <> Z.to_nat s ->
                String.get k marker = Some " "%char))
     /\ (s < 0 \/ e < s ->
         logCurrentState cs loggingInfo
         = (linesBefore ++ [header], Defect "RangeError: Invalid count value")))
  /\ (forall linesBefore error, logOf idsBefore = (linesBefore, Defect error) ->
        logCurrentState cs loggingInfo = (linesBefore, Defect error)).
Proof.
  intros s e header logOf Hids Hfind Htracked.
  destruct (logClient_marker cs loggingInfo clientId c tracked Hfind Htracked)
    as [Hok Hthrow].
  assert (Hsame : forall ids, logOf ids = logClients cs loggingInfo ids).
  { intros ids. subst logOf. unfold logCurrentState. cbn [clientIds].
    by apply logClients_trackedIntervalId. }
  unfold logCurrentState at 1 2 3. rewrite Hids.
  change (idsBefore ++ clientId :: idsAfter) with (idsBefore ++ [clientId] ++ idsAfter).
  rewrite !logClients_app. split.
  - intros linesBefore Hbefore. rewrite Hsame in Hbefore. rewrite Hbefore.
    cbn [logClients]. split.
    + intros Hse. destruct (Hok Hse) as (marker & -> & Hmarker).
      exists marker. split; [| exact Hmarker].
      rewrite Hsame. destruct (logClients cs loggingInfo idsAfter) as [more result].
      cbn [fst snd app]. reflexivity.
    + intros Hse. rewrite (Hthrow Hse). reflexivity.
  - intros linesBefore error Hbefore. rewrite Hsame in Hbefore. by rewrite Hbefore.
Qed.

Lemma logCurrentState_marker_witness :
  exists marker,
    logCurrentState FuzzSamples.sampleClients
      {| trackedIntervalId := "i1"; clientIds := ["A"; "B"; "C"] |}
    = (["Client A:"; "[]"; "ab"; newline; "Client B:"; EmptyString; newline]
         ++ ["Client C:"; marker; "ab"; newline] ++ [],
       Done tt)
    /\ String.length marker = 2%nat
    /\ String.get 0 marker = Some "["%char
    /\ (0 < 1 -> String.get 1 marker = Some "]"%char)
    /\ (forall k, (k < 1)%nat -> k <> 0%nat -> String.get k marker = Some " "%char).
Proof.
  refine (proj1 (proj1 (logCurrentState_marker FuzzSamples.sampleClients
                   {| trackedIntervalId := "i1"; clientIds := ["A"; "B"; "C"] |}
                   ["A"; "B"] []
                   "C" (FuzzSamples.client (FuzzSamples.replica "C") true)
                   FuzzSamples.comment _ _ _)
                   ["Client A:"; "[]"; "ab"; newline; "Client B:"; EmptyString; newline]
                   _) _).
  - reflexivity.
  - reflexivity.
  - reflexivity.
  - reflexivity.
  - cbn. lia.
Defined.

End LogFacts.

(** ** [assertIntervals] *)

Section AssertIntervalsFacts.

Import IntervalCollectionFuzz.

Local Open Scope Z_scope.

(** X16: [assertIntervals] returns without an error exactly when the query
    over the whole string returns as many intervals as were expected and
    every returned interval resolves to a start and an end that some
    expected interval has. *)
Theorem assertIntervals_passes_iff (s : SharedString)
    (intervalCollection : IntervalCollection) (expected : list (Z * Z)) :
  let actual := findOverlappingIntervals intervalCollection 0 (getLength s - 1) in
  assertIntervals s intervalCollection expected = Done tt
  <-> length actual = length expected
      /\ forall a, In a actual ->
           In (localRefToPos s (start a), localRefToPos s (end_ a)) expected.
Proof.
  intros actual. unfold assertIntervals. fold actual.
  rewrite seq_Done, assert_Done, Nat.eqb_eq, forEach_Done.
  apply and_iff_compat_l.
  split; intros Hall a Ha; specialize (Hall a Ha).
  - apply assert_Done, existsb_exists in Hall as ([es ee] & Hin & Heq).
    cbn [fst snd] in Heq. apply andb_true_iff in Heq as [->%Z.eqb_eq ->%Z.eqb_eq].
    exact Hin.
  - apply assert_Done, existsb_exists. eexists. split; [exact Hall |].
    cbn [fst snd]. by rewrite !Z.eqb_refl.
Qed.

(** X17: [assertIntervals] does not require every expected interval to be
    found.  If the query returns as many intervals as were expected and
    all of them resolve to one expected interval [p], the check passes,
    whatever other intervals were expected. *)
Theorem assertIntervals_accepts_repeats (s : SharedString)
    (intervalCollection : IntervalCollection) (expected : list (Z * Z)) (p : Z * Z) :
  let actual := findOverlappingIntervals intervalCollection 0 (getLength s - 1) in
  In p expected ->
  length actual = length expected ->
  (forall a, In a actual -> (localRefToPos s (start a), localRefToPos s (end_ a)) = p) ->
  assertIntervals s intervalCollection expected = Done tt.
Proof.
  intros actual Hp Hlength Hall. unfold assertIntervals. fold actual.
  rewrite seq_Done, assert_Done, Nat.eqb_eq, forEach_Done.
  split; [exact Hlength |].
  intros a Ha. apply assert_Done, existsb_exists. exists p. split; [exact Hp |].
  rewrite <- (Hall a Ha). cbn [fst snd]. by rewrite !Z.eqb_refl.
Qed.

Lemma assertIntervals_accepts_repeats_witness :
  assertIntervals (FuzzSamples.replica "A") FuzzSamples.twoComments [(0, 1); (1, 2)]
  = Done tt.
Proof.
  apply (assertIntervals_accepts_repeats (FuzzSamples.replica "A")
           FuzzSamples.twoComments [(0, 1); (1, 2)] (0, 1)).
  - cbn. auto.
  - reflexivity.
  - cbn. intros a [<- | [<- | []]]; reflexivity.
Defined.

End AssertIntervalsFacts.

(** ** [loadSegments] *)

Section JsStringFacts.

Import JsString.

Local Open Scope N_scope.

Lemma startsWith_app (pattern s : list N) :
  startsWith pattern s = true <-> exists rest, s = pattern ++ rest.
Proof.
  revert s. induction pattern as [| p pattern IH]; intros s.
  - cbn. split; [intros _; by exists s | reflexivity].
  - destruct s as [| c s]; cbn.
    + split; [discriminate | intros (rest & [=])].
    + rewrite andb_true_iff, N.eqb_eq, IH. split.
      * intros [-> (rest & ->)]. by exists rest.
      * intros (rest & [= -> ->]). split; [reflexivity | by exists rest].
Qed.

Lemma startsWith_drop (pattern s : list N) :
  startsWith pattern s = true -> s = pattern ++ drop (length pattern) s.
Proof.
  intros (rest & ->)%startsWith_app. by rewrite drop_app_length.
Qed.

Lemma startsWith_extend (pattern s t : list N) :
  startsWith pattern s = true -> startsWith pattern (s ++ t) = true.
Proof.
  rewrite !startsWith_app. intros (rest & ->). exists (rest ++ t).
  by rewrite app_assoc.
Qed.

Lemma splitFrom_cons (steps : nat) (separator s piece : list N) :
  exists first rest, splitFrom steps separator s piece = first :: rest.
Proof.
  destruct steps as [| steps], s as [| c s]; cbn; eauto.
  destruct (startsWith separator (c :: s)); eauto.
  revert s piece c. induction steps as [| steps IH]; intros s piece c.
  - destruct s; cbn; eauto.
  - destruct s as [| c' s]; cbn; eauto.
    destruct (startsWith separator (c' :: s)); eauto.
Qed.

Lemma join_cons (separator first : list N) (pieces : list (list N)) :
  pieces <> [] ->
  join separator (first :: pieces) = first ++ separator ++ join separator pieces.
Proof. destruct pieces; [done | reflexivity]. Qed.

(** Joining the pieces of a split with the separator gives the string
    back. *)
Lemma splitFrom_join (steps : nat) (separator s piece : list N) :
  separator <> [] -> (length s <= steps)%nat ->
  join separator (splitFrom steps separator s piece) = piece ++ s.
Proof.
  intros Hsep. revert s piece.
  induction steps as [| steps IH]; intros s piece Hlen.
  - destruct s; [reflexivity | cbn in Hlen; lia].
  - destruct s as [| c rest]; [reflexivity |].
    cbn [splitFrom]. destruct (startsWith separator (c :: rest)) eqn:Hstart.
    + destruct (splitFrom_cons steps separator (drop (length separator) (c :: rest)) [])
        as (first & more & Hsplit).
      rewrite join_cons by (rewrite Hsplit; discriminate).
      rewrite IH.
      * cbn [app]. by rewrite <- (startsWith_drop _ _ Hstart).
      * rewrite length_drop. cbn in *. destruct separator; [done | cbn; lia].
    + rewrite IH by (cbn in Hlen; lia). by rewrite <- app_assoc.
Qed.

(** No piece of a split holds the separator. *)
Lemma splitFrom_absent (steps : nat) (separator s piece : list N) :
  separator <> [] -> (length s <= steps)%nat ->
  (forall i, (i < length piece)%nat -> startsWith separator (drop i (piece ++ s)) = false) ->
  forall q, In q (splitFrom steps separator s piece) -> absent separator q.
Proof.
  intros Hsep. revert s piece.
  assert (Hnil : startsWith separator [] = false) by (destruct separator; done).
  assert (Hdone : forall piece,
            (forall i, (i < length piece)%nat -> startsWith separator (drop i piece) = false) ->
            absent separator piece).
  { intros piece Hinv i. destruct (Nat.lt_ge_cases i (length piece)) as [Hlt | Hge];
      [by apply Hinv |]. by rewrite drop_ge. }
  induction steps as [| steps IH]; intros s piece Hlen Hinv q Hq.
  - destruct s; [| cbn in Hlen; lia]. cbn in Hq. destruct Hq as [<- | []].
    rewrite app_nil_r in *. by apply Hdone.
  - destruct s as [| c rest].
    + cbn in Hq. destruct Hq as [<- | []]. rewrite app_nil_r in *. by apply Hdone.
    + cbn [splitFrom] in Hq.
      destruct (startsWith separator (c :: rest)) eqn:Hstart.
      * destruct Hq as [<- | Hq].
        -- apply Hdone. intros i Hi.
           destruct (startsWith separator (drop i piece)) eqn:Hhere; [| reflexivity].
           rewrite <- (Hinv i Hi), drop_app_le by lia.
           symmetry. by apply startsWith_extend.
        -- apply (IH (drop (length separator) (c :: rest)) []); [| | exact Hq].
           ++ rewrite length_drop. destruct separator; [done | cbn in *; lia].
           ++ cbn. lia.
      * apply (IH rest (piece ++ [c])); [cbn in Hlen; lia | | exact Hq].
        intros i Hi. rewrite length_app in Hi. cbn in Hi.
        rewrite <- app_assoc. cbn [app].
        destruct (Nat.lt_ge_cases i (length piece)) as [Hlt | Hge]; [by apply Hinv |].
        assert (i = length piece) as -> by lia.
        by rewrite drop_app_length.
Qed.

Lemma split_join (separator s : list N) :
  separator <> [] -> join separator (split separator s) = s.
Proof.
  intros Hsep. unfold split. destruct separator as [| p separator]; [done |].
  by rewrite splitFrom_join.
Qed.

Lemma split_absent (separator s q : list N) :
  separator <> [] -> In q (split separator s) -> absent separator q.
Proof.
  intros Hsep. unfold split. destruct separator as [| p separator]; [done |].
  apply splitFrom_absent; [done | lia | cbn; lia].
Qed.

Lemma split_nonempty (separator s : list N) :
  separator <> [] -> split separator s <> [].
Proof.
  intros Hsep. unfold split. destruct separator as [| p separator]; [done |].
  destruct (splitFrom_cons (length s) (p :: separator) s []) as (first & rest & ->).
  discriminate.
Qed.

(** Where the pattern is absent, [replace] changes nothing. *)
Lemma replaceAllFrom_absent (steps : nat) (pattern replacement s : list N) :
  absent pattern s -> replaceAllFrom steps pattern replacement s = s.
Proof.
  revert s. induction steps as [| steps IH]; intros s Habsent; [by destruct s |].
  destruct s as [| c rest]; [reflexivity |].
  cbn [replaceAllFrom]. rewrite (Habsent 0%nat : startsWith pattern (c :: rest) = false).
  f_equal. apply IH. intros i. apply (Habsent (S i)).
Qed.

(** A single code unit is absent where it is not an element. *)
Lemma absent_unit (u : N) (s : list N) :
  absent [u] s <-> forall c, In c s -> c <> u.
Proof.
  unfold absent. induction s as [| c s IH].
  - split; [intros _ c [] | intros _ i; by rewrite drop_nil].
  - split.
    + intros Habsent c' [<- | Hin].
      * specialize (Habsent 0%nat). cbn in Habsent.
        rewrite andb_true_r in Habsent. apply N.eqb_neq in Habsent. congruence.
      * apply IH; [| exact Hin]. intros i. apply (Habsent (S i)).
    + intros Hall [| i].
      * cbn. rewrite andb_true_r. apply N.eqb_neq. intros ->. by apply (Hall c); [left |].
      * cbn. apply IH. intros c' Hin. apply Hall. by right.
Qed.

(** Dropping the separating code unit from a joined string leaves the
    pieces. *)
Lemma filter_join_unit (u : N) (pieces : list (list N)) :
  (forall q, In q pieces -> absent [u] q) ->
  List.filter (fun c => negb (c =? u)) (join [u] pieces) = concat pieces.
Proof.
  assert (Hpiece : forall q, absent [u] q -> List.filter (fun c => negb (c =? u)) q = q).
  { intros q Habsent. pose proof (proj1 (absent_unit u q) Habsent) as Hq.
    clear Habsent. induction q as [| c q IH]; [reflexivity |].
    cbn. rewrite (proj2 (N.eqb_neq c u)) by (apply Hq; by left). cbn.
    f_equal. apply IH. intros c' Hin. apply Hq. by right. }
  induction pieces as [| q pieces IH]; intros Hall; [reflexivity |].
  destruct pieces as [| q' pieces].
  - cbn. rewrite app_nil_r. apply Hpiece, Hall. by left.
  - rewrite join_cons by discriminate.
    rewrite !List.filter_app, Hpiece by (apply Hall; by left).
    cbn [List.filter]. rewrite N.eqb_refl. cbn [negb app concat].
    f_equal. apply IH. intros q0 Hin. apply Hall. by right.
Qed.

End JsStringFacts.

Section LoadSegmentsFacts.

Import JsString TextLoader.

Local Open Scope N_scope.

Context `{MergeTreeConstants}.

(** [loadSegments] on a short text: the emphasized piece between the
    underscores, and a chapter heading with its marker. *)
Lemma loadSegments_examples :
  loadSegments (ofString "a_b_c") (Integer 0) false
  = Done
      [Some (TextSegment (ofString "a") None UniversalSequenceNumber LocalClientId);
       Some (TextSegment (ofString "b") (Some {["fontStyle" := PString "italic"]})
               UniversalSequenceNumber LocalClientId);
       Some (TextSegment (ofString "c" ++ [lineFeed]) None
               UniversalSequenceNumber LocalClientId)]
  /\ loadSegments (ofString "Chapter_1" ++ crlf ++ ofString "x") (Integer 0) true
     = Done
         [Some (TextSegment (ofString "Chapter_1") None
                  UniversalSequenceNumber LocalClientId);
          Some (Marker Tile ({["header" := PNumber 2]}
                             ∪ {[reservedTileLabelsKey := PStrings ["pg"]]})
                  UniversalSequenceNumber LocalClientId);
          Some (TextSegment (ofString "x") None UniversalSequenceNumber LocalClientId);
          Some (Marker Tile {[reservedTileLabelsKey := PStrings ["pg"]]}
                  UniversalSequenceNumber LocalClientId)]
  /\ loadSegments [] (Integer 3) false
     = Done
         [Some (TextSegment [lineFeed] None UniversalSequenceNumber LocalClientId);
          None; None]
  /\ loadSegments [] (Integer (2 ^ 32)) false
     = Defect "RangeError: Invalid array length"
  /\ loadSegments [] (NotInteger true) false
     = Defect "RangeError: Invalid array length".
Proof. repeat split. Qed.

Lemma crlf_nonempty : crlf <> [].
Proof. discriminate. Qed.

(** X18: the replacement of line breaks by spaces in the paragraph loop
    never applies: the paragraphs come from a split at the line breaks and
    hold none.  A prepared paragraph is the piece of the split with its
    curly quotes made straight, and a line feed at its end when there are
    no markers. *)
Theorem paragraphsOf_without_replace (content : list N) (markers : bool) :
  paragraphsOf content markers
  = map (fun piece =>
           replaceUnits (fun c => c =? rightSingleQuote) [apostrophe]
             (replaceUnits (fun c => (c =? leftDoubleQuote) || (c =? rightDoubleQuote))
                [doubleQuote] piece)
           ++ (if markers then [] else [lineFeed]))
      (split crlf (stripByteOrderMark content))
  /\ forall piece, In piece (split crlf (stripByteOrderMark content)) ->
       replaceAll crlf [space] piece = piece.
Proof.
  assert (Hdead : forall piece, In piece (split crlf (stripByteOrderMark content)) ->
            replaceAll crlf [space] piece = piece).
  { intros piece Hin. apply replaceAllFrom_absent.
    by apply (split_absent crlf (stripByteOrderMark content)). }
  split; [| exact Hdead].
  unfold paragraphsOf. apply map_ext_in. intros piece Hin.
  unfold prepareParagraph. rewrite (Hdead piece Hin).
  destruct markers; [by rewrite app_nil_r | reflexivity].
Qed.

Lemma segmentsText_app (l1 l2 : list Segment) :
  segmentsText (l1 ++ l2) = segmentsText l1 ++ segmentsText l2.
Proof. unfold segmentsText. by rewrite map_app, concat_app. Qed.

Lemma segmentsText_emphSegments (i : nat) (pieces : list (list N)) :
  segmentsText (emphSegments i pieces) = concat pieces.
Proof.
  revert i. induction pieces as [| piece pieces IH]; intros i; [reflexivity |].
  cbn [emphSegments concat]. rewrite segmentsText_app, IH. f_equal.
  destruct (Nat.odd i), piece; cbn; by rewrite ?app_nil_r.
Qed.

(** The text of the segments of one paragraph. *)
Lemma segmentsText_paragraphSegments (markers : bool) (paragraph : list N) :
  segmentsText (paragraphSegments markers paragraph)
  = if (indexOf (ofString "Chapter") paragraph >=? 0)%Z then paragraph
    else List.filter (fun c => negb (c =? underscore)) paragraph.
Proof.
  unfold paragraphSegments. cbn [withProps].
  destruct (indexOf (ofString "Chapter") paragraph >=? 0)%Z.
  - destruct markers; cbn; by rewrite app_nil_r.
  - assert (Htext : segmentsText (emphSegments 0 (split [underscore] paragraph))
                    = List.filter (fun c => negb (c =? underscore)) paragraph).
    { rewrite segmentsText_emphSegments.
      rewrite <- (split_join [underscore] paragraph) at 2 by discriminate.
      symmetry. apply filter_join_unit. intros q Hq.
      by apply (split_absent [underscore] paragraph). }
    destruct markers; [| exact Htext].
    rewrite segmentsText_app, Htext. cbn. by rewrite app_nil_r.
Qed.

(** X19: the text that [loadSegments] loads.  The segments hold, in order,
    the prepared paragraphs; a paragraph that contains "Chapter" is kept as
    it is, underscores included, and every other paragraph loses all its
    underscores and nothing else.  Markers hold no text. *)
Theorem allSegments_text (content : list N) (markers : bool) :
  segmentsText (allSegments content markers)
  = flat_map
      (fun paragraph =>
         if (indexOf (ofString "Chapter") paragraph >=? 0)%Z then paragraph
         else List.filter (fun c => negb (c =? underscore)) paragraph)
      (paragraphsOf content markers).
Proof.
  unfold allSegments.
  induction (paragraphsOf content markers) as [| paragraph paragraphs IH];
    [reflexivity |].
  cbn [flat_map]. by rewrite segmentsText_app, IH, segmentsText_paragraphSegments.
Qed.

Lemma emphSegments_nonempty_text (i : nat) (pieces : list (list N)) :
  Forall (fun s => isMarker s = false /\ segmentText s <> []) (emphSegments i pieces).
Proof.
  revert i. induction pieces as [| piece pieces IH]; intros i; [constructor |].
  cbn [emphSegments]. apply Forall_app. split; [| apply IH].
  destruct (Nat.odd i), piece; cbn;
    first [by constructor | constructor; [by split | constructor]].
Qed.

Lemma indexOf_nil (pattern : list N) :
  pattern <> [] -> indexOf pattern [] = (-1)%Z.
Proof. destruct pattern; [done | reflexivity]. Qed.

Lemma paragraphSegments_texts (markers : bool) (paragraph : list N) :
  Forall (fun s => isMarker s = true \/ segmentText s <> [])
    (paragraphSegments markers paragraph).
Proof.
  assert (Hemph : Forall (fun s => isMarker s = true \/ segmentText s <> [])
                    (emphSegments 0 (split [underscore] paragraph))).
  { eapply Forall_impl; [apply emphSegments_nonempty_text |]. cbn. tauto. }
  unfold paragraphSegments. cbn [withProps].
  destruct (indexOf (ofString "Chapter") paragraph >=? 0)%Z eqn:Hchapter.
  - assert (Hne : paragraph <> []).
    { intros ->. rewrite indexOf_nil in Hchapter by discriminate. discriminate. }
    destruct markers; cbn.
    + constructor; [by right |]. constructor; [by left | constructor].
    + constructor; [by right | constructor].
  - destruct markers; [| exact Hemph].
    apply Forall_app. split; [exact Hemph |].
    constructor; [by left | constructor].
Qed.

Lemma filter_isMarker_emphSegments (i : nat) (pieces : list (list N)) :
  List.filter isMarker (emphSegments i pieces) = [].
Proof.
  revert i. induction pieces as [| piece pieces IH]; intros i; [reflexivity |].
  cbn [emphSegments]. rewrite List.filter_app, IH.
  destruct (Nat.odd i), piece; reflexivity.
Qed.

Lemma filter_isMarker_paragraphSegments (markers : bool) (paragraph : list N) :
  length (List.filter isMarker (paragraphSegments markers paragraph))
  = if markers then 1%nat else 0%nat.
Proof.
  unfold paragraphSegments. cbn [withProps].
  destruct (indexOf (ofString "Chapter") paragraph >=? 0)%Z, markers;
    rewrite ?List.filter_app, ?filter_isMarker_emphSegments; reflexivity.
Qed.

Lemma paragraphSegments_nonempty (markers : bool) (paragraph : list N) :
  markers = true \/ In lineFeed paragraph ->
  paragraphSegments markers paragraph <> [].
Proof.
  intros Hcase Hnil.
  destruct markers.
  - pose proof (filter_isMarker_paragraphSegments true paragraph) as Hcount.
    rewrite Hnil in Hcount. discriminate.
  - destruct Hcase as [[=] | Hin].
    pose proof (segmentsText_paragraphSegments false paragraph) as Htext.
    rewrite Hnil in Htext. cbn in Htext.
    destruct (indexOf _ _ >=? 0)%Z.
    + subst paragraph. destruct Hin.
    + assert (Hkeep : In lineFeed (List.filter (fun c => negb (c =? underscore)) paragraph))
        by (apply filter_In; split; [exact Hin | reflexivity]).
      rewrite <- Htext in Hkeep. destruct Hkeep.
Qed.

(** X20: [loadSegments] never makes an empty text segment, and before the
    limit is applied it makes at least one segment, also for the empty
    content. *)
Theorem allSegments_no_empty_text (content : list N) (markers : bool) :
  Forall (fun s => isMarker s = true \/ segmentText s <> [])
    (allSegments content markers)
  /\ allSegments content markers <> [].
Proof.
  unfold allSegments. split.
  - induction (paragraphsOf content markers) as [| paragraph paragraphs IH];
      [constructor |].
    cbn [flat_map]. apply Forall_app. split; [apply paragraphSegments_texts | exact IH].
  - unfold paragraphsOf.
    pose proof (split_nonempty crlf (stripByteOrderMark content) crlf_nonempty) as Hne.
    destruct (split crlf (stripByteOrderMark content)) as [| piece pieces]; [done |].
    cbn [map flat_map]. intros Hnil. apply app_eq_nil in Hnil as [Hnil _].
    revert Hnil. apply paragraphSegments_nonempty.
    destruct markers; [by left | right].
    unfold prepareParagraph. apply in_or_app. right. by left.
Qed.

(** X21: with markers there is one marker for each paragraph, the pieces of
    the content between line breaks, and the marker of the last paragraph
    is the last segment; without markers there is no marker. *)
Theorem allSegments_markers (content : list N) (markers : bool) :
  length (List.filter isMarker (allSegments content markers))
  = (if markers then length (split crlf (stripByteOrderMark content)) else 0%nat)
  /\ (markers = true ->
      exists segments marker,
        allSegments content markers = segments ++ [marker]
        /\ isMarker marker = true).
Proof.
  split.
  - unfold allSegments, paragraphsOf.
    induction (split crlf (stripByteOrderMark content)) as [| piece pieces IH];
      [by destruct markers |].
    cbn [map flat_map]. rewrite List.filter_app, length_app, IH.
    rewrite filter_isMarker_paragraphSegments. by destruct markers.
  - intros ->. unfold allSegments, paragraphsOf.
    pose proof (split_nonempty crlf (stripByteOrderMark content) crlf_nonempty) as Hne.
    destruct (exists_last Hne) as (pieces & piece & ->).
    rewrite map_app, flat_map_app. cbn [map flat_map]. rewrite app_nil_r.
    unfold paragraphSegments at 2. cbn [withProps].
    destruct (indexOf _ _ >=? 0)%Z; eexists _, _; rewrite app_assoc;
      (split; [reflexivity | reflexivity]).
Qed.

(** X22: what [segLimit] does.  A limit that is not greater than zero (an
    integer of zero or less, or [NaN], a negative fraction or the negative
    infinity) returns all the segments.  A limit that is an integer from 1
    to [2^32 - 1] returns an array of exactly that length: the first
    [segLimit] segments when there are that many, else all of them followed
    by holes.  Any other limit greater than zero, an integer from [2^32] on,
    a fraction or the infinity, makes [loadSegments] throw a
    [RangeError]. *)
Theorem loadSegments_segLimit (content : list N) (segLimit : JsNumber) (markers : bool) :
  let segments := allSegments content markers in
  let loaded := loadSegments content segLimit markers in
  (forall z, segLimit = Integer z -> (z <= 0)%Z -> loaded = Done (map Some segments))
  /\ (segLimit = NotInteger false -> loaded = Done (map Some segments))
  /\ (forall z, segLimit = Integer z -> (0 < z < 2 ^ 32)%Z ->
        exists array,
          loaded = Done array
          /\ length array = Z.to_nat z
          /\ forall i, (i < Z.to_nat z)%nat -> array !! i = Some (segments !! i))
  /\ (forall z, segLimit = Integer z -> (2 ^ 32 <= z)%Z ->
        loaded = Defect "RangeError: Invalid array length")
  /\ (segLimit = NotInteger true ->
        loaded = Defect "RangeError: Invalid array length").
Proof.
  intros segments loaded. subst loaded. unfold loadSegments. fold segments.
  split; [| split; [| split; [| split]]].
  - intros z -> Hle. cbn. destruct (Z.gtb_spec z 0); [lia | reflexivity].
  - intros ->. reflexivity.
  - intros z -> Hz. cbn [greaterThanZero setLength].
    destruct (Z.gtb_spec z 0); [| lia].
    destruct (Z.leb_spec 0 z); [| lia]. destruct (Z.ltb_spec z (2 ^ 32)); [| lia].
    cbn [andb]. eexists. split; [reflexivity |].
    set (n := Z.to_nat z). split.
    + rewrite length_app, length_map, length_take, length_replicate. lia.
    + intros i Hi. destruct (Nat.lt_ge_cases i (length segments)) as [Hin | Hout].
      * rewrite lookup_app_l by (rewrite length_map, length_take; lia).
        rewrite list_lookup_fmap, lookup_take_lt by lia.
        destruct (lookup_lt_is_Some_2 segments i Hin) as [s ->]. reflexivity.
      * rewrite lookup_app_r by (rewrite length_map, length_take; lia).
        rewrite length_map, length_take, (lookup_ge_None_2 segments i Hout).
        apply lookup_replicate. split; [reflexivity | lia].
  - intros z -> Hz. cbn [greaterThanZero setLength].
    destruct (Z.gtb_spec z 0); [| lia].
    destruct (Z.ltb_spec z (2 ^ 32)); [lia |].
    by rewrite andb_false_r.
  - intros ->. reflexivity.
Qed.

End LoadSegmentsFacts.

(** ** The tic-tac-toe route of a game *)

Section TicTacToeFacts.

Import TicTacToe.

Context {Endpoints Partials : Type}.
Variable defaultPartials : Partials.
Variable stringify : Endpoints -> string.

(** X23: the page of a game never uses the token of the query.  Whatever
    token the request carries, the handler of [/:id] makes the same calls:
    it renders the view once, with the token of [response.locals], the
    document id of the path as id and as title, and the [id] of the tenant;
    and after that it starts a bot exactly when [player] is "single", for
    the same document and token, with the [tenantId] of the tenant. *)
Theorem getById_ignores_query_token (tenantInfo : TenantInfo Endpoints)
    (request : Request) (localsToken : option string) :
  (forall token,
     getById defaultPartials stringify tenantInfo
       {| queryPlayer := queryPlayer request; queryToken := token;
          paramsId := paramsId request |} localsToken
     = getById defaultPartials stringify tenantInfo request localsToken)
  /\ getById defaultPartials stringify tenantInfo request localsToken
     = Render "tictactoe"
         {| viewEndpoints := stringify (endpoints tenantInfo);
            viewId := paramsId request;
            viewPartials := defaultPartials;
            viewTenantId := id tenantInfo;
            viewTitle := paramsId request;
            viewToken := localsToken |}
       :: (if bool_decide (queryPlayer request = Some "single")
           then [BotStart (paramsId request) (tenantId tenantInfo)
                   (endpoints tenantInfo) localsToken]
           else []).
Proof. split; [intros token |]; reflexivity. Qed.

End TicTacToeFacts.
